(** * Long-range non-bonded force assembly (GROMACS, [src/gromacs/mdlib/force.cpp])

    A shallow embedding of [clearEwaldThreadOutput], [reduceEwaldThreadOuput]
    and [calculateLongRangeNonbondeds].  The routines they call
    ([ewald_LRcorrection], [ewald_charge_correction], [gmx_pme_do],
    [gmx_pme_calc_energy], [do_ewald]) are parameters of the development:
    only their declarations and call sites are part of the sources at hand. *)

From Stdlib Require Import ZArith List Lia PrimFloat.
From stdpp Require Import base option list.

Set Default Proof Using "Type".
Open Scope Z_scope.

(** ** The type [real]

    [real] is [float] or [double], chosen when GROMACS is configured.  The
    code below only stores the constant [0] and adds, so everything is
    stated over any type with these two operations; no law (associativity,
    neutrality of zero, ...) is assumed of [r_add]. *)

Class RealOps (real : Type) : Type := {
  r_zero : real;
  r_add : real -> real -> real;
}.

(** The double-precision build: IEEE 754 binary64. *)
#[global] Instance double_RealOps : RealOps float := {|
  r_zero := PrimFloat.zero;
  r_add := PrimFloat.add;
|}.

(** ** Vectors and 3x3 matrices ([rvec], [matrix], [tensor]) *)

Inductive dim : Set := XX | YY | ZZ.

Record vec3 (A : Type) : Type := Vec3 { at_XX : A; at_YY : A; at_ZZ : A }.
Arguments Vec3 {A} _ _ _.
Arguments at_XX {A} _.
Arguments at_YY {A} _.
Arguments at_ZZ {A} _.

Definition vec3_get {A} (v : vec3 A) (d : dim) : A :=
  match d with XX => at_XX v | YY => at_YY v | ZZ => at_ZZ v end.

Definition vec3_map2 {A} (f : A -> A -> A) (a b : vec3 A) : vec3 A :=
  Vec3 (f (at_XX a) (at_XX b)) (f (at_YY a) (at_YY b)) (f (at_ZZ a) (at_ZZ b)).

Definition vec3_const {A} (a : A) : vec3 A := Vec3 a a a.

(** [FreeEnergyPerturbationCouplingType]: the two coupling types this file
    indexes with. *)
Inductive FreeEnergyPerturbationCouplingType : Set := Coul | Vdw.

(** Modelled from the spec: the slots of the energy-term table [enerd->term];
    the enumeration lives in a header that is not part of the sources at
    hand.  The spec names two slots, "Coulomb reciprocal" and "LJ
    reciprocal"; [F_OTHER] stands for every other slot. *)
Inductive EnergyTerm : Set := F_COUL_RECIP | F_LJ_RECIP | F_OTHER (n : nat).

Definition EnergyTerm_eqb (a b : EnergyTerm) : bool :=
  match a, b with
  | F_COUL_RECIP, F_COUL_RECIP => true
  | F_LJ_RECIP, F_LJ_RECIP => true
  | F_OTHER n, F_OTHER m => Nat.eqb n m
  | _, _ => false
  end.

Inductive WallCycleCounter : Set := PmeMesh.
Inductive WallCycleSubCounter : Set := EwaldCorrection.

(** How a force evaluation can end the process. *)
Inductive FatalCause : Set :=
| ExceptionInThread (t : Z)   (* GMX_CATCH_ALL_AND_EXIT_WITH_FATAL_ERROR, force.cpp:183 *)
| PmeError (status : Z)       (* gmx_fatal, force.cpp:252 *)
| AssertionFailed.            (* assert, force.cpp:208 *)

Section Model.

Context {real : Type} `{RealOps real}.

Definition rvec : Type := vec3 real.
Definition matrix : Type := vec3 rvec.

Definition mat_el (m : matrix) (i j : dim) : real := vec3_get (vec3_get m i) j.

(** Modelled from the spec: [clear_mat] and [m_add] of gromacs/math/vec.h are
    not part of the sources at hand; the spec has [clear] "zero" the virial
    fields and [reduce] sum the virial tensors "element-wise".  [m_add a b]
    is what [m_add(a, b, dest)] leaves in [dest]. *)
Definition clear_mat : matrix := vec3_const (vec3_const r_zero).
Definition m_add (a b : matrix) : matrix := vec3_map2 (vec3_map2 r_add) a b.

(** Modelled from the spec: [gmx::EnumerationArray] over the coupling types,
    as far as the record of the spec goes ("dV/dlambda for Coulomb coupling,
    dV/dlambda for van der Waals coupling"). *)
Record EnumerationArray : Type := EnumArray { at_Coul : real; at_Vdw : real }.

Definition ea_get (a : EnumerationArray) (c : FreeEnergyPerturbationCouplingType) : real :=
  match c with Coul => at_Coul a | Vdw => at_Vdw a end.

Definition ea_set (c : FreeEnergyPerturbationCouplingType) (v : real)
    (a : EnumerationArray) : EnumerationArray :=
  match c with
  | Coul => EnumArray v (at_Vdw a)
  | Vdw => EnumArray (at_Coul a) v
  end.

(** Modelled from the spec: [ewald_corr_thread_t] (PerThreadCorrectionOutput),
    declared in a header that is not part of the sources at hand; its fields
    are those [clearEwaldThreadOutput] assigns. *)
Record ewald_corr_thread_t : Type := EwaldCorr {
  Vcorr_q : real;
  Vcorr_lj : real;
  dvdl : EnumerationArray;
  vir_q : matrix;
  vir_lj : matrix;
}.

Definition set_Vcorr_q (v : real) (e : ewald_corr_thread_t) : ewald_corr_thread_t :=
  EwaldCorr v (Vcorr_lj e) (dvdl e) (vir_q e) (vir_lj e).
Definition set_Vcorr_lj (v : real) (e : ewald_corr_thread_t) : ewald_corr_thread_t :=
  EwaldCorr (Vcorr_q e) v (dvdl e) (vir_q e) (vir_lj e).
Definition set_dvdl (c : FreeEnergyPerturbationCouplingType) (v : real)
    (e : ewald_corr_thread_t) : ewald_corr_thread_t :=
  EwaldCorr (Vcorr_q e) (Vcorr_lj e) (ea_set c v (dvdl e)) (vir_q e) (vir_lj e).
Definition set_vir_q (m : matrix) (e : ewald_corr_thread_t) : ewald_corr_thread_t :=
  EwaldCorr (Vcorr_q e) (Vcorr_lj e) (dvdl e) m (vir_lj e).
Definition set_vir_lj (m : matrix) (e : ewald_corr_thread_t) : ewald_corr_thread_t :=
  EwaldCorr (Vcorr_q e) (Vcorr_lj e) (dvdl e) (vir_q e) m.

(** force.cpp:76-84.  The record is passed by pointer; the result is the
    record the pointer designates afterwards.  The six assignments, first to
    last. *)
Definition clearEwaldThreadOutput (ewc_t : ewald_corr_thread_t) : ewald_corr_thread_t :=
  set_vir_lj clear_mat
    (set_vir_q clear_mat
      (set_dvdl Vdw r_zero
        (set_dvdl Coul r_zero
          (set_Vcorr_lj r_zero
            (set_Vcorr_q r_zero ewc_t))))).

(** The record with every field zero. *)
Definition zero_output : ewald_corr_thread_t :=
  EwaldCorr r_zero r_zero (EnumArray r_zero r_zero) clear_mat clear_mat.

(** One pass of the loop body of [reduceEwaldThreadOuput] (force.cpp:92-99):
    [dest] is [ewc_t[0]], the source is [ewc_t[t]].  An index outside the
    array is undefined behaviour in C++: [None]. *)
Definition reduce_body (ewc_t : list ewald_corr_thread_t) (t : Z)
    : option (list ewald_corr_thread_t) :=
  match ewc_t !! 0%nat, ewc_t !! Z.to_nat t with
  | Some dest, Some src =>
      let dest := set_Vcorr_q (r_add (Vcorr_q dest) (Vcorr_q src)) dest in
      let dest := set_Vcorr_lj (r_add (Vcorr_lj dest) (Vcorr_lj src)) dest in
      let dest := set_dvdl Coul (r_add (ea_get (dvdl dest) Coul) (ea_get (dvdl src) Coul)) dest in
      let dest := set_dvdl Vdw (r_add (ea_get (dvdl dest) Vdw) (ea_get (dvdl src) Vdw)) dest in
      let dest := set_vir_q (m_add (vir_q dest) (vir_q src)) dest in
      let dest := set_vir_lj (m_add (vir_lj dest) (vir_lj src)) dest in
      Some (<[0%nat := dest]> ewc_t)
  | _, _ => None
  end.

(** A [for] loop over the indices [ts] whose passes may be undefined. *)
Fixpoint for_each {S : Type} (body : S -> Z -> option S) (ts : list Z) (s : S) : option S :=
  match ts with
  | [] => Some s
  | t :: ts' => match body s t with
                | Some s' => for_each body ts' s'
                | None => None
                end
  end.

(** force.cpp:86-101.  [for (int t = 1; t < nthreads; t++)] visits
    [seqZ 1 (nthreads - 1)], which is empty when [nthreads <= 1]. *)
Definition reduceEwaldThreadOuput (nthreads : Z) (ewc_t : list ewald_corr_thread_t)
    : option (list ewald_corr_thread_t) :=
  match ewc_t !! 0%nat with
  | Some _ => for_each reduce_body (seqZ 1 (nthreads - 1)) ewc_t
  | None => None
  end.

(** The sum the spec speaks of ("thread 0's record holds the sum over all
    threads"), for one field: the field of record 0, to which those of
    records 1, 2, ... are added in turn.  Written from the spec's words, to
    be compared with [reduceEwaldThreadOuput]. *)
Definition sum_over_threads (field : ewald_corr_thread_t -> real)
    (records : list ewald_corr_thread_t) : option real :=
  match records with
  | [] => None
  | r0 :: rs => Some (fold_left (fun acc r => r_add acc (field r)) rs (field r0))
  end.

(** ** The state [calculateLongRangeNonbondeds] works on *)

(** [gmx_ewald_tab_t], ewald.h:87-100; [t_complex] is a pair of reals. *)
Record gmx_ewald_tab_t : Type := EwaldTab {
  nx : Z;
  ny : Z;
  nz : Z;
  kmax : Z;
  tab_xy : list (real * real);
  tab_qxyz : list (real * real);
}.

(** The PME solver's own data, [struct gmx_pme_t], is opaque here. *)
Context {gmx_pme_t : Type}.

(** What an execution does to its surroundings besides the data below: the
    calls it makes, in order.  [ewald_LRcorrection_called t r] carries the
    record of thread [t] as it is when the thread calls the routine. *)
Inductive Event : Type :=
| wallcycle_sub_start (c : WallCycleSubCounter)
| wallcycle_sub_stop (c : WallCycleSubCounter)
| wallcycle_start (c : WallCycleCounter)
| wallcycle_stop (c : WallCycleCounter)
| ewald_LRcorrection_called (t : Z) (r : ewald_corr_thread_t)
| ewald_LRcorrection_threw (t : Z)
| ewald_charge_correction_called
| closeAfterForceComputationCpu
| gmx_pme_do_called
| gmx_pme_do_returned (status : Z)
| gmx_pme_calc_energy_called
| do_ewald_called.

Record State : Type := mkState {
  ewc_t : list ewald_corr_thread_t;   (* fr->ewc_t *)
  pmedata : gmx_pme_t;                (* fr->pmedata *)
  ewald_table : gmx_ewald_tab_t;      (* fr->ewald_table *)
  force_ : list rvec;                 (* forceWithVirial->force_ *)
  virial_ : matrix;                   (* the virial forceWithVirial accumulates *)
  term : EnergyTerm -> real;          (* enerd->term *)
  dvdl_lin : EnumerationArray;        (* enerd->dvdl_lin *)
  trace : list Event;                 (* the calls made so far *)
}.

Definition set_ewc_t (v : list ewald_corr_thread_t) (s : State) : State :=
  mkState v (pmedata s) (ewald_table s) (force_ s) (virial_ s) (term s) (dvdl_lin s) (trace s).
Definition set_pmedata (v : gmx_pme_t) (s : State) : State :=
  mkState (ewc_t s) v (ewald_table s) (force_ s) (virial_ s) (term s) (dvdl_lin s) (trace s).
Definition set_ewald_table (v : gmx_ewald_tab_t) (s : State) : State :=
  mkState (ewc_t s) (pmedata s) v (force_ s) (virial_ s) (term s) (dvdl_lin s) (trace s).
Definition set_force_ (v : list rvec) (s : State) : State :=
  mkState (ewc_t s) (pmedata s) (ewald_table s) v (virial_ s) (term s) (dvdl_lin s) (trace s).
Definition set_virial_ (v : matrix) (s : State) : State :=
  mkState (ewc_t s) (pmedata s) (ewald_table s) (force_ s) v (term s) (dvdl_lin s) (trace s).
Definition set_term (v : EnergyTerm -> real) (s : State) : State :=
  mkState (ewc_t s) (pmedata s) (ewald_table s) (force_ s) (virial_ s) v (dvdl_lin s) (trace s).
Definition set_dvdl_lin (v : EnumerationArray) (s : State) : State :=
  mkState (ewc_t s) (pmedata s) (ewald_table s) (force_ s) (virial_ s) (term s) v (trace s).
Definition set_trace (v : list Event) (s : State) : State :=
  mkState (ewc_t s) (pmedata s) (ewald_table s) (force_ s) (virial_ s) (term s) (dvdl_lin s) v.

(** [term[k] = v]. *)
Definition term_upd (k : EnergyTerm) (v : real) (tm : EnergyTerm -> real) : EnergyTerm -> real :=
  fun k' => if EnergyTerm_eqb k' k then v else tm k'.

(** What [calculateLongRangeNonbondeds] reads of the run configuration.  The
    interaction-type tests [EEL_PME], [EVDW_PME], [EEL_PME_EWALD],
    [thisRankHasDuty], [pme_run_mode] and [haveEwaldSurfaceContribution] are
    not part of the sources at hand: the configuration holds the value each
    of them takes. *)
Record Config : Type := mkConfig {
  EEL_PME : bool;                       (* EEL_PME(fr->ic->eeltype) *)
  EVDW_PME : bool;                      (* EVDW_PME(fr->ic->vdwtype) *)
  EEL_PME_EWALD : bool;                 (* EEL_PME_EWALD(fr->ic->eeltype) *)
  eeltype_is_Ewald : bool;              (* fr->ic->eeltype == CoulombInteractionType::Ewald *)
  thisRankHasDuty_PME : bool;           (* thisRankHasDuty(cr, DUTY_PME) *)
  pme_run_mode_is_CPU : bool;           (* pme_run_mode(fr->pmedata) == PmeRunMode::CPU *)
  haveEwaldSurfaceContribution : bool;  (* haveEwaldSurfaceContribution(ir) *)
  computeNonbondedForces : bool;        (* stepWork.computeNonbondedForces *)
  stateChanged : bool;                  (* stepWork.stateChanged *)
  nthread_ewc : Z;                      (* fr->nthread_ewc *)
  n_tpi : Z;                            (* fr->n_tpi *)
  NDEBUG : bool;                        (* whether assert is compiled out *)
}.

(** What [gmx_pme_do] reads and writes through its pointer arguments. *)
Record PmeInOut : Type := mkPmeInOut {
  pme : gmx_pme_t;
  pme_forces : list rvec;
  pme_vir_q : matrix;
  pme_vir_lj : matrix;
  energy_q : real;
  energy_lj : real;
  dvdlambda_q : real;
  dvdlambda_lj : real;
}.

(** The routines called.  Each is a function of the data it can write
    through its arguments; the data it only reads (coordinates, charges,
    box, lambda, the input record, the communication record) is the same
    throughout a force evaluation and is left implicit.
    - [ewald_LRcorrection numThreads thread f Vcorr_q dvdlambda_q]:
      [None] when it throws, else the new [f], [*Vcorr_q], [*dvdlambda_q];
    - [ewald_charge_correction dvdlambda vir]: the energy returned, and the
      new [*dvdlambda] and [vir];
    - [gmx_pme_do io]: the status returned and the new contents;
    - [gmx_pme_calc_energy pme]: the energy returned and the new [*pme];
    - [do_ewald f lrvir dvdlambda et]: the energy returned and the new [f],
      [lrvir], [*dvdlambda], [*et]. *)
Record Externals : Type := mkExternals {
  ewald_LRcorrection : Z -> Z -> list rvec -> real -> real -> option (list rvec * real * real);
  ewald_charge_correction : real -> matrix -> real * real * matrix;
  gmx_pme_do : PmeInOut -> Z * PmeInOut;
  gmx_pme_calc_energy : gmx_pme_t -> real * gmx_pme_t;
  do_ewald : list rvec -> matrix -> real -> gmx_ewald_tab_t
             -> real * list rvec * matrix * real * gmx_ewald_tab_t;
}.

(** ** A state-and-failure monad *)

(** An execution returns, ends the process with a fatal error (the state is
    the one reached then), or is undefined (an array is indexed outside its
    bounds). *)
Inductive Result (A : Type) : Type :=
| Returns (a : A) (s : State)
| Fatal (c : FatalCause) (s : State)
| Undefined.
Arguments Returns {A} _ _.
Arguments Fatal {A} _ _.
Arguments Undefined {A}.

Definition M (A : Type) : Type := State -> Result A.

Definition ret {A} (a : A) : M A := fun s => Returns a s.

Definition bind {A B} (m : M A) (k : A -> M B) : M B :=
  fun s => match m s with
           | Returns a s' => k a s'
           | Fatal c s' => Fatal c s'
           | Undefined => Undefined
           end.

Definition get : M State := fun s => Returns s s.
Definition modify (f : State -> State) : M unit := fun s => Returns tt (f s).
Definition fatal {A} (c : FatalCause) : M A := fun s => Fatal c s.

Definition emit (e : Event) : M unit := modify (fun s => set_trace (trace s ++ [e]) s).

(** [fr->ewc_t[t]], read and written.  The vector is not indexed by a
    negative [t] below. *)
Definition read_ewc_t (t : Z) : M ewald_corr_thread_t :=
  fun s => match ewc_t s !! Z.to_nat t with
           | Some r => Returns r s
           | None => Undefined
           end.

Definition update_ewc_t (t : Z) (f : ewald_corr_thread_t -> ewald_corr_thread_t) : M unit :=
  fun s => match ewc_t s !! Z.to_nat t with
           | Some r => Returns tt (set_ewc_t (<[Z.to_nat t := f r]> (ewc_t s)) s)
           | None => Undefined
           end.

(** [for (int t = ...)] over the indices [ts]. *)
Fixpoint for_threads (body : Z -> M unit) (ts : list Z) : M unit :=
  match ts with
  | [] => ret tt
  | t :: ts' => bind (body t) (fun _ => for_threads body ts')
  end.

(** ** [calculateLongRangeNonbondeds], force.cpp:103-326 *)

Notation "x <- m ;; k" := (bind m (fun x => k))
  (at level 20, m at level 99, k at level 200, only parsing).
Notation "m ;;; k" := (bind m (fun _ => k))
  (at level 100, k at level 200, only parsing, right associativity).

(** force.cpp:118-120. *)
Definition computePmeOnCpu (cfg : Config) : bool :=
  (EEL_PME cfg || EVDW_PME cfg) && thisRankHasDuty_PME cfg && pme_run_mode_is_CPU cfg.

(** The condition of the outer [if], force.cpp:127-128. *)
Definition doLongRange (cfg : Config) : bool :=
  (computePmeOnCpu cfg || eeltype_is_Ewald cfg || haveEwaldSurfaceContribution cfg)
  && computeNonbondedForces cfg.

(** The condition under which control reaches the parallel loop of
    force.cpp:147-184. *)
Definition doSurfaceCorrection (cfg : Config) : bool :=
  doLongRange cfg && (EEL_PME_EWALD cfg || EVDW_PME cfg) && haveEwaldSurfaceContribution cfg.

(** The condition under which control reaches force.cpp:196-202. *)
Definition doChargeCorrection (cfg : Config) : bool :=
  doLongRange cfg && (EEL_PME_EWALD cfg || EVDW_PME cfg)
  && (EEL_PME_EWALD cfg && (n_tpi cfg =? 0)).

Variable ext : Externals.

(** One pass of the parallel loop, force.cpp:150-183: what thread [t] does.
    Modelled from the spec: GMX_CATCH_ALL_AND_EXIT_WITH_FATAL_ERROR is not
    part of the sources at hand; by the spec an exception in a thread's unit
    of work "must abort the step with a fatal error". *)
Definition ewaldCorrectionThread (nthreads t : Z) : M unit :=
  read_ewc_t t ;;;
  (if 0 <? t then update_ewc_t t clearEwaldThreadOutput else ret tt) ;;;
  ewc <- read_ewc_t t ;;
  emit (ewald_LRcorrection_called t ewc) ;;;
  s <- get ;;
  match ewald_LRcorrection ext nthreads t (force_ s) (Vcorr_q ewc) (ea_get (dvdl ewc) Coul) with
  | Some (f, Vcorr, dvdlambda) =>
      modify (set_force_ f) ;;;
      update_ewc_t t (fun e => set_dvdl Coul dvdlambda (set_Vcorr_q Vcorr e))
  | None =>
      emit (ewald_LRcorrection_threw t) ;;;
      fatal (ExceptionInThread t)
  end.

(** force.cpp:142-190, inside [if (haveEwaldSurfaceTerm)].  The iterations
    of the [omp parallel for] are taken one after the other, in the order of
    the loop, which is how the loop runs in a build without OpenMP; with
    OpenMP an iteration works on its own record [fr->ewc_t[t]] and, by the
    comment at force.cpp:158-162, on the forces of its own particles.  What
    depends on the order of the iterations (the order of the calls, the
    forces a thread finds, two executions compared) is stated over
    [ewaldSurfaceCorrectionIn] below, for every order. *)
Definition ewaldSurfaceCorrection (cfg : Config) : M unit :=
  emit (wallcycle_sub_start EwaldCorrection) ;;;
  let nthreads := nthread_ewc cfg in
  for_threads (ewaldCorrectionThread nthreads) (seqZ 0 nthreads) ;;;
  (if 1 <? nthreads
   then fun s => match reduceEwaldThreadOuput nthreads (ewc_t s) with
                 | Some l => Returns tt (set_ewc_t l s)
                 | None => Undefined
                 end
   else ret tt) ;;;
  emit (wallcycle_sub_stop EwaldCorrection).

(** force.cpp:196-202; [ewaldOutput] is [fr->ewc_t[0]]. *)
Definition netChargeCorrection : M unit :=
  ewaldOutput <- read_ewc_t 0 ;;
  emit ewald_charge_correction_called ;;;
  let '(enercorr, dvdlambda, vir) :=
    ewald_charge_correction ext (ea_get (dvdl ewaldOutput) Coul) (vir_q ewaldOutput) in
  update_ewc_t 0 (fun e =>
    set_Vcorr_q (r_add (Vcorr_q e) enercorr) (set_vir_q vir (set_dvdl Coul dvdlambda e))).

(** force.cpp:209-262, inside [if (fr->n_tpi == 0 || stepWork.stateChanged)]:
    the result is [Vlr_q] and [Vlr_lj]. *)
Definition reciprocalPme (Vlr_q Vlr_lj : real) : M (real * real) :=
  emit closeAfterForceComputationCpu ;;;
  emit (wallcycle_start PmeMesh) ;;;
  ewaldOutput <- read_ewc_t 0 ;;
  s <- get ;;
  emit gmx_pme_do_called ;;;
  let '(status, out) :=
    gmx_pme_do ext
      (mkPmeInOut (pmedata s) (force_ s) (vir_q ewaldOutput) (vir_lj ewaldOutput)
                  Vlr_q Vlr_lj
                  (ea_get (dvdl ewaldOutput) Coul) (ea_get (dvdl ewaldOutput) Vdw)) in
  modify (fun s => set_force_ (pme_forces out) (set_pmedata (pme out) s)) ;;;
  update_ewc_t 0 (fun e =>
    set_dvdl Vdw (dvdlambda_lj out)
      (set_dvdl Coul (dvdlambda_q out)
        (set_vir_lj (pme_vir_lj out) (set_vir_q (pme_vir_q out) e)))) ;;;
  emit (gmx_pme_do_returned status) ;;;
  emit (wallcycle_stop PmeMesh) ;;;
  (if negb (status =? 0) then fatal (PmeError status) else ret tt) ;;;
  ret (energy_q out, energy_lj out).

(** force.cpp:205-273, inside [if (computePmeOnCpu)]. *)
Definition pmeOnCpu (cfg : Config) (Vlr_q Vlr_lj : real) : M (real * real) :=
  (if negb (NDEBUG cfg) && negb (0 <=? n_tpi cfg) then fatal AssertionFailed else ret tt) ;;;
  V <- (if (n_tpi cfg =? 0) || stateChanged cfg
        then reciprocalPme Vlr_q Vlr_lj
        else ret (Vlr_q, Vlr_lj)) ;;
  if 0 <? n_tpi cfg
  then
    emit gmx_pme_calc_energy_called ;;;
    s <- get ;;
    let '(e, p) := gmx_pme_calc_energy ext (pmedata s) in
    modify (set_pmedata p) ;;;
    ret (e, snd V)
  else ret V.

(** force.cpp:276-291, inside [if (fr->ic->eeltype == Ewald)]. *)
Definition plainEwald : M real :=
  ewaldOutput <- read_ewc_t 0 ;;
  s <- get ;;
  emit do_ewald_called ;;;
  let '(Vlr_q, f, lrvir, dvdlambda, et) :=
    do_ewald ext (force_ s) (vir_q ewaldOutput) (ea_get (dvdl ewaldOutput) Coul)
             (ewald_table s) in
  modify (fun s => set_ewald_table et (set_force_ f s)) ;;;
  update_ewc_t 0 (fun e => set_dvdl Coul dvdlambda (set_vir_q lrvir e)) ;;;
  ret Vlr_q.

(** force.cpp:130-291: everything the long-range branch does before it
    merges; the result is the final [Vlr_q] and [Vlr_lj]. *)
Definition longRangeCompute (cfg : Config) : M (real * real) :=
  let Vlr_q := r_zero in
  let Vlr_lj := r_zero in
  update_ewc_t 0 clearEwaldThreadOutput ;;;
  V <- (if EEL_PME_EWALD cfg || EVDW_PME cfg
        then
          (if haveEwaldSurfaceContribution cfg then ewaldSurfaceCorrection cfg else ret tt) ;;;
          (if EEL_PME_EWALD cfg && (n_tpi cfg =? 0) then netChargeCorrection else ret tt) ;;;
          (if computePmeOnCpu cfg then pmeOnCpu cfg Vlr_q Vlr_lj else ret (Vlr_q, Vlr_lj))
        else ret (Vlr_q, Vlr_lj)) ;;
  if eeltype_is_Ewald cfg
  then Vlr_q <- plainEwald ;; ret (Vlr_q, snd V)
  else ret V.

(** Modelled from the spec: [ForceWithVirial::addVirialContribution] is not
    part of the sources at hand; the spec calls it "an additive virial
    contribution call" that merges a tensor "into the caller's accumulator". *)
Definition addVirialContribution (virial : matrix) : M unit :=
  modify (fun s => set_virial_ (m_add (virial_ s) virial) s).

(** force.cpp:296-303: the merge into the caller's accumulators. *)
Definition longRangeMerge (Vlr_q Vlr_lj : real) : M unit :=
  ewaldOutput <- read_ewc_t 0 ;;
  addVirialContribution (vir_q ewaldOutput) ;;;
  addVirialContribution (vir_lj ewaldOutput) ;;;
  modify (fun s =>
    set_dvdl_lin
      (ea_set Coul (r_add (ea_get (dvdl_lin s) Coul) (ea_get (dvdl ewaldOutput) Coul))
              (dvdl_lin s)) s) ;;;
  modify (fun s =>
    set_dvdl_lin
      (ea_set Vdw (r_add (ea_get (dvdl_lin s) Vdw) (ea_get (dvdl ewaldOutput) Vdw))
              (dvdl_lin s)) s) ;;;
  modify (fun s =>
    set_term (term_upd F_COUL_RECIP (r_add Vlr_q (Vcorr_q ewaldOutput)) (term s)) s) ;;;
  modify (fun s =>
    set_term (term_upd F_LJ_RECIP (r_add Vlr_lj (Vcorr_lj ewaldOutput)) (term s)) s).

(** force.cpp:103-326.  The output to the [debug] file (force.cpp:305-325)
    changes none of the data modelled and is left out. *)
Definition calculateLongRangeNonbondeds (cfg : Config) : M unit :=
  if doLongRange cfg
  then V <- longRangeCompute cfg ;; longRangeMerge (fst V) (snd V)
  else ret tt.

(** ** The parallel loop under a schedule *)

(** force.cpp:142-190 with the iterations of the [omp parallel for] taken in
    the order [order].  With OpenMP the iterations run concurrently, in an
    order that varies from run to run.  An iteration clears and writes its
    own record [fr->ewc_t[t]] only and, by the comment at force.cpp:158-162,
    computes the forces of its own particles, so that a concurrent execution
    comes to the iterations taken whole, in some order: a thread finds the
    forces as the threads scheduled before it left them.  An exception ends
    the process in the thread that throws
    (GMX_CATCH_ALL_AND_EXIT_WITH_FATAL_ERROR); the threads scheduled before
    it have called, the others have not.  [ewaldSurfaceCorrection cfg] is
    [ewaldSurfaceCorrectionIn (seqZ 0 (nthread_ewc cfg)) cfg]. *)
Definition ewaldSurfaceCorrectionIn (order : list Z) (cfg : Config) : M unit :=
  emit (wallcycle_sub_start EwaldCorrection) ;;;
  let nthreads := nthread_ewc cfg in
  for_threads (ewaldCorrectionThread nthreads) order ;;;
  (if 1 <? nthreads
   then fun s => match reduceEwaldThreadOuput nthreads (ewc_t s) with
                 | Some l => Returns tt (set_ewc_t l s)
                 | None => Undefined
                 end
   else ret tt) ;;;
  emit (wallcycle_sub_stop EwaldCorrection).

(** [longRangeCompute] and [calculateLongRangeNonbondeds] with the parallel
    loop taken in the order [order]. *)
Definition longRangeComputeIn (order : list Z) (cfg : Config) : M (real * real) :=
  let Vlr_q := r_zero in
  let Vlr_lj := r_zero in
  update_ewc_t 0 clearEwaldThreadOutput ;;;
  V <- (if EEL_PME_EWALD cfg || EVDW_PME cfg
        then
          (if haveEwaldSurfaceContribution cfg
           then ewaldSurfaceCorrectionIn order cfg else ret tt) ;;;
          (if EEL_PME_EWALD cfg && (n_tpi cfg =? 0) then netChargeCorrection else ret tt) ;;;
          (if computePmeOnCpu cfg then pmeOnCpu cfg Vlr_q Vlr_lj else ret (Vlr_q, Vlr_lj))
        else ret (Vlr_q, Vlr_lj)) ;;
  if eeltype_is_Ewald cfg
  then Vlr_q <- plainEwald ;; ret (Vlr_q, snd V)
  else ret V.

Definition calculateLongRangeNonbondedsIn (order : list Z) (cfg : Config) : M unit :=
  if doLongRange cfg
  then V <- longRangeComputeIn order cfg ;; longRangeMerge (fst V) (snd V)
  else ret tt.

(** The calls an execution has made when it ends; nothing is known of an
    undefined execution. *)
Definition trace_of {A} (r : Result A) : list Event :=
  match r with
  | Returns _ s => trace s
  | Fatal _ s => trace s
  | Undefined => []
  end.

End Model.

Arguments rvec : clear implicits.
Arguments matrix : clear implicits.
Arguments EnumerationArray : clear implicits.
Arguments ewald_corr_thread_t : clear implicits.
Arguments gmx_ewald_tab_t : clear implicits.
Arguments Event : clear implicits.
Arguments State : clear implicits.
Arguments PmeInOut : clear implicits.
Arguments Externals : clear implicits.
Arguments Result : clear implicits.
Arguments M : clear implicits.
Arguments Returns {real gmx_pme_t A} _ _.
Arguments Fatal {real gmx_pme_t A} _ _.
Arguments Undefined {real gmx_pme_t A}.

(** * Specification vocabulary

    The relations and predicates the properties below are stated with. *)

Section Vocabulary.

Context {real : Type} `{RealOps real} {gmx_pme_t : Type}.

(** What one pass of the reduction leaves in [dest]. *)
Definition add_output (dest src : ewald_corr_thread_t real) : ewald_corr_thread_t real :=
  EwaldCorr (r_add (Vcorr_q dest) (Vcorr_q src))
            (r_add (Vcorr_lj dest) (Vcorr_lj src))
            (EnumArray (r_add (ea_get (dvdl dest) Coul) (ea_get (dvdl src) Coul))
                       (r_add (ea_get (dvdl dest) Vdw) (ea_get (dvdl src) Vdw)))
            (m_add (vir_q dest) (vir_q src))
            (m_add (vir_lj dest) (vir_lj src)).

(** The caller's accumulators: the virial, [dvdl_lin] and the energy terms. *)
Definition accumulators_kept (s s' : State real gmx_pme_t) : Prop :=
  virial_ s' = virial_ s /\ dvdl_lin s' = dvdl_lin s /\ term s' = term s.

(** [s'] is reached from [s] by calls whose sequence satisfies [P]. *)
Definition trace_rel (P : list (Event real) -> Prop) (s s' : State real gmx_pme_t) : Prop :=
  exists evs, trace s' = trace s ++ evs /\ P evs.

(** ... and in between the accumulators were not written and the array of
    per-thread records kept its length. *)
Definition step_rel (P : list (Event real) -> Prop) (s s' : State real gmx_pme_t) : Prop :=
  accumulators_kept s s' /\ length (ewc_t s') = length (ewc_t s) /\ trace_rel P s s'.

(** [P] describes the calls of executions that return, [Pf] those of
    executions that end in a fatal error; both are read off sequences of
    calls and go along with sequential composition. *)
Record TraceProps (P Pf : list (Event real) -> Prop) : Prop := {
  tp_nil : P [];
  tp_app : forall a b, P a -> P b -> P (a ++ b);
  tp_app_f : forall a b, P a -> Pf b -> Pf (a ++ b);
}.

(** [P] and [Pf] hold of the call sequences the blocks of
    [calculateLongRangeNonbondeds] can produce under [cfg]. *)
Record Admits (cfg : Config) (P Pf : list (Event real) -> Prop) : Prop := {
  ad_props : TraceProps P Pf;
  ad_sub_start : doSurfaceCorrection cfg = true -> P [wallcycle_sub_start EwaldCorrection];
  ad_thread : doSurfaceCorrection cfg = true ->
    forall t, 0 <= t < nthread_ewc cfg -> P [ewald_LRcorrection_called t zero_output];
  ad_thread_f : doSurfaceCorrection cfg = true ->
    forall t, 0 <= t < nthread_ewc cfg ->
    Pf [ewald_LRcorrection_called t zero_output; ewald_LRcorrection_threw t];
  ad_sub_stop : doSurfaceCorrection cfg = true -> P [wallcycle_sub_stop EwaldCorrection];
  ad_charge : doChargeCorrection cfg = true -> P [ewald_charge_correction_called];
  ad_pme : P [closeAfterForceComputationCpu; wallcycle_start PmeMesh; gmx_pme_do_called;
              gmx_pme_do_returned 0; wallcycle_stop PmeMesh];
  ad_pme_f : forall status, status <> 0 ->
    Pf [closeAfterForceComputationCpu; wallcycle_start PmeMesh; gmx_pme_do_called;
        gmx_pme_do_returned status; wallcycle_stop PmeMesh];
  ad_assert : negb (NDEBUG cfg) && negb (0 <=? n_tpi cfg) = true -> Pf [];
  ad_calc : P [gmx_pme_calc_energy_called];
  ad_ewald : P [do_ewald_called];
}.

(** The outcome [r] of an execution started in [s]: [RQ] relates [s] to the
    state it returns in, [RE] to the state of a fatal error. *)
Definition outcome_in {A} (RQ RE : State real gmx_pme_t -> State real gmx_pme_t -> Prop)
    (s : State real gmx_pme_t) (r : Result real gmx_pme_t A) : Prop :=
  match r with
  | Returns _ s' => RQ s s'
  | Fatal _ s' => RE s s'
  | Undefined => True
  end.

(** Every call of [ewald_LRcorrection] among [evs] is made by a thread of
    the team, on a record all of whose fields are zero. *)
Definition cleared_before_use (nthreads : Z) (evs : list (Event real)) : Prop :=
  forall t r, In (ewald_LRcorrection_called t r) evs -> 0 <= t < nthreads /\ r = zero_output.

(** Among [evs], every call of [gmx_pme_do] comes after a call of
    [ddBalanceRegionHandler.closeAfterForceComputationCpu]. *)
Definition closed_before_pme (evs : list (Event real)) : Prop :=
  forall pre post, evs = pre ++ gmx_pme_do_called :: post ->
                   In closeAfterForceComputationCpu pre.

(** An exception thrown in a thread's unit of work, or a non-zero status of
    the reciprocal solver. *)
Definition failure (e : Event real) : Prop :=
  (exists t, e = ewald_LRcorrection_threw t)
  \/ (exists status, status <> 0 /\ e = gmx_pme_do_returned status).


(** What can end an execution in a fatal error: a call among [evs] has
    failed, or the assertion [fr->n_tpi >= 0] is compiled in and fails. *)
Definition failed (cfg : Config) (evs : list (Event real)) : Prop :=
  (exists e, In e evs /\ failure e) \/ (NDEBUG cfg = false /\ n_tpi cfg < 0).

(** [ext] with another routine in the place of [ewald_LRcorrection], and of
    [ewald_charge_correction]. *)
Definition with_ewald_LRcorrection
    (f : Z -> Z -> list (rvec real) -> real -> real -> option (list (rvec real) * real * real))
    (ext : Externals real gmx_pme_t) : Externals real gmx_pme_t :=
  mkExternals f (ewald_charge_correction ext) (gmx_pme_do ext)
              (gmx_pme_calc_energy ext) (do_ewald ext).

Definition with_ewald_charge_correction
    (f : real -> matrix real -> real * real * matrix real)
    (ext : Externals real gmx_pme_t) : Externals real gmx_pme_t :=
  mkExternals (ewald_LRcorrection ext) f (gmx_pme_do ext)
              (gmx_pme_calc_energy ext) (do_ewald ext).

(** The execution has called [ewald_LRcorrection]. *)
Definition LRcorrection_called (evs : list (Event real)) : Prop :=
  exists t r, In (ewald_LRcorrection_called t r) evs.

(** The outcome [r] of an execution that entered the parallel loop with at
    least one thread: thread 0 has called [ewald_LRcorrection]. *)
Definition thread0_called {A} (r : Result real gmx_pme_t A) : Prop :=
  match r with
  | Returns _ s' => exists rec, In (ewald_LRcorrection_called 0 rec) (trace s')
  | Fatal _ s' => exists rec, In (ewald_LRcorrection_called 0 rec) (trace s')
  | Undefined => True
  end.

(** The calls made so far stay made. *)
Definition grows {A} (s : State real gmx_pme_t) (r : Result real gmx_pme_t A) : Prop :=
  outcome_in (trace_rel (fun _ => True)) (trace_rel (fun _ => True)) s r.

(** Everything of the state but the per-thread records, which are scratch
    space of [calculateLongRangeNonbondeds]. *)
Definition same_outputs (s1 s2 : State real gmx_pme_t) : Prop :=
  pmedata s1 = pmedata s2 /\ ewald_table s1 = ewald_table s2 /\ force_ s1 = force_ s2
  /\ virial_ s1 = virial_ s2 /\ term s1 = term s2 /\ dvdl_lin s1 = dvdl_lin s2
  /\ trace s1 = trace s2.



(** The array [fr->ewc_t] holds record 0 and a record for each of the
    [nthread_ewc] threads. *)
Definition records_allocated (cfg : Config) (s : State real gmx_pme_t) : Prop :=
  (1 <= length (ewc_t s))%nat /\ nthread_ewc cfg <= Z.of_nat (length (ewc_t s)).

(** [m] indexes no array outside its bounds, and keeps the records
    allocated. *)
Definition in_bounds (cfg : Config) {A} (m : M real gmx_pme_t A) : Prop :=
  forall s, records_allocated cfg s ->
            match m s with
            | Returns _ s' => records_allocated cfg s'
            | Fatal _ _ => True
            | Undefined => False
            end.

(** ** Hoare triples *)

(** From a state in [Pre], [m] returns [a] in a state in [Q a], or ends in
    the fatal error [c] in a state in [E c]; nothing is said of an undefined
    execution. *)
Definition triple {A} (Pre : State real gmx_pme_t -> Prop) (m : M real gmx_pme_t A)
    (Q : A -> State real gmx_pme_t -> Prop)
    (E : FatalCause -> State real gmx_pme_t -> Prop) : Prop :=
  forall s, Pre s ->
            match m s with
            | Returns a s' => Q a s'
            | Fatal c s' => E c s'
            | Undefined => True
            end.

(** ** The calls of an execution, written out *)

(** The condition under which control reaches the call of [gmx_pme_do],
    force.cpp:218: the conditions of the [if]s at lines 127, 139, 205 and
    209. *)
Definition doReciprocalPme (cfg : Config) : bool :=
  doLongRange cfg && (EEL_PME_EWALD cfg || EVDW_PME cfg) && computePmeOnCpu cfg
  && ((n_tpi cfg =? 0) || stateChanged cfg).

(** ... the call of [gmx_pme_calc_energy], force.cpp:268 (lines 127, 139,
    205 and 263). *)
Definition doPmeCalcEnergy (cfg : Config) : bool :=
  doLongRange cfg && (EEL_PME_EWALD cfg || EVDW_PME cfg) && computePmeOnCpu cfg
  && (0 <? n_tpi cfg).

(** ... the call of [do_ewald], force.cpp:278 (lines 127 and 276). *)
Definition doPlainEwald (cfg : Config) : bool :=
  doLongRange cfg && eeltype_is_Ewald cfg.

(** The calls of the threads [0 .. nthreads-1], each on a zeroed record. *)
Definition LRcorrection_calls (nthreads : Z) : list (Event real) :=
  map (fun t => ewald_LRcorrection_called t zero_output) (seqZ 0 nthreads).

(** The calls of force.cpp:144-189 when no thread throws. *)
Definition surface_calls (cfg : Config) : list (Event real) :=
  wallcycle_sub_start EwaldCorrection
  :: LRcorrection_calls (nthread_ewc cfg) ++ [wallcycle_sub_stop EwaldCorrection].

(** The calls of force.cpp:215-249 when [gmx_pme_do] returns [status]. *)
Definition pme_calls (status : Z) : list (Event real) :=
  [closeAfterForceComputationCpu; wallcycle_start PmeMesh; gmx_pme_do_called;
   gmx_pme_do_returned status; wallcycle_stop PmeMesh].

(** The calls made before control reaches [if (computePmeOnCpu)],
    force.cpp:205. *)
Definition calls_before_pme (cfg : Config) : list (Event real) :=
  (if doSurfaceCorrection cfg then surface_calls cfg else [])
  ++ (if doChargeCorrection cfg then [ewald_charge_correction_called] else []).

(** The calls of an execution that returns. *)
Definition calls_of (cfg : Config) : list (Event real) :=
  calls_before_pme cfg
  ++ (if doReciprocalPme cfg then pme_calls 0 else [])
  ++ (if doPmeCalcEnergy cfg then [gmx_pme_calc_energy_called] else [])
  ++ (if doPlainEwald cfg then [do_ewald_called] else []).

(** The calls of an execution that ends in the fatal error [c]. *)
Definition fatal_calls (cfg : Config) (c : FatalCause) : list (Event real) :=
  match c with
  | ExceptionInThread t =>
      wallcycle_sub_start EwaldCorrection
      :: LRcorrection_calls (t + 1) ++ [ewald_LRcorrection_threw t]
  | PmeError status => calls_before_pme cfg ++ pme_calls status
  | AssertionFailed => calls_before_pme cfg
  end.

(** What the fatal error [c] tells of the configuration and of the
    failure. *)
Definition fatal_reason (cfg : Config) (c : FatalCause) : Prop :=
  match c with
  | ExceptionInThread t => doSurfaceCorrection cfg = true /\ 0 <= t < nthread_ewc cfg
  | PmeError status => doReciprocalPme cfg = true /\ status <> 0
  | AssertionFailed =>
      doLongRange cfg && (EEL_PME_EWALD cfg || EVDW_PME cfg) && computePmeOnCpu cfg = true
      /\ NDEBUG cfg = false /\ n_tpi cfg < 0
  end.

(** The threads that have called [ewald_LRcorrection], call by call. *)
Definition LRcorrection_thread (e : Event real) : option Z :=
  match e with
  | ewald_LRcorrection_called t _ => Some t
  | _ => None
  end.

Definition LRcorrection_threads (evs : list (Event real)) : list Z :=
  omap LRcorrection_thread evs.

(** The wall-cycle counters after the call [e]: [running] tells whether the
    sub-counter EwaldCorrection and the counter PmeMesh are running.  A
    counter is not to be started while it runs, nor stopped while it does
    not: [None]. *)
Definition wallcycle_step (running : bool * bool) (e : Event real) : option (bool * bool) :=
  match e with
  | wallcycle_sub_start EwaldCorrection =>
      if fst running then None else Some (true, snd running)
  | wallcycle_sub_stop EwaldCorrection =>
      if fst running then Some (false, snd running) else None
  | wallcycle_start PmeMesh =>
      if snd running then None else Some (fst running, true)
  | wallcycle_stop PmeMesh =>
      if snd running then Some (fst running, false) else None
  | _ => Some running
  end.

Fixpoint wallcycle_run (running : bool * bool) (evs : list (Event real))
    : option (bool * bool) :=
  match evs with
  | [] => Some running
  | e :: evs' => match wallcycle_step running e with
                 | Some running' => wallcycle_run running' evs'
                 | None => None
                 end
  end.

(** ** The Lennard-Jones part of a record *)

(** The fields of a record that only [gmx_pme_do] can write, by its
    arguments [ewaldOutput.vir_lj] and [&ewaldOutput.dvdl[Vdw]]
    (force.cpp:241, 247), and the field [Vcorr_lj], of which no routine gets
    the address: all zero. *)
Definition lj_zero (r : ewald_corr_thread_t real) : Prop :=
  Vcorr_lj r = r_zero /\ ea_get (dvdl r) Vdw = r_zero /\ vir_lj r = clear_mat.

(** [ewaldOutput], that is [fr->ewc_t[0]], satisfies [P]. *)
Definition output_satisfies (P : ewald_corr_thread_t real -> Prop)
    (s : State real gmx_pme_t) : Prop :=
  exists out, ewc_t s !! 0%nat = Some out /\ P out.

(** ... and so does every record below index [k]. *)
Definition satisfied_below (P : ewald_corr_thread_t real -> Prop) (k : Z)
    (s : State real gmx_pme_t) : Prop :=
  output_satisfies P s
  /\ forall (i : nat) r, Z.of_nat i < k -> ewc_t s !! i = Some r -> P r.

(** [P] does not depend on the fields the Coulomb routines write
    ([Vcorr_q], [dvdl[Coul]], [vir_q]). *)
Definition coulomb_stable (P : ewald_corr_thread_t real -> Prop) : Prop :=
  forall r, P r ->
            (forall v, P (set_Vcorr_q v r))
            /\ (forall d, P (set_dvdl Coul d r))
            /\ (forall m, P (set_vir_q m r)).

(** ** What an execution leaves untouched *)

(** [s] has the PME data, the Ewald table and the forces of [s0], but for
    those of the three that the flags give away. *)
Definition unchanged_but (pme table forces : bool) (s0 s : State real gmx_pme_t) : Prop :=
  (pme = false -> pmedata s = pmedata s0)
  /\ (table = false -> ewald_table s = ewald_table s0)
  /\ (forces = false -> force_ s = force_ s0).

(** ** What the threads compute *)

(** ** Other routines in the place of the solvers *)

(** [ext] with another routine in the place of [gmx_pme_do], of
    [gmx_pme_calc_energy], and of [do_ewald]. *)
Definition with_gmx_pme_do (g : PmeInOut real gmx_pme_t -> Z * PmeInOut real gmx_pme_t)
    (ext : Externals real gmx_pme_t) : Externals real gmx_pme_t :=
  mkExternals (ewald_LRcorrection ext) (ewald_charge_correction ext) g
              (gmx_pme_calc_energy ext) (do_ewald ext).

Definition with_gmx_pme_calc_energy (g : gmx_pme_t -> real * gmx_pme_t)
    (ext : Externals real gmx_pme_t) : Externals real gmx_pme_t :=
  mkExternals (ewald_LRcorrection ext) (ewald_charge_correction ext) (gmx_pme_do ext)
              g (do_ewald ext).

Definition with_do_ewald
    (g : list (rvec real) -> matrix real -> real -> gmx_ewald_tab_t real
         -> real * list (rvec real) * matrix real * real * gmx_ewald_tab_t real)
    (ext : Externals real gmx_pme_t) : Externals real gmx_pme_t :=
  mkExternals (ewald_LRcorrection ext) (ewald_charge_correction ext) (gmx_pme_do ext)
              (gmx_pme_calc_energy ext) g.

(** ** What the net-charge correction leaves in a cleared output *)

(** [P] does not depend on the fields the solvers write ([dvdl], [vir_q],
    [vir_lj]): it speaks of the correction energies [Vcorr_q] and [Vcorr_lj]
    only. *)
Definition solver_stable (P : ewald_corr_thread_t real -> Prop) : Prop :=
  forall r, P r ->
            (forall c d, P (set_dvdl c d r))
            /\ (forall m, P (set_vir_q m r))
            /\ (forall m, P (set_vir_lj m r)).

(** force.cpp:196-202 on an output all of whose fields are zero: 0 and the
    zero matrix go in, the energy returned is added to 0. *)
Definition charge_corrected_output (ext : Externals real gmx_pme_t) : ewald_corr_thread_t real :=
  let '(enercorr, dvdlambda, vir) := ewald_charge_correction ext r_zero clear_mat in
  set_Vcorr_q (r_add r_zero enercorr) (set_vir_q vir (set_dvdl Coul dvdlambda zero_output)).

(** The output before the solvers run, when the surface correction is not
    computed. *)
Definition uncorrected_output (ext : Externals real gmx_pme_t) (cfg : Config)
    : ewald_corr_thread_t real :=
  if doChargeCorrection cfg then charge_corrected_output ext else zero_output.

(** ** Schedules of the parallel loop *)

(** [order] is an order in which the [nthread_ewc] iterations of the
    parallel loop can run: each thread index once. *)
Definition schedule (cfg : Config) (order : list Z) : Prop :=
  Permutation order (seqZ 0 (nthread_ewc cfg)).

(** The threads scheduled before thread [t]. *)
Fixpoint scheduled_before (t : Z) (order : list Z) : list Z :=
  match order with
  | [] => []
  | t' :: order' => if t' =? t then [] else t' :: scheduled_before t order'
  end.

(** The calls of force.cpp:144-189 under the schedule [order] when no thread
    throws. *)
Definition surface_calls_in (order : list Z) : list (Event real) :=
  wallcycle_sub_start EwaldCorrection
  :: map (fun t => ewald_LRcorrection_called t zero_output) order
  ++ [wallcycle_sub_stop EwaldCorrection].

Definition calls_before_pme_in (order : list Z) (cfg : Config) : list (Event real) :=
  (if doSurfaceCorrection cfg then surface_calls_in order else [])
  ++ (if doChargeCorrection cfg then [ewald_charge_correction_called] else []).

(** The calls of an execution under the schedule [order] that returns. *)
Definition calls_in (order : list Z) (cfg : Config) : list (Event real) :=
  calls_before_pme_in order cfg
  ++ (if doReciprocalPme cfg then pme_calls 0 else [])
  ++ (if doPmeCalcEnergy cfg then [gmx_pme_calc_energy_called] else [])
  ++ (if doPlainEwald cfg then [do_ewald_called] else []).

(** The calls of an execution under the schedule [order] that ends in the
    fatal error [c]. *)
Definition fatal_calls_in (order : list Z) (cfg : Config) (c : FatalCause)
    : list (Event real) :=
  match c with
  | ExceptionInThread t =>
      wallcycle_sub_start EwaldCorrection
      :: map (fun t => ewald_LRcorrection_called t zero_output) (scheduled_before t order ++ [t])
      ++ [ewald_LRcorrection_threw t]
  | PmeError status => calls_before_pme_in order cfg ++ pme_calls status
  | AssertionFailed => calls_before_pme_in order cfg
  end.

(** What thread [t]'s call of [ewald_LRcorrection] leaves in [*Vcorr_q] and
    [*dvdlambda_q] when it finds the forces [f] and zeros there, and the
    forces it leaves. *)
Definition LRcorrection_result (ext : Externals real gmx_pme_t) (nthreads t : Z)
    (f : list (rvec real)) : option (real * real) :=
  match ewald_LRcorrection ext nthreads t f r_zero r_zero with
  | Some (_, Vcorr, dvdlambda) => Some (Vcorr, dvdlambda)
  | None => None
  end.

Definition LRcorrection_forces (ext : Externals real gmx_pme_t) (nthreads t : Z)
    (f : list (rvec real)) : list (rvec real) :=
  match ewald_LRcorrection ext nthreads t f r_zero r_zero with
  | Some (f', _, _) => f'
  | None => f
  end.

(** The threads of [ewald_LRcorrection] work on their own particles
    (force.cpp:158-162): what a thread leaves in its record, and whether it
    throws, does not depend on the forces it finds, and the threads' updates
    of the forces do not depend on their order. *)
Definition threads_independent (ext : Externals real gmx_pme_t) (nthreads : Z) : Prop :=
  (forall t f f', 0 <= t < nthreads ->
                  LRcorrection_result ext nthreads t f = LRcorrection_result ext nthreads t f')
  /\ (forall t t' f, 0 <= t < nthreads -> 0 <= t' < nthreads -> t <> t' ->
                     LRcorrection_forces ext nthreads t (LRcorrection_forces ext nthreads t' f)
                     = LRcorrection_forces ext nthreads t' (LRcorrection_forces ext nthreads t f)).

(** The record a thread leaves. *)
Definition thread_record (result : option (real * real)) : ewald_corr_thread_t real :=
  match result with
  | Some (Vcorr, dvdlambda) => set_dvdl Coul dvdlambda (set_Vcorr_q Vcorr zero_output)
  | None => zero_output
  end.

(** What thread [t] does to the records and the forces. *)
Definition thread_effect (ext : Externals real gmx_pme_t) (nthreads : Z)
    (lf : list (ewald_corr_thread_t real) * list (rvec real)) (t : Z)
    : list (ewald_corr_thread_t real) * list (rvec real) :=
  (<[Z.to_nat t := thread_record (LRcorrection_result ext nthreads t (snd lf))]> (fst lf),
   LRcorrection_forces ext nthreads t (snd lf)).

(** The records the threads [0 .. nthreads-1] leave when they find the
    forces [f], and the forces once every thread has added its part. *)
Definition thread_records (ext : Externals real gmx_pme_t) (nthreads : Z)
    (f : list (rvec real)) : list (ewald_corr_thread_t real) :=
  map (fun t => thread_record (LRcorrection_result ext nthreads t f)) (seqZ 0 nthreads).

Definition corrected_forces (ext : Externals real gmx_pme_t) (nthreads : Z)
    (f : list (rvec real)) : list (rvec real) :=
  fold_left (fun f t => LRcorrection_forces ext nthreads t f) (seqZ 0 nthreads) f.

(** The calls of an execution that ends because thread [t] threw: the start
    of the sub-counter, the calls of the threads that have called by then,
    each once and thread [t] among them, and the exception. *)
Definition calls_until_throw (cfg : Config) (t : Z) (evs : list (Event real)) : Prop :=
  exists ts : list Z,
    NoDup ts /\ In t ts /\ (forall t', In t' ts -> 0 <= t' < nthread_ewc cfg)
    /\ evs = wallcycle_sub_start EwaldCorrection
             :: map (fun t' => ewald_LRcorrection_called t' zero_output) ts
             ++ [ewald_LRcorrection_threw t].





End Vocabulary.

(** * A double-precision instance

    Concrete routines, configurations and states in the double-precision
    build, on which the executions below are evaluated. *)

Definition sample_output (a : float) : ewald_corr_thread_t float :=
  EwaldCorr a (a + 1)%float (EnumArray (a + 2)%float (a + 3)%float)
            (vec3_const (vec3_const (a + 4)%float)) (vec3_const (vec3_const (a + 5)%float)).

(** A correction routine that adds 1.5 to the energy and 0.25 to dV/dlambda,
    and throws in thread [bad]. *)
Definition sample_LRcorrection (bad numThreads thread : Z) (f : list (rvec float))
    (Vcorr_q dvdlambda_q : float) : option (list (rvec float) * float * float) :=
  if thread =? bad then None else Some (f, (Vcorr_q + 1.5)%float, (dvdlambda_q + 0.25)%float).

(** The routines: a reciprocal solver that returns [status] and the energies
    2 and 3, a net-charge correction of -0.5. *)
Definition sample_ext (bad status : Z) : Externals float unit :=
  mkExternals
    (sample_LRcorrection bad)
    (fun dvdlambda vir => ((-0.5)%float, (dvdlambda + 0.125)%float, vir))
    (fun io => (status,
                mkPmeInOut (pme io) (pme_forces io)
                           (m_add (pme_vir_q io) (vec3_const (vec3_const 1%float)))
                           (m_add (pme_vir_lj io) (vec3_const (vec3_const 2%float)))
                           2%float 3%float
                           (dvdlambda_q io + 4)%float (dvdlambda_lj io + 5)%float))
    (fun p => (6%float, p))
    (fun f lrvir dvdlambda et => (7%float, f, lrvir, dvdlambda, et)).

(** PME electrostatics on the CPU with an Ewald surface term and three
    correction threads. *)
Definition sample_cfg : Config :=
  mkConfig true false true false true true true true true 3 0 true.

(** The same run on a step that does not compute the non-bonded forces
    ([stepWork.computeNonbondedForces] is false). *)
Definition sample_cfg_no_nonbonded : Config :=
  mkConfig true false true false true true true false true 3 0 true.

(** A state whose per-thread records hold what an earlier step left. *)
Definition sample_state : State float unit :=
  mkState [sample_output 9; sample_output 8; sample_output 7] tt (EwaldTab 0 0 0 0 [] [])
          [Vec3 0%float 0%float 0%float] (vec3_const (vec3_const 1%float))
          (fun _ => 0%float) (EnumArray 10%float 20%float) [].

(** The same state once record 0 has been cleared (force.cpp:136-137). *)
Definition sample_state_cleared : State float unit :=
  mkState [zero_output; sample_output 8; sample_output 7] tt (EwaldTab 0 0 0 0 [] [])
          [Vec3 0%float 0%float 0%float] (vec3_const (vec3_const 1%float))
          (fun _ => 0%float) (EnumArray 10%float 20%float) [].

(** The state [calculateLongRangeNonbondeds] returns in from [sample_state]. *)
Definition sample_final : State float unit :=
  match calculateLongRangeNonbondeds (sample_ext (-1) 0) sample_cfg sample_state with
  | Returns _ s => s
  | _ => sample_state
  end.

(** The state in which the sample execution ends when the reciprocal solver
    returns the status 3. *)
Definition sample_fatal : State float unit :=
  match calculateLongRangeNonbondeds (sample_ext (-1) 3) sample_cfg sample_state with
  | Fatal _ s => s
  | _ => sample_state
  end.

(** The sample configuration with PME on a GPU: the surface term is computed
    on the CPU, [gmx_pme_do] is not called. *)
Definition sample_cfg_pme_gpu : Config :=
  mkConfig true false true false true false true true true 3 0 true.

(** The state [calculateLongRangeNonbondeds] returns in then. *)
Definition sample_final_pme_gpu : State float unit :=
  match calculateLongRangeNonbondeds (sample_ext (-1) 0) sample_cfg_pme_gpu sample_state with
  | Returns _ s => s
  | _ => sample_state
  end.

(** The record a thread of the sample leaves: the energy 1.5 and the
    dV/dlambda 0.25 of [sample_LRcorrection]. *)
Definition sample_thread_output : ewald_corr_thread_t float :=
  set_dvdl Coul 0.25%float (set_Vcorr_q 1.5%float zero_output).

(** A run in which the long-range branch is entered for the surface term
    alone, with neither PME nor Ewald electrostatics: no correction and no
    solver is computed. *)
Definition sample_cfg_no_correction : Config :=
  mkConfig false false false false true true true true true 3 0 true.

(** The state [calculateLongRangeNonbondeds] returns in then. *)
Definition sample_final_no_correction : State float unit :=
  match calculateLongRangeNonbondeds (sample_ext (-1) 0) sample_cfg_no_correction
          sample_state with
  | Returns _ s => s
  | _ => sample_state
  end.

(** A correction routine whose thread [t] works on particle [t]: it adds 1
    to the x component of the force on this particle, and leaves the energy
    1.5, 2.5 or 4 and the dV/dlambda 0.25. *)
Definition sample_LRcorrection_particles (numThreads thread : Z) (f : list (rvec float))
    (Vcorr_q dvdlambda_q : float) : option (list (rvec float) * float * float) :=
  Some (alter (fun v => Vec3 (at_XX v + 1)%float (at_YY v) (at_ZZ v)) (Z.to_nat thread) f,
        (Vcorr_q + (if (thread =? 0)%Z then 1.5 else if (thread =? 1)%Z then 2.5 else 4))%float,
        (dvdlambda_q + 0.25)%float).

Definition sample_ext_particles : Externals float unit :=
  with_ewald_LRcorrection sample_LRcorrection_particles (sample_ext (-1) 0).

(** A state with three particles, and the same state but for the contents
    of the per-thread records. *)
Definition sample_particles : State float unit :=
  mkState [sample_output 9; sample_output 8; sample_output 7] tt (EwaldTab 0 0 0 0 [] [])
          [Vec3 0%float 0%float 0%float; Vec3 1%float 0%float 0%float;
           Vec3 2%float 0%float 0%float]
          (vec3_const (vec3_const 1%float))
          (fun _ => 0%float) (EnumArray 10%float 20%float) [].


Definition sample_particles_cleared : State float unit :=
  set_ewc_t [zero_output; sample_output 8; sample_output 7] sample_particles.

(** The state the sample execution returns in when the threads of the
    parallel loop are scheduled in the order 2, 0, 1. *)
Definition sample_final_201 : State float unit :=
  match calculateLongRangeNonbondedsIn (sample_ext (-1) 0) [2; 0; 1] sample_cfg
          sample_state with
  | Returns _ s => s
  | _ => sample_state
  end.

(** The state in which the sample execution ends when thread 1 throws and
    the threads are scheduled in the order 2, 1, 0. *)
Definition sample_thrown_210 : State float unit :=
  match calculateLongRangeNonbondedsIn (sample_ext 1 0) [2; 1; 0] sample_cfg sample_state with
  | Fatal _ s => s
  | _ => sample_state
  end.

(** * Proof automation *)

(** Unfolds the monad down to the states it reaches. *)
Ltac run_monad :=
  unfold bind, ret, emit, modify, get, fatal, read_ewc_t, update_ewc_t; cbn.

(** Closes [step_rel P s s'] for a state [s'] written out in terms of [s],
    given the calls [evs] made in between and a proof of [P evs]. *)
Ltac close_step_rel evs HP :=
  split; [repeat split |];
  split; [cbn; rewrite ?length_insert; reflexivity |];
  exists evs; split; [cbn; rewrite ?app_nil_r, <- ?app_assoc; reflexivity | exact HP].

(** Splits a membership [Hin : In e [e1; ...; en]] into its cases. *)
Ltac in_cases Hin :=
  cbn in Hin;
  repeat match type of Hin with
         | _ \/ _ => destruct Hin as [Hin|Hin]
         | False => contradiction
         end.

(** * Properties *)

Section Properties.

Context {real : Type} `{RealOps real} {gmx_pme_t : Type}.

(** ** [reduceEwaldThreadOuput] *)

Lemma reduce_body_cons (dest src : ewald_corr_thread_t real)
    (rest : list (ewald_corr_thread_t real)) (t : Z) :
  1 <= t ->
  rest !! (Z.to_nat t - 1)%nat = Some src ->
  reduce_body (dest :: rest) t = Some (add_output dest src :: rest).
Proof.
  intros Ht Hsrc. unfold reduce_body.
  replace (Z.to_nat t) with (S (Z.to_nat t - 1)) by lia.
  rewrite !lookup_cons. cbv iota. rewrite Hsrc. reflexivity.
Qed.

Lemma reduce_body_None (dest : ewald_corr_thread_t real)
    (rest : list (ewald_corr_thread_t real)) (t : Z) :
  1 <= t ->
  rest !! (Z.to_nat t - 1)%nat = None ->
  reduce_body (dest :: rest) t = None.
Proof.
  intros Ht Hsrc. unfold reduce_body.
  replace (Z.to_nat t) with (S (Z.to_nat t - 1)) by lia.
  rewrite !lookup_cons. cbv iota. rewrite Hsrc. reflexivity.
Qed.

(** The loop of the reduction, started at thread [1 + k], folds the records
    it visits into [dest] from left to right. *)
Lemma reduce_loop (m : nat) :
  forall (k : nat) (dest : ewald_corr_thread_t real) (rest : list (ewald_corr_thread_t real)),
  (k + m <= length rest)%nat ->
  for_each reduce_body (seqZ (1 + Z.of_nat k) (Z.of_nat m)) (dest :: rest)
  = Some (fold_left add_output (take m (drop k rest)) dest :: rest).
Proof.
  induction m as [|m IH]; intros k dest rest Hlen.
  - reflexivity.
  - rewrite seqZ_cons by lia. cbn [for_each].
    destruct (lookup_lt_is_Some_2 rest k ltac:(lia)) as [src Hsrc].
    rewrite (reduce_body_cons dest src) by (try lia; rewrite <- Hsrc; f_equal; lia).
    replace (Z.succ (1 + Z.of_nat k)) with (1 + Z.of_nat (S k)) by lia.
    replace (Z.pred (Z.of_nat (S m))) with (Z.of_nat m) by lia.
    rewrite IH by lia. do 2 f_equal.
    rewrite (drop_S rest src k Hsrc). reflexivity.
Qed.

(** The loop is undefined as soon as it visits a thread without a record. *)
Lemma reduce_loop_short (m : nat) :
  forall (k : nat) (dest : ewald_corr_thread_t real) (rest : list (ewald_corr_thread_t real)),
  (length rest < k + m)%nat -> (1 <= m)%nat ->
  for_each reduce_body (seqZ (1 + Z.of_nat k) (Z.of_nat m)) (dest :: rest) = None.
Proof.
  induction m as [|m IH]; intros k dest rest Hlen Hm.
  - lia.
  - rewrite seqZ_cons by lia. cbn [for_each].
    destruct (rest !! k) as [src|] eqn:Hsrc.
    + rewrite (reduce_body_cons dest src) by (try lia; rewrite <- Hsrc; f_equal; lia).
      replace (Z.succ (1 + Z.of_nat k)) with (1 + Z.of_nat (S k)) by lia.
      replace (Z.pred (Z.of_nat (S m))) with (Z.of_nat m) by lia.
      apply lookup_lt_Some in Hsrc. apply IH; lia.
    + rewrite reduce_body_None; [reflexivity | lia |].
      rewrite <- Hsrc. f_equal. lia.
Qed.

Lemma reduce_cons (nthreads : Z) (dest : ewald_corr_thread_t real)
    (rest : list (ewald_corr_thread_t real)) :
  nthreads <= Z.of_nat (S (length rest)) ->
  reduceEwaldThreadOuput nthreads (dest :: rest)
  = Some (fold_left add_output (take (Z.to_nat (nthreads - 1)) rest) dest :: rest).
Proof.
  intros Hn. unfold reduceEwaldThreadOuput. cbn [lookup list_lookup].
  destruct (Z.le_gt_cases nthreads 1) as [Hle|Hgt].
  - rewrite seqZ_nil by lia. replace (Z.to_nat (nthreads - 1)) with 0%nat by lia. reflexivity.
  - pose proof (reduce_loop (Z.to_nat (nthreads - 1)) 0 dest rest ltac:(lia)) as Hloop.
    rewrite Z2Nat.id in Hloop by lia. exact Hloop.
Qed.

(** The reduction is defined exactly when record 0 and the records of the
    threads it visits exist. *)
Lemma reduce_defined (nthreads : Z) (ewc : list (ewald_corr_thread_t real)) :
  is_Some (reduceEwaldThreadOuput nthreads ewc)
  <-> (1 <= length ewc)%nat /\ nthreads <= Z.of_nat (length ewc).
Proof.
  destruct ewc as [|dest rest].
  - cbn. split; [intros [? ?]; discriminate | lia].
  - split.
    + intros Hsome. split; [cbn; lia|].
      destruct (Z.le_gt_cases nthreads (Z.of_nat (length (dest :: rest)))) as [?|Hgt];
        [assumption|].
      exfalso. unfold reduceEwaldThreadOuput in Hsome. cbn [lookup list_lookup] in Hsome.
      cbn [length] in Hgt.
      pose proof (reduce_loop_short (Z.to_nat (nthreads - 1)) 0 dest rest
                    ltac:(lia) ltac:(lia)) as Hloop.
      rewrite Z2Nat.id in Hloop by lia. change (1 + Z.of_nat 0) with 1 in Hloop.
      rewrite Hloop in Hsome. destruct Hsome; discriminate.
    + intros [_ Hn]. rewrite reduce_cons by exact Hn. eauto.
Qed.

(** X3.  [reduceEwaldThreadOuput] stays within the array exactly when the
    array holds record 0 and the records of the [nthreads] threads. *)
Theorem reduceEwaldThreadOuput_defined_iff (nthreads : Z)
    (ewc : list (ewald_corr_thread_t real)) :
  reduceEwaldThreadOuput nthreads ewc <> None
  <-> (1 <= length ewc)%nat /\ nthreads <= Z.of_nat (length ewc).
Proof.
  rewrite <- reduce_defined. split.
  - intros Hne. destruct (reduceEwaldThreadOuput nthreads ewc); [eauto | contradiction].
  - intros [l Hl]. rewrite Hl. discriminate.
Qed.

(** A field of the folded record is the left-to-right sum of that field,
    for any field the reduction adds up. *)
Lemma fold_add_output_field (field : ewald_corr_thread_t real -> real) :
  (forall d s, field (add_output d s) = r_add (field d) (field s)) ->
  forall (rs : list (ewald_corr_thread_t real)) (d : ewald_corr_thread_t real),
    field (fold_left add_output rs d) = fold_left (fun acc r => r_add acc (field r)) rs (field d).
Proof.
  intros Hf rs. induction rs as [|r rs IH]; intros d; cbn [fold_left].
  - reflexivity.
  - rewrite IH, Hf. reflexivity.
Qed.

Lemma mat_el_m_add (a b : matrix real) (i j : dim) :
  mat_el (m_add a b) i j = r_add (mat_el a i j) (mat_el b i j).
Proof. destruct i, j; reflexivity. Qed.

Lemma sum_over_threads_fold (field : ewald_corr_thread_t real -> real) (nthreads : Z)
    (dest : ewald_corr_thread_t real) (rest : list (ewald_corr_thread_t real)) :
  1 <= nthreads ->
  (forall d s, field (add_output d s) = r_add (field d) (field s)) ->
  sum_over_threads field (take (Z.to_nat nthreads) (dest :: rest))
  = Some (field (fold_left add_output (take (Z.to_nat (nthreads - 1)) rest) dest)).
Proof.
  intros Hn Hf. replace (Z.to_nat nthreads) with (S (Z.to_nat (nthreads - 1))) by lia.
  cbn [take sum_over_threads]. rewrite (fold_add_output_field field Hf). reflexivity.
Qed.

(** C2.  For every thread count [nthreads >= 1] and every array holding the
    records of these threads, [reduceEwaldThreadOuput] returns, and record 0
    then holds in each field -- both correction energies, both dV/dlambda
    entries and every element of both virial tensors -- the sum of that field
    over the records of all [nthreads] threads. *)
Theorem reduceEwaldThreadOuput_sums (nthreads : Z) (ewc : list (ewald_corr_thread_t real)) :
  1 <= nthreads ->
  nthreads <= Z.of_nat (length ewc) ->
  exists (ewc' : list (ewald_corr_thread_t real)) (dest : ewald_corr_thread_t real),
    reduceEwaldThreadOuput nthreads ewc = Some ewc'
    /\ ewc' !! 0%nat = Some dest
    /\ sum_over_threads Vcorr_q (take (Z.to_nat nthreads) ewc) = Some (Vcorr_q dest)
    /\ sum_over_threads Vcorr_lj (take (Z.to_nat nthreads) ewc) = Some (Vcorr_lj dest)
    /\ sum_over_threads (fun r => ea_get (dvdl r) Coul) (take (Z.to_nat nthreads) ewc)
       = Some (ea_get (dvdl dest) Coul)
    /\ sum_over_threads (fun r => ea_get (dvdl r) Vdw) (take (Z.to_nat nthreads) ewc)
       = Some (ea_get (dvdl dest) Vdw)
    /\ (forall i j : dim,
          sum_over_threads (fun r => mat_el (vir_q r) i j) (take (Z.to_nat nthreads) ewc)
          = Some (mat_el (vir_q dest) i j))
    /\ (forall i j : dim,
          sum_over_threads (fun r => mat_el (vir_lj r) i j) (take (Z.to_nat nthreads) ewc)
          = Some (mat_el (vir_lj dest) i j)).
Proof.
  intros Hn Hlen. destruct ewc as [|d rest]; [cbn in Hlen; lia|].
  eexists _, _. split; [apply reduce_cons; exact Hlen|].
  split; [reflexivity|].
  repeat split; intros; apply sum_over_threads_fold; try assumption; intros;
    try reflexivity; apply mat_el_m_add.
Qed.

(** C10.  For every thread count [nthreads >= 1] and every array holding the
    records of these threads, [reduceEwaldThreadOuput] returns an array of
    the same length in which every record but the one at index 0 is the
    record it was: the records of threads 1 to [nthreads - 1] are read (by
    [reduce_defined] the call is undefined when one is missing) and not
    written. *)
Theorem reduceEwaldThreadOuput_frame (nthreads : Z) (ewc : list (ewald_corr_thread_t real)) :
  1 <= nthreads ->
  nthreads <= Z.of_nat (length ewc) ->
  exists ewc' : list (ewald_corr_thread_t real),
    reduceEwaldThreadOuput nthreads ewc = Some ewc'
    /\ length ewc' = length ewc
    /\ forall t : nat, (1 <= t)%nat -> ewc' !! t = ewc !! t.
Proof.
  intros Hn Hlen. destruct ewc as [|d rest]; [cbn in Hlen; lia|].
  eexists. split; [apply reduce_cons; exact Hlen|].
  split; [reflexivity|].
  intros [|t] Ht; [lia | reflexivity].
Qed.

(** ** What an execution of [calculateLongRangeNonbondeds] leaves behind *)

Lemma accumulators_kept_refl (s : State real gmx_pme_t) : accumulators_kept s s.
Proof. repeat split. Qed.

Lemma accumulators_kept_trans (s1 s2 s3 : State real gmx_pme_t) :
  accumulators_kept s1 s2 -> accumulators_kept s2 s3 -> accumulators_kept s1 s3.
Proof. unfold accumulators_kept. intros (-> & -> & ->) (-> & -> & ->). repeat split. Qed.

Lemma step_rel_refl P (s : State real gmx_pme_t) : P [] -> step_rel P s s.
Proof.
  intros HP. split; [apply accumulators_kept_refl|]. split; [reflexivity|].
  exists []. rewrite app_nil_r. split; [reflexivity | exact HP].
Qed.

Lemma step_rel_trans P1 P2 P3 (s1 s2 s3 : State real gmx_pme_t) :
  (forall a b, P1 a -> P2 b -> P3 (a ++ b)) ->
  step_rel P1 s1 s2 -> step_rel P2 s2 s3 -> step_rel P3 s1 s3.
Proof.
  intros Happ (Ha1 & Hl1 & e1 & Ht1 & Hp1) (Ha2 & Hl2 & e2 & Ht2 & Hp2).
  split; [eapply accumulators_kept_trans; eassumption|].
  split; [congruence|].
  exists (e1 ++ e2). split; [|apply Happ; assumption].
  rewrite Ht2, Ht1, app_assoc. reflexivity.
Qed.

Section Outcomes.

Variables P Pf : list (Event real) -> Prop.
Hypothesis TP : TraceProps P Pf.

Lemma outcome_bind {A B} (m : M real gmx_pme_t A) (k : A -> M real gmx_pme_t B)
    (s : State real gmx_pme_t) :
  outcome_in (step_rel P) (step_rel Pf) s (m s) ->
  (forall a s', m s = Returns a s' -> outcome_in (step_rel P) (step_rel Pf) s' (k a s')) ->
  outcome_in (step_rel P) (step_rel Pf) s (bind m k s).
Proof using TP.
  intros Hm Hk. unfold bind. destruct (m s) as [a s'| c s' |]; cbn in *; [|assumption|exact I].
  specialize (Hk a s' eq_refl). destruct (k a s') as [b s''| c s'' |]; cbn in *; [| |exact I].
  - eapply step_rel_trans; [apply (tp_app _ _ TP) | eassumption | eassumption].
  - eapply step_rel_trans; [apply (tp_app_f _ _ TP) | eassumption | eassumption].
Qed.

Lemma outcome_ret {A} (a : A) (s : State real gmx_pme_t) :
  outcome_in (A := A) (step_rel P) (step_rel Pf) s (ret a s).
Proof using TP. cbn. apply step_rel_refl, (tp_nil _ _ TP). Qed.

Lemma outcome_for_threads (body : Z -> M real gmx_pme_t unit) (ts : list Z) :
  (forall t s, In t ts -> outcome_in (step_rel P) (step_rel Pf) s (body t s)) ->
  forall s, outcome_in (step_rel P) (step_rel Pf) s (for_threads body ts s).
Proof using TP.
  induction ts as [|t ts IH]; intros Hbody s; cbn [for_threads].
  - apply outcome_ret.
  - apply outcome_bind; [apply Hbody; left; reflexivity|].
    intros _ s' _. apply IH. intros t' s'' Hin. apply Hbody. right. exact Hin.
Qed.

End Outcomes.

Section Blocks.

Variable ext : Externals real gmx_pme_t.
Variable cfg : Config.
Variables P Pf : list (Event real) -> Prop.
Hypothesis AD : Admits cfg P Pf.

Lemma netChargeCorrection_outcome (s : State real gmx_pme_t) :
  doChargeCorrection cfg = true ->
  outcome_in (step_rel P) (step_rel Pf) s (netChargeCorrection ext s).
Proof using AD.
  intros Hc. unfold netChargeCorrection. run_monad.
  destruct (ewc_t s !! Z.to_nat 0) as [r|]; cbn; [|exact I].
  destruct (ewald_charge_correction ext _ _) as [[enercorr dvdlambda] vir]. run_monad.
  destruct (ewc_t s !! Z.to_nat 0) as [r'|]; cbn; [|exact I].
  close_step_rel [ewald_charge_correction_called (real := real)] (ad_charge _ _ _ AD Hc).
Qed.

Lemma reciprocalPme_outcome (Vlr_q Vlr_lj : real) (s : State real gmx_pme_t) :
  outcome_in (step_rel P) (step_rel Pf) s (reciprocalPme ext Vlr_q Vlr_lj s).
Proof using AD.
  unfold reciprocalPme. run_monad.
  destruct (ewc_t s !! Z.to_nat 0) as [r|]; cbn; [|exact I].
  destruct (gmx_pme_do ext _) as [status out]. run_monad.
  destruct (ewc_t s !! Z.to_nat 0) as [r'|]; cbn; [|exact I].
  destruct (Z.eqb_spec status 0) as [->|Hst]; cbn.
  - close_step_rel [closeAfterForceComputationCpu (real := real); wallcycle_start PmeMesh;
                    gmx_pme_do_called; gmx_pme_do_returned 0; wallcycle_stop PmeMesh]
                   (ad_pme _ _ _ AD).
  - close_step_rel [closeAfterForceComputationCpu (real := real); wallcycle_start PmeMesh;
                    gmx_pme_do_called; gmx_pme_do_returned status; wallcycle_stop PmeMesh]
                   (ad_pme_f _ _ _ AD status Hst).
Qed.

Lemma pmeOnCpu_outcome (Vlr_q Vlr_lj : real) (s : State real gmx_pme_t) :
  outcome_in (step_rel P) (step_rel Pf) s (pmeOnCpu ext cfg Vlr_q Vlr_lj s).
Proof using AD.
  pose proof (ad_props _ _ _ AD) as TP.
  unfold pmeOnCpu. apply (outcome_bind P Pf TP).
  { destruct (negb (NDEBUG cfg) && negb (0 <=? n_tpi cfg)) eqn:Hassert; cbn;
      apply step_rel_refl; [apply (ad_assert _ _ _ AD Hassert) | apply (tp_nil _ _ TP)]. }
  intros _ s1 _. apply (outcome_bind P Pf TP).
  { destruct ((n_tpi cfg =? 0) || stateChanged cfg);
      [apply reciprocalPme_outcome | apply (outcome_ret P Pf TP)]. }
  intros V s2 _. destruct (0 <? n_tpi cfg); [|apply (outcome_ret P Pf TP)].
  run_monad. destruct (gmx_pme_calc_energy ext (pmedata s2)) as [e p]. run_monad.
  close_step_rel [gmx_pme_calc_energy_called (real := real)] (ad_calc _ _ _ AD).
Qed.

Lemma plainEwald_outcome (s : State real gmx_pme_t) :
  outcome_in (step_rel P) (step_rel Pf) s (plainEwald ext s).
Proof using AD.
  unfold plainEwald. run_monad.
  destruct (ewc_t s !! Z.to_nat 0) as [r|]; cbn; [|exact I].
  destruct (do_ewald ext _ _ _ _) as [[[[Vlr_q f] lrvir] dvdlambda] et]. run_monad.
  destruct (ewc_t s !! Z.to_nat 0) as [r'|]; cbn; [|exact I].
  close_step_rel [do_ewald_called (real := real)] (ad_ewald _ _ _ AD).
Qed.

Lemma clearEwaldThreadOutput_zero (r : ewald_corr_thread_t real) :
  clearEwaldThreadOutput r = zero_output.
Proof. reflexivity. Qed.

(** What thread [t] does, for a thread [t >= 1], and for thread 0 when its
    record was cleared before. *)
Lemma ewaldCorrectionThread_outcome (t : Z) (s : State real gmx_pme_t) :
  doSurfaceCorrection cfg = true ->
  0 <= t < nthread_ewc cfg ->
  (t = 0 -> ewc_t s !! 0%nat = Some zero_output) ->
  outcome_in (step_rel P) (step_rel Pf) s (ewaldCorrectionThread ext (nthread_ewc cfg) t s).
Proof using AD.
  intros Hc Ht H0. unfold ewaldCorrectionThread.
  unfold bind at 1. unfold read_ewc_t at 1.
  destruct (ewc_t s !! Z.to_nat t) as [r|] eqn:Hr; [|exact I].
  unfold bind at 1.
  assert (exists s1 : State real gmx_pme_t,
            (if 0 <? t then update_ewc_t t clearEwaldThreadOutput else ret tt) s = Returns tt s1
            /\ ewc_t s1 !! Z.to_nat t = Some zero_output
            /\ length (ewc_t s1) = length (ewc_t s)
            /\ force_ s1 = force_ s /\ trace s1 = trace s /\ accumulators_kept s s1)
    as (s1 & -> & Hr1 & Hl1 & Hf1 & Ht1 & Ha1).
  { destruct (Z.ltb_spec 0 t) as [Hpos|Hnonpos].
    - eexists. unfold update_ewc_t. rewrite Hr. split; [reflexivity|]. cbn.
      rewrite list_lookup_insert_eq by (eapply lookup_lt_Some; exact Hr).
      rewrite length_insert. repeat split.
    - assert (t = 0) as -> by lia. exists s. rewrite <- (H0 eq_refl).
      repeat split. }
  run_monad. rewrite Hr1. cbn.
  destruct (ewald_LRcorrection ext _ _ _ _ _) as [[[f Vcorr] dvdlambda]|]; run_monad.
  - rewrite Hr1. cbn. destruct Ha1 as (Hv & Hd & Hm).
    split; [repeat split; assumption|].
    split; [cbn; rewrite length_insert; exact Hl1|].
    exists [ewald_LRcorrection_called t zero_output]. split; [cbn; rewrite Ht1; reflexivity|].
    apply (ad_thread _ _ _ AD Hc t Ht).
  - destruct Ha1 as (Hv & Hd & Hm).
    split; [repeat split; assumption|].
    split; [exact Hl1|].
    exists [ewald_LRcorrection_called t zero_output; ewald_LRcorrection_threw t].
    split; [cbn; rewrite Ht1, <- app_assoc; reflexivity|].
    apply (ad_thread_f _ _ _ AD Hc t Ht).
Qed.

Lemma reduce_length (nthreads : Z) (ewc ewc' : list (ewald_corr_thread_t real)) :
  reduceEwaldThreadOuput nthreads ewc = Some ewc' -> length ewc' = length ewc.
Proof.
  intros Hred. destruct (proj1 (reduce_defined nthreads ewc) (mk_is_Some _ _ Hred)) as [H1 Hn].
  destruct ewc as [|d rest]; [cbn in H1; lia|].
  rewrite reduce_cons in Hred by exact Hn. injection Hred as <-. reflexivity.
Qed.

Lemma ewaldSurfaceCorrection_outcome (s : State real gmx_pme_t) :
  doSurfaceCorrection cfg = true ->
  ewc_t s !! 0%nat = Some zero_output ->
  outcome_in (step_rel P) (step_rel Pf) s (ewaldSurfaceCorrection ext cfg s).
Proof using AD.
  intros Hc H0. pose proof (ad_props _ _ _ AD) as TP.
  unfold ewaldSurfaceCorrection. apply (outcome_bind P Pf TP).
  { run_monad. close_step_rel [wallcycle_sub_start (real := real) EwaldCorrection]
                              (ad_sub_start _ _ _ AD Hc). }
  intros [] s1 Hs1. cbv [emit modify] in Hs1. injection Hs1 as Hs1. subst s1.
  apply (outcome_bind P Pf TP).
  { destruct (Z.le_gt_cases (nthread_ewc cfg) 0) as [Hle|Hgt].
    - rewrite seqZ_nil by exact Hle. apply (outcome_ret P Pf TP).
    - rewrite seqZ_cons by lia. cbn [for_threads]. apply (outcome_bind P Pf TP).
      + apply ewaldCorrectionThread_outcome; [exact Hc | lia | intros _; exact H0].
      + intros _ s2 _. apply (outcome_for_threads P Pf TP). intros t s3 Hin.
        apply list_elem_of_In, elem_of_seqZ in Hin.
        apply ewaldCorrectionThread_outcome; [exact Hc | lia | lia]. }
  intros _ s2 _. apply (outcome_bind P Pf TP).
  { destruct (1 <? nthread_ewc cfg); [|apply (outcome_ret P Pf TP)].
    destruct (reduceEwaldThreadOuput (nthread_ewc cfg) (ewc_t s2)) as [l|] eqn:Hred; [|exact I].
    cbn. split; [repeat split|]. split; [cbn; eapply reduce_length; exact Hred|].
    exists []. split; [cbn; rewrite app_nil_r; reflexivity | apply (tp_nil _ _ TP)]. }
  intros _ s3 _. run_monad.
  close_step_rel [wallcycle_sub_stop (real := real) EwaldCorrection] (ad_sub_stop _ _ _ AD Hc).
Qed.

Lemma longRangeCompute_outcome (s : State real gmx_pme_t) :
  doLongRange cfg = true ->
  outcome_in (step_rel P) (step_rel Pf) s (longRangeCompute ext cfg s).
Proof using AD.
  intros Hlr. pose proof (ad_props _ _ _ AD) as TP.
  unfold longRangeCompute. cbv zeta. apply (outcome_bind P Pf TP).
  { unfold update_ewc_t. destruct (ewc_t s !! Z.to_nat 0); [|exact I].
    close_step_rel (@nil (Event real)) (tp_nil _ _ TP). }
  intros [] s1 Hs1.
  assert (ewc_t s1 !! 0%nat = Some zero_output) as H0.
  { unfold update_ewc_t in Hs1. destruct (ewc_t s !! Z.to_nat 0) as [r|] eqn:Hr; [|discriminate].
    injection Hs1 as Hs1. subst s1. cbn. apply list_lookup_insert_eq.
    eapply lookup_lt_Some. exact Hr. }
  apply (outcome_bind P Pf TP).
  { destruct (EEL_PME_EWALD cfg || EVDW_PME cfg) eqn:Hpme; [|apply (outcome_ret P Pf TP)].
    apply (outcome_bind P Pf TP).
    { destruct (haveEwaldSurfaceContribution cfg) eqn:Hsurf; [|apply (outcome_ret P Pf TP)].
      apply ewaldSurfaceCorrection_outcome; [|exact H0].
      unfold doSurfaceCorrection. rewrite Hlr, Hpme, Hsurf. reflexivity. }
    intros _ s2 _. apply (outcome_bind P Pf TP).
    { destruct (EEL_PME_EWALD cfg && (n_tpi cfg =? 0)) eqn:Hch; [|apply (outcome_ret P Pf TP)].
      apply netChargeCorrection_outcome.
      unfold doChargeCorrection. rewrite Hlr, Hpme, Hch. reflexivity. }
    intros _ s3 _.
    destruct (computePmeOnCpu cfg); [apply pmeOnCpu_outcome | apply (outcome_ret P Pf TP)]. }
  intros V s2 _. destruct (eeltype_is_Ewald cfg); [|apply (outcome_ret P Pf TP)].
  apply (outcome_bind P Pf TP); [apply plainEwald_outcome|].
  intros Vlr_q s3 _. apply (outcome_ret P Pf TP).
Qed.

(** The merge makes no call, leaves the per-thread records alone and cannot
    fail. *)
Lemma longRangeMerge_returns (Vlr_q Vlr_lj : real) (s : State real gmx_pme_t)
    (ewaldOutput : ewald_corr_thread_t real) :
  ewc_t s !! 0%nat = Some ewaldOutput ->
  longRangeMerge Vlr_q Vlr_lj s
  = Returns tt
      (mkState (ewc_t s) (pmedata s) (ewald_table s) (force_ s)
         (m_add (m_add (virial_ s) (vir_q ewaldOutput)) (vir_lj ewaldOutput))
         (term_upd F_LJ_RECIP (r_add Vlr_lj (Vcorr_lj ewaldOutput))
            (term_upd F_COUL_RECIP (r_add Vlr_q (Vcorr_q ewaldOutput)) (term s)))
         (EnumArray (r_add (ea_get (dvdl_lin s) Coul) (ea_get (dvdl ewaldOutput) Coul))
                    (r_add (ea_get (dvdl_lin s) Vdw) (ea_get (dvdl ewaldOutput) Vdw)))
         (trace s)).
Proof.
  intros H0. unfold longRangeMerge, addVirialContribution. run_monad.
  change (Z.to_nat 0) with 0%nat. rewrite H0. reflexivity.
Qed.

Lemma longRangeMerge_undefined (Vlr_q Vlr_lj : real) (s : State real gmx_pme_t) :
  ewc_t s !! 0%nat = None -> longRangeMerge Vlr_q Vlr_lj s = Undefined.
Proof.
  intros H0. unfold longRangeMerge. run_monad.
  change (Z.to_nat 0) with 0%nat. rewrite H0. reflexivity.
Qed.

(** The calls of a whole execution; one that ends in a fatal error has not
    written the accumulators. *)
Lemma calculateLongRangeNonbondeds_outcome (s : State real gmx_pme_t) :
  outcome_in (A := unit) (trace_rel P) (step_rel Pf) s (calculateLongRangeNonbondeds ext cfg s).
Proof using AD.
  pose proof (ad_props _ _ _ AD) as TP.
  unfold calculateLongRangeNonbondeds. destruct (doLongRange cfg) eqn:Hlr.
  - pose proof (longRangeCompute_outcome s Hlr) as Hc. unfold bind.
    destruct (longRangeCompute ext cfg s) as [V s1|c s1|]; cbn in Hc |- *; [|exact Hc|exact I].
    destruct (ewc_t s1 !! 0%nat) as [out|] eqn:H0.
    + rewrite (longRangeMerge_returns _ _ _ out H0). cbn.
      destruct Hc as (_ & _ & evs & Htr & Hevs). exists evs. cbn. split; assumption.
    + rewrite (longRangeMerge_undefined _ _ _ H0). exact I.
  - cbn. exists []. rewrite app_nil_r. split; [reflexivity | apply (tp_nil _ _ TP)].
Qed.

End Blocks.

(** ** The merge (C1) *)

Lemma Admits_any (cfg : Config) : Admits cfg (fun _ => True) (fun _ => True).
Proof. repeat constructor. Qed.

(** C1.  When the long-range branch of [calculateLongRangeNonbondeds] is
    taken and completes, with [Vlr_q] and [Vlr_lj] the reciprocal energies it
    computed and [ewaldOutput] the reduced record [fr->ewc_t[0]]: the energy
    term F_COUL_RECIP is [Vlr_q + ewaldOutput.Vcorr_q], F_LJ_RECIP is
    [Vlr_lj + ewaldOutput.Vcorr_lj], the caller's virial is the one it was
    with [ewaldOutput.vir_q] and then [ewaldOutput.vir_lj] added, and the
    Coulomb and Vdw entries of [dvdl_lin] are the ones they were with the
    entries of [ewaldOutput.dvdl] added. *)
Theorem calculateLongRangeNonbondeds_merge (ext : Externals real gmx_pme_t) (cfg : Config)
    (s s' : State real gmx_pme_t) :
  doLongRange cfg = true ->
  calculateLongRangeNonbondeds ext cfg s = Returns tt s' ->
  exists (Vlr_q Vlr_lj : real) (s1 : State real gmx_pme_t) (ewaldOutput : ewald_corr_thread_t real),
    longRangeCompute ext cfg s = Returns (Vlr_q, Vlr_lj) s1
    /\ ewc_t s1 !! 0%nat = Some ewaldOutput
    /\ ewc_t s' !! 0%nat = Some ewaldOutput
    /\ term s' F_COUL_RECIP = r_add Vlr_q (Vcorr_q ewaldOutput)
    /\ term s' F_LJ_RECIP = r_add Vlr_lj (Vcorr_lj ewaldOutput)
    /\ virial_ s' = m_add (m_add (virial_ s) (vir_q ewaldOutput)) (vir_lj ewaldOutput)
    /\ ea_get (dvdl_lin s') Coul
       = r_add (ea_get (dvdl_lin s) Coul) (ea_get (dvdl ewaldOutput) Coul)
    /\ ea_get (dvdl_lin s') Vdw
       = r_add (ea_get (dvdl_lin s) Vdw) (ea_get (dvdl ewaldOutput) Vdw).
Proof.
  intros Hlr Hrun. unfold calculateLongRangeNonbondeds in Hrun. rewrite Hlr in Hrun.
  pose proof (longRangeCompute_outcome ext cfg _ _ (Admits_any cfg) s Hlr) as Hc.
  unfold bind in Hrun.
  destruct (longRangeCompute ext cfg s) as [[Vlr_q Vlr_lj] s1|c s1|]; [|discriminate..].
  cbn in Hc. destruct Hc as ((Hv & Hd & Hm) & _).
  destruct (ewc_t s1 !! 0%nat) as [out|] eqn:H0.
  - rewrite (longRangeMerge_returns _ _ _ out H0) in Hrun. injection Hrun as <-.
    exists Vlr_q, Vlr_lj, s1, out. cbn. rewrite Hv, Hd. repeat split; assumption.
  - rewrite (longRangeMerge_undefined _ _ _ H0) in Hrun. discriminate.
Qed.

(** ** Cleared records (C5) *)

Lemma Admits_cleared (cfg : Config) :
  Admits cfg (cleared_before_use (nthread_ewc cfg)) (cleared_before_use (nthread_ewc cfg)).
Proof.
  assert (forall a b, cleared_before_use (nthread_ewc cfg) a ->
                      cleared_before_use (nthread_ewc cfg) b ->
                      cleared_before_use (nthread_ewc cfg) (a ++ b)) as Happ.
  { intros a b Ha Hb t r Hin.
    apply in_app_or in Hin as [Hin|Hin]; [apply Ha | apply Hb]; exact Hin. }
  constructor.
  { constructor; [intros t r [] | exact Happ | exact Happ]. }
  all: intros; intros t' r' Hin; in_cases Hin; try discriminate Hin;
    injection Hin as <- <-; split; first [assumption | reflexivity].
Qed.

(** C5.  In an execution of [calculateLongRangeNonbondeds], whenever a
    thread [t] enters [ewald_LRcorrection] -- the only writer of correction
    results to the per-thread records -- [t] is one of the [nthread_ewc]
    threads and every field of its record [fr->ewc_t[t]] is zero: both
    correction energies, both dV/dlambda entries and both virial tensors.
    (Thread 0's record is cleared at force.cpp:137, before the parallel
    loop; a thread [t > 0] clears its own at force.cpp:155.) *)
Theorem records_cleared_before_use (ext : Externals real gmx_pme_t) (cfg : Config)
    (s : State real gmx_pme_t) (t : Z) (r : ewald_corr_thread_t real) :
  trace s = [] ->
  In (ewald_LRcorrection_called t r) (trace_of (calculateLongRangeNonbondeds ext cfg s)) ->
  0 <= t < nthread_ewc cfg
  /\ Vcorr_q r = r_zero /\ Vcorr_lj r = r_zero
  /\ ea_get (dvdl r) Coul = r_zero /\ ea_get (dvdl r) Vdw = r_zero
  /\ (forall i j : dim, mat_el (vir_q r) i j = r_zero)
  /\ (forall i j : dim, mat_el (vir_lj r) i j = r_zero).
Proof.
  intros Htr Hin.
  pose proof (calculateLongRangeNonbondeds_outcome ext cfg _ _ (Admits_cleared cfg) s) as Hrun.
  assert (cleared_before_use (nthread_ewc cfg)
            (trace_of (calculateLongRangeNonbondeds ext cfg s))) as Hcl.
  { destruct (calculateLongRangeNonbondeds ext cfg s) as [[] s'|c s'|]; cbn in *.
    - destruct Hrun as (evs & -> & Hevs). rewrite Htr. exact Hevs.
    - destruct Hrun as (_ & _ & evs & -> & Hevs). rewrite Htr. exact Hevs.
    - intros ? ? []. }
  destruct (Hcl t r Hin) as [Ht ->].
  split; [exact Ht|]. repeat split; intros [] []; reflexivity.
Qed.

(** ** The load-balance region and the reciprocal solver (C6) *)

Lemma closed_before_pme_app (a b : list (Event real)) :
  closed_before_pme a -> closed_before_pme b -> closed_before_pme (a ++ b).
Proof.
  intros Ha Hb pre post Heq.
  apply app_eq_app in Heq as [l [[-> Hl]|[-> Hl]]].
  - destruct l as [|e l]; cbn in Hl.
    + exfalso. exact (Hb [] post (eq_sym Hl)).
    + injection Hl as <- ->. apply (Ha pre l). reflexivity.
  - apply in_or_app. right. apply (Hb l post). exact Hl.
Qed.

Lemma Admits_closed_before_pme (cfg : Config) : Admits cfg closed_before_pme closed_before_pme.
Proof.
  constructor.
  { constructor; [| exact closed_before_pme_app | exact closed_before_pme_app].
    intros [|? ?] ? Heq; discriminate Heq. }
  all: intros.
  all: intros pre post Heq.
  all: repeat (destruct pre as [|? pre]; cbn in Heq;
               [ try discriminate Heq | injection Heq as ? Heq; subst ]).
  all: try discriminate Heq.
  all: try (destruct pre; discriminate Heq).
  all: cbn; tauto.
Qed.

(** C6.  In every execution of [calculateLongRangeNonbondeds], a call of
    the reciprocal solver [gmx_pme_do] is preceded by a call of
    [ddBalanceRegionHandler.closeAfterForceComputationCpu]: the load-balance
    region is closed strictly before the solver is invoked. *)
Theorem closeAfterForceComputationCpu_before_gmx_pme_do (ext : Externals real gmx_pme_t)
    (cfg : Config) (s : State real gmx_pme_t) (pre post : list (Event real)) :
  trace s = [] ->
  trace_of (calculateLongRangeNonbondeds ext cfg s) = pre ++ gmx_pme_do_called :: post ->
  In closeAfterForceComputationCpu pre.
Proof.
  intros Htr.
  pose proof (calculateLongRangeNonbondeds_outcome ext cfg _ _ (Admits_closed_before_pme cfg) s)
    as Hrun.
  destruct (calculateLongRangeNonbondeds ext cfg s) as [[] s'|c s'|]; cbn in *.
  - destruct Hrun as (evs & -> & Hevs). rewrite Htr. apply Hevs.
  - destruct Hrun as (_ & _ & evs & -> & Hevs). rewrite Htr. apply Hevs.
  - intros Heq. destruct pre; discriminate Heq.
Qed.

(** ** Failures (C7) *)



Lemma Admits_failed (cfg : Config) : Admits cfg (fun _ => True) (failed cfg).
Proof.
  constructor.
  { constructor; [exact I | intros; exact I |].
    intros a b _ [(e & Hin & He)|Hassert]; [left | right; exact Hassert].
    exists e. split; [apply in_or_app; right; exact Hin | exact He]. }
  all: try (intros; exact I).
  - intros _ t _. left. exists (ewald_LRcorrection_threw t).
    split; [right; left; reflexivity | left; exists t; reflexivity].
  - intros status Hst. left. exists (gmx_pme_do_returned status).
    split; [do 3 right; left; reflexivity | right; exists status; split; [exact Hst|reflexivity]].
  - intros Hassert. right. apply andb_prop in Hassert as [Hnd Hn].
    split; [destruct (NDEBUG cfg); [discriminate | reflexivity] | lia].
Qed.

(** X2.  An execution of [calculateLongRangeNonbondeds] ends in a fatal
    error only after a thread has thrown, the reciprocal solver has returned
    a non-zero status, or the assertion [fr->n_tpi >= 0] has failed. *)
Theorem fatal_only_on_failure (ext : Externals real gmx_pme_t) (cfg : Config)
    (s s' : State real gmx_pme_t) (c : FatalCause) :
  trace s = [] ->
  calculateLongRangeNonbondeds ext cfg s = Fatal c s' ->
  failed cfg (trace s').
Proof.
  intros Htr Hrun.
  pose proof (calculateLongRangeNonbondeds_outcome ext cfg _ _ (Admits_failed cfg) s) as Hout.
  rewrite Hrun in Hout. destruct Hout as (_ & _ & evs & Heq & Hevs).
  rewrite Heq, Htr. exact Hevs.
Qed.

(** ** When the surface correction is computed (C8) *)

Lemma Admits_not_called (cfg : Config) :
  Admits cfg (fun evs => doSurfaceCorrection cfg = false -> ~ LRcorrection_called evs)
             (fun evs => doSurfaceCorrection cfg = false -> ~ LRcorrection_called evs).
Proof.
  assert (forall a b : list (Event real),
            (doSurfaceCorrection cfg = false -> ~ LRcorrection_called a) ->
            (doSurfaceCorrection cfg = false -> ~ LRcorrection_called b) ->
            doSurfaceCorrection cfg = false -> ~ LRcorrection_called (a ++ b)) as Happ.
  { intros a b Ha Hb Hc (t & r & Hin).
    apply in_app_or in Hin as [Hin|Hin]; [apply (Ha Hc) | apply (Hb Hc)]; exists t, r; exact Hin. }
  constructor.
  { constructor; [| exact Happ | exact Happ]. intros _ (t & r & []). }
  all: intros; try congruence.
  all: intros (t' & r' & Hin); in_cases Hin; discriminate Hin.
Qed.

Lemma step_rel_grows {A} P Pf (s : State real gmx_pme_t) (r : Result real gmx_pme_t A) :
  outcome_in (step_rel P) (step_rel Pf) s r -> grows s r.
Proof.
  destruct r as [a s'|c s'|]; cbn; [| |exact (fun x => x)];
    intros (_ & _ & evs & Htr & _); exists evs; split; [exact Htr | exact I | exact Htr | exact I].
Qed.

Lemma thread0_called_bind {A B} (m : M real gmx_pme_t A) (k : A -> M real gmx_pme_t B)
    (s : State real gmx_pme_t) :
  thread0_called (m s) ->
  (forall a s1, grows s1 (k a s1)) ->
  thread0_called (bind m k s).
Proof.
  intros Hm Hk. unfold bind. destruct (m s) as [a s1|c s1|]; cbn in *; [|exact Hm|exact I].
  specialize (Hk a s1). destruct Hm as [rec Hin].
  destruct (k a s1) as [b s2|c s2|]; cbn in *; [| |exact I];
    destruct Hk as (evs & -> & _); exists rec; apply in_or_app; left; exact Hin.
Qed.

Section Called.

Variable ext : Externals real gmx_pme_t.
Variable cfg : Config.
Hypothesis Hsurf : doSurfaceCorrection cfg = true.
Hypothesis Hthreads : 1 <= nthread_ewc cfg.

Lemma ewaldCorrectionThread0_called (s : State real gmx_pme_t) :
  thread0_called (ewaldCorrectionThread ext (nthread_ewc cfg) 0 s).
Proof.
  unfold ewaldCorrectionThread. run_monad.
  destruct (ewc_t s !! Z.to_nat 0) as [r0|]; cbn; [|exact I].
  destruct (ewc_t s !! Z.to_nat 0) as [r|]; cbn; [|exact I].
  destruct (ewald_LRcorrection ext _ _ _ _ _) as [[[f Vcorr] dvdlambda]|]; run_monad.
  - destruct (ewc_t s !! Z.to_nat 0) as [r'|]; cbn; [|exact I].
    exists r. apply in_or_app. right. left. reflexivity.
  - exists r. apply in_or_app. left. apply in_or_app. right. left. reflexivity.
Qed.

Lemma ewaldSurfaceCorrection_called (s : State real gmx_pme_t) :
  thread0_called (ewaldSurfaceCorrection ext cfg s).
Proof using Hsurf Hthreads.
  pose proof (Admits_any cfg) as AD. pose proof (ad_props _ _ _ AD) as TP.
  unfold ewaldSurfaceCorrection. unfold bind at 1. cbv [emit modify].
  apply thread0_called_bind.
  - rewrite seqZ_cons by lia. cbn [for_threads]. apply thread0_called_bind.
    + apply ewaldCorrectionThread0_called.
    + intros _ s1. eapply step_rel_grows. apply (outcome_for_threads _ _ TP).
      intros t s2 Hin. apply list_elem_of_In, elem_of_seqZ in Hin.
      apply (ewaldCorrectionThread_outcome ext cfg _ _ AD); [exact Hsurf | lia | lia].
  - intros _ s1. unfold bind.
    destruct (1 <? nthread_ewc cfg); cbn;
      [destruct (reduceEwaldThreadOuput _ _); cbn; [|exact I] |];
      eexists; cbn; split; [reflexivity | exact I | reflexivity | exact I].
Qed.

Lemma longRangeCompute_called (s : State real gmx_pme_t) :
  thread0_called (longRangeCompute ext cfg s).
Proof using Hsurf Hthreads.
  pose proof (Admits_any cfg) as AD. pose proof (ad_props _ _ _ AD) as TP.
  pose proof Hsurf as Hc. unfold doSurfaceCorrection in Hc.
  apply andb_prop in Hc as [Hc Hs]. apply andb_prop in Hc as [Hlr Hpme].
  unfold longRangeCompute. cbv zeta. unfold bind at 1, update_ewc_t at 1.
  destruct (ewc_t s !! Z.to_nat 0); [|exact I].
  rewrite Hpme, Hs. apply thread0_called_bind.
  - apply thread0_called_bind; [apply ewaldSurfaceCorrection_called|].
    intros _ s1. eapply step_rel_grows. apply (outcome_bind _ _ TP).
    + destruct (EEL_PME_EWALD cfg && (n_tpi cfg =? 0)) eqn:Hch; [|apply (outcome_ret _ _ TP)].
      apply (netChargeCorrection_outcome ext cfg _ _ AD).
      unfold doChargeCorrection. rewrite Hlr, Hpme, Hch. reflexivity.
    + intros _ s2 _. destruct (computePmeOnCpu cfg);
        [apply (pmeOnCpu_outcome ext cfg _ _ AD) | apply (outcome_ret _ _ TP)].
  - intros V s1. eapply step_rel_grows.
    destruct (eeltype_is_Ewald cfg); [|apply (outcome_ret _ _ TP)].
    apply (outcome_bind _ _ TP); [apply (plainEwald_outcome ext cfg _ _ AD)|].
    intros Vlr_q s2 _. apply (outcome_ret _ _ TP).
Qed.

Lemma calculateLongRangeNonbondeds_called (s : State real gmx_pme_t) :
  thread0_called (calculateLongRangeNonbondeds ext cfg s).
Proof using Hsurf Hthreads.
  pose proof Hsurf as Hc. unfold doSurfaceCorrection in Hc.
  apply andb_prop in Hc as [Hc _]. apply andb_prop in Hc as [Hlr _].
  unfold calculateLongRangeNonbondeds. rewrite Hlr.
  apply thread0_called_bind; [apply longRangeCompute_called|].
  intros V s1. destruct (ewc_t s1 !! 0%nat) as [out|] eqn:H0.
  - rewrite (longRangeMerge_returns _ _ _ out H0). exists []. cbn.
    rewrite app_nil_r. split; [reflexivity | exact I].
  - rewrite (longRangeMerge_undefined _ _ _ H0). exact I.
Qed.

End Called.

Lemma calculateLongRangeNonbondeds_without_LRcorrection (ext : Externals real gmx_pme_t)
    (cfg : Config) (s : State real gmx_pme_t)
    (f : Z -> Z -> list (rvec real) -> real -> real -> option (list (rvec real) * real * real)) :
  doSurfaceCorrection cfg = false ->
  calculateLongRangeNonbondeds (with_ewald_LRcorrection f ext) cfg s
  = calculateLongRangeNonbondeds ext cfg s.
Proof.
  unfold doSurfaceCorrection, calculateLongRangeNonbondeds, longRangeCompute.
  destruct (doLongRange cfg); [|reflexivity].
  destruct (EEL_PME_EWALD cfg || EVDW_PME cfg); [|reflexivity].
  destruct (haveEwaldSurfaceContribution cfg); [discriminate|reflexivity].
Qed.

Lemma calculateLongRangeNonbondeds_without_charge_correction (ext : Externals real gmx_pme_t)
    (cfg : Config) (s : State real gmx_pme_t)
    (f : real -> matrix real -> real * real * matrix real) :
  doChargeCorrection cfg = false ->
  calculateLongRangeNonbondeds (with_ewald_charge_correction f ext) cfg s
  = calculateLongRangeNonbondeds ext cfg s.
Proof.
  unfold doChargeCorrection, calculateLongRangeNonbondeds, longRangeCompute.
  destruct (doLongRange cfg); [|reflexivity].
  destruct (EEL_PME_EWALD cfg || EVDW_PME cfg); [|reflexivity].
  destruct (EEL_PME_EWALD cfg && (n_tpi cfg =? 0)); [discriminate|reflexivity].
Qed.

(** ** No access outside the per-thread array *)

Section Bounds.

Variable ext : Externals real gmx_pme_t.
Variable cfg : Config.

Lemma in_bounds_ret {A} (a : A) : in_bounds cfg (ret a : M real gmx_pme_t A).
Proof. intros s Hs. exact Hs. Qed.

Lemma in_bounds_bind {A B} (m : M real gmx_pme_t A) (k : A -> M real gmx_pme_t B) :
  in_bounds cfg m -> (forall a, in_bounds cfg (k a)) -> in_bounds cfg (bind m k).
Proof.
  intros Hm Hk s Hs. specialize (Hm s Hs). unfold bind.
  destruct (m s) as [a s'|c s'|]; [apply Hk, Hm | exact I | exact Hm].
Qed.

Lemma in_bounds_modify (f : State real gmx_pme_t -> State real gmx_pme_t) :
  (forall s, ewc_t (f s) = ewc_t s) -> in_bounds cfg (modify f).
Proof. intros Hf s Hs. cbn. unfold records_allocated. rewrite Hf. exact Hs. Qed.

Lemma in_bounds_emit (e : Event real) : in_bounds cfg (emit e : M real gmx_pme_t unit).
Proof. apply in_bounds_modify. reflexivity. Qed.

Lemma in_bounds_get : in_bounds cfg (get : M real gmx_pme_t (State real gmx_pme_t)).
Proof. intros s Hs. exact Hs. Qed.

Lemma in_bounds_fatal {A} (c : FatalCause) :
  in_bounds cfg (fatal c : M real gmx_pme_t A).
Proof. intros s Hs. exact I. Qed.

(** Record 0 and the records of the threads lie within the array. *)
Lemma in_bounds_read (t : Z) :
  t = 0 \/ 0 <= t < nthread_ewc cfg ->
  in_bounds cfg (read_ewc_t t : M real gmx_pme_t (ewald_corr_thread_t real)).
Proof.
  intros Ht s [H1 Hn]. unfold read_ewc_t.
  destruct (lookup_lt_is_Some_2 (ewc_t s) (Z.to_nat t) ltac:(lia)) as [r ->]. split; assumption.
Qed.

Lemma in_bounds_update (t : Z) (f : ewald_corr_thread_t real -> ewald_corr_thread_t real) :
  t = 0 \/ 0 <= t < nthread_ewc cfg ->
  in_bounds cfg (update_ewc_t t f : M real gmx_pme_t unit).
Proof.
  intros Ht s [H1 Hn]. unfold update_ewc_t.
  destruct (lookup_lt_is_Some_2 (ewc_t s) (Z.to_nat t) ltac:(lia)) as [r ->].
  unfold records_allocated. cbn. rewrite length_insert. split; assumption.
Qed.

Lemma in_bounds_for_threads (body : Z -> M real gmx_pme_t unit) (ts : list Z) :
  (forall t, In t ts -> in_bounds cfg (body t)) -> in_bounds cfg (for_threads body ts).
Proof.
  induction ts as [|t ts IH]; intros Hbody; cbn [for_threads].
  - apply in_bounds_ret.
  - apply in_bounds_bind; [apply Hbody; left; reflexivity|].
    intros _. apply IH. intros t' Hin. apply Hbody. right. exact Hin.
Qed.

(** Applies the rules above along the structure of a computation. *)
Ltac in_bounds_steps :=
  repeat first
    [ apply in_bounds_ret
    | apply in_bounds_emit
    | apply in_bounds_get
    | apply in_bounds_fatal
    | apply in_bounds_modify; reflexivity
    | apply in_bounds_read; solve [left; reflexivity | right; lia]
    | apply in_bounds_update; solve [left; reflexivity | right; lia]
    | apply in_bounds_bind; [|intro]
    | match goal with
      | |- in_bounds _ (if ?b then _ else _) => destruct b
      | |- in_bounds _ (match ?x with _ => _ end) => destruct x
      end ].

Lemma ewaldCorrectionThread_in_bounds (t : Z) :
  0 <= t < nthread_ewc cfg -> in_bounds cfg (ewaldCorrectionThread ext (nthread_ewc cfg) t).
Proof. intros Ht. unfold ewaldCorrectionThread. in_bounds_steps. Qed.

Lemma ewaldSurfaceCorrection_in_bounds : in_bounds cfg (ewaldSurfaceCorrection ext cfg).
Proof.
  unfold ewaldSurfaceCorrection. apply in_bounds_bind; [apply in_bounds_emit|]. intros _.
  apply in_bounds_bind.
  { apply in_bounds_for_threads. intros t Hin. apply list_elem_of_In, elem_of_seqZ in Hin.
    apply ewaldCorrectionThread_in_bounds. lia. }
  intros _. apply in_bounds_bind; [|intros _; apply in_bounds_emit].
  destruct (1 <? nthread_ewc cfg); [|apply in_bounds_ret].
  intros s Hs. destruct (proj2 (reduce_defined (nthread_ewc cfg) (ewc_t s)) Hs) as [l Hl].
  rewrite Hl. unfold records_allocated. cbn. rewrite (reduce_length _ _ _ Hl). exact Hs.
Qed.

Lemma netChargeCorrection_in_bounds : in_bounds cfg (netChargeCorrection ext).
Proof. unfold netChargeCorrection. in_bounds_steps. Qed.

Lemma reciprocalPme_in_bounds (Vlr_q Vlr_lj : real) :
  in_bounds cfg (reciprocalPme ext Vlr_q Vlr_lj).
Proof. unfold reciprocalPme. in_bounds_steps. Qed.

Lemma pmeOnCpu_in_bounds (Vlr_q Vlr_lj : real) : in_bounds cfg (pmeOnCpu ext cfg Vlr_q Vlr_lj).
Proof.
  unfold pmeOnCpu. apply in_bounds_bind; [in_bounds_steps|]. intros _.
  apply in_bounds_bind.
  { destruct ((n_tpi cfg =? 0) || stateChanged cfg);
      [apply reciprocalPme_in_bounds | apply in_bounds_ret]. }
  intros V. in_bounds_steps.
Qed.

Lemma plainEwald_in_bounds : in_bounds cfg (plainEwald ext).
Proof. unfold plainEwald. in_bounds_steps. Qed.

Lemma longRangeCompute_in_bounds : in_bounds cfg (longRangeCompute ext cfg).
Proof.
  unfold longRangeCompute. cbv zeta.
  apply in_bounds_bind; [apply in_bounds_update; left; reflexivity|]. intros _.
  apply in_bounds_bind.
  { destruct (EEL_PME_EWALD cfg || EVDW_PME cfg); [|apply in_bounds_ret].
    apply in_bounds_bind.
    { destruct (haveEwaldSurfaceContribution cfg);
        [apply ewaldSurfaceCorrection_in_bounds | apply in_bounds_ret]. }
    intros _. apply in_bounds_bind.
    { destruct (EEL_PME_EWALD cfg && (n_tpi cfg =? 0));
        [apply netChargeCorrection_in_bounds | apply in_bounds_ret]. }
    intros _. destruct (computePmeOnCpu cfg); [apply pmeOnCpu_in_bounds | apply in_bounds_ret]. }
  intros V. destruct (eeltype_is_Ewald cfg); [|apply in_bounds_ret].
  apply in_bounds_bind; [apply plainEwald_in_bounds | intros Vlr_q; apply in_bounds_ret].
Qed.

Lemma longRangeMerge_in_bounds (Vlr_q Vlr_lj : real) :
  in_bounds cfg (longRangeMerge (gmx_pme_t := gmx_pme_t) Vlr_q Vlr_lj).
Proof. unfold longRangeMerge, addVirialContribution. in_bounds_steps. Qed.

(** An execution of [calculateLongRangeNonbondeds] on a state whose
    per-thread array holds record 0 and the records of the [nthread_ewc]
    threads indexes the array within its bounds: it returns or ends in a
    fatal error. *)
Lemma calculateLongRangeNonbondeds_in_bounds :
  in_bounds cfg (calculateLongRangeNonbondeds ext cfg).
Proof.
  unfold calculateLongRangeNonbondeds. destruct (doLongRange cfg); [|apply in_bounds_ret].
  apply in_bounds_bind; [apply longRangeCompute_in_bounds|].
  intros V. apply longRangeMerge_in_bounds.
Qed.

End Bounds.

(** X1.  On a state whose per-thread array holds record 0 and the records
    of the [nthread_ewc] threads, [calculateLongRangeNonbondeds] indexes the
    array within its bounds: the execution returns or ends in a fatal
    error. *)
Theorem calculateLongRangeNonbondeds_defined (ext : Externals real gmx_pme_t) (cfg : Config)
    (s : State real gmx_pme_t) :
  (1 <= length (ewc_t s))%nat ->
  nthread_ewc cfg <= Z.of_nat (length (ewc_t s)) ->
  calculateLongRangeNonbondeds ext cfg s <> Undefined.
Proof.
  intros H1 Hn Hrun.
  pose proof (calculateLongRangeNonbondeds_in_bounds ext cfg s (conj H1 Hn)) as Hb.
  rewrite Hrun in Hb. exact Hb.
Qed.

(** ** Two executions from the same initial state (C9) *)








Section Agree.

Variable ext : Externals real gmx_pme_t.
Variable cfg : Config.







(** What thread [t] does, written out. *)
Lemma ewaldCorrectionThread_run (nthreads t : Z) (s : State real gmx_pme_t)
    (r : ewald_corr_thread_t real) :
  ewc_t s !! Z.to_nat t = Some r ->
  ewaldCorrectionThread ext nthreads t s
  = match ewald_LRcorrection ext nthreads t (force_ s)
            (Vcorr_q (if 0 <? t then zero_output else r))
            (ea_get (dvdl (if 0 <? t then zero_output else r)) Coul) with
    | Some (f, Vcorr, dvdlambda) =>
        Returns tt
          (mkState (<[Z.to_nat t := set_dvdl Coul dvdlambda
                                      (set_Vcorr_q Vcorr (if 0 <? t then zero_output else r))]>
                      (ewc_t s))
                   (pmedata s) (ewald_table s) f (virial_ s) (term s) (dvdl_lin s)
                   (trace s ++ [ewald_LRcorrection_called t (if 0 <? t then zero_output else r)]))
    | None =>
        Fatal (ExceptionInThread t)
          (mkState (if 0 <? t then <[Z.to_nat t := zero_output]> (ewc_t s) else ewc_t s)
                   (pmedata s) (ewald_table s) (force_ s) (virial_ s) (term s) (dvdl_lin s)
                   ((trace s ++ [ewald_LRcorrection_called t (if 0 <? t then zero_output else r)])
                    ++ [ewald_LRcorrection_threw t]))
    end.
Proof.
  intros Hr. pose proof (lookup_lt_Some _ _ _ Hr) as Hlt.
  unfold ewaldCorrectionThread. run_monad. rewrite Hr. cbn.
  destruct (0 <? t); cbn.
  - rewrite Hr. cbn. rewrite list_lookup_insert_eq by exact Hlt. cbn.
    destruct (ewald_LRcorrection ext _ _ _ _ _) as [[[f Vcorr] dvdlambda]|]; run_monad.
    + rewrite list_lookup_insert_eq by exact Hlt. cbn.
      rewrite list_insert_insert_eq. reflexivity.
    + reflexivity.
  - rewrite Hr. cbn.
    destruct (ewald_LRcorrection ext _ _ _ _ _) as [[[f Vcorr] dvdlambda]|]; run_monad.
    + rewrite Hr. reflexivity.
    + destruct s; reflexivity.
Qed.

Lemma ewaldCorrectionThread_undefined (nthreads t : Z) (s : State real gmx_pme_t) :
  ewc_t s !! Z.to_nat t = None -> ewaldCorrectionThread ext nthreads t s = Undefined.
Proof. intros Hr. unfold ewaldCorrectionThread. run_monad. rewrite Hr. reflexivity. Qed.






End Agree.


(** ** The records a thread touches *)

(** X13.  Thread [t] writes no per-thread record but its own, whether its
    call of [ewald_LRcorrection] returns or throws; and a thread [t > 0]
    does not read the records either, not even its own: its outcome is the
    same, but for the records of the other threads, from any two states that
    differ only in their records. *)
Theorem thread_works_on_its_own_record (ext : Externals real gmx_pme_t) (nthreads t : Z)
    (s : State real gmx_pme_t) :
  0 <= t ->
  match ewaldCorrectionThread ext nthreads t s with
  | Returns _ s' | Fatal _ s' =>
      length (ewc_t s') = length (ewc_t s)
      /\ (forall j, j <> Z.to_nat t -> ewc_t s' !! j = ewc_t s !! j)
      /\ (0 < t ->
          forall l, (Z.to_nat t < length l)%nat ->
                    match ewaldCorrectionThread ext nthreads t (set_ewc_t l s) with
                    | Returns _ s2 | Fatal _ s2 =>
                        same_outputs s' s2 /\ ewc_t s' !! Z.to_nat t = ewc_t s2 !! Z.to_nat t
                    | Undefined => False
                    end)
  | Undefined => True
  end.
Proof.
  intros Ht. destruct (ewc_t s !! Z.to_nat t) as [r|] eqn:Hr.
  2:{ rewrite (ewaldCorrectionThread_undefined ext nthreads t s Hr). exact I. }
  rewrite (ewaldCorrectionThread_run ext nthreads t s r Hr).
  assert (Z.to_nat t < length (ewc_t s))%nat as Hlen by (eapply lookup_lt_Some; exact Hr).
  destruct (ewald_LRcorrection ext nthreads t (force_ s) _ _)
    as [[[f Vcorr] dvdlambda]|] eqn:Hcall; cbn.
  - split; [apply length_insert|]. split.
    + intros j Hj. apply list_lookup_insert_ne. congruence.
    + intros Hpos l Hl. destruct (lookup_lt_is_Some_2 l (Z.to_nat t) Hl) as [r' Hr'].
      rewrite (ewaldCorrectionThread_run ext nthreads t (set_ewc_t l s) r' Hr').
      apply Z.ltb_lt in Hpos. rewrite Hpos in Hcall |- *. cbn [force_ set_ewc_t].
      rewrite Hcall. cbn. split; [repeat split|].
      rewrite !list_lookup_insert_eq by assumption. reflexivity.
  - split.
    + destruct (0 <? t); [apply length_insert | reflexivity].
    + split.
      * intros j Hj. destruct (0 <? t); [|reflexivity].
        apply list_lookup_insert_ne. congruence.
      * intros Hpos l Hl. destruct (lookup_lt_is_Some_2 l (Z.to_nat t) Hl) as [r' Hr'].
        rewrite (ewaldCorrectionThread_run ext nthreads t (set_ewc_t l s) r' Hr').
        apply Z.ltb_lt in Hpos. rewrite Hpos in Hcall |- *. cbn [force_ set_ewc_t].
        rewrite Hcall. cbn. split; [repeat split|].
        rewrite !list_lookup_insert_eq by assumption. reflexivity.
Qed.

(** ** The parallel loop in any order of its iterations *)

(** X4.  Whatever the order in which the iterations of the parallel loop
    (force.cpp:147-184) are run, each once, every thread finds all fields of
    its record zero when it calls [ewald_LRcorrection], provided record 0 was
    cleared before the loop: a thread [t > 0] clears its own record, and no
    thread writes the record of thread 0 but thread 0. *)
Theorem records_cleared_in_any_order (ext : Externals real gmx_pme_t) (nthreads : Z)
    (order : list Z) :
  forall s : State real gmx_pme_t,
    NoDup order ->
    (forall t, In t order -> 0 <= t) ->
    (In 0 order -> ewc_t s !! 0%nat = Some zero_output) ->
    for_threads (ewaldCorrectionThread ext nthreads) order s <> Undefined ->
    exists new,
      trace_of (for_threads (ewaldCorrectionThread ext nthreads) order s) = trace s ++ new
      /\ forall t r, In (ewald_LRcorrection_called t r) new -> In t order /\ r = zero_output.
Proof.
  induction order as [|t order IH]; intros s Hnd Hpos H0.
  - intros _. exists []. cbn. rewrite app_nil_r. split; [reflexivity | intros t r []].
  - cbn [for_threads]. unfold bind.
    destruct (ewc_t s !! Z.to_nat t) as [r|] eqn:Hr.
    2:{ rewrite (ewaldCorrectionThread_undefined ext nthreads t s Hr). intros Hdef.
        destruct (Hdef eq_refl). }
    rewrite (ewaldCorrectionThread_run ext nthreads t s r Hr).
    assert ((if 0 <? t then zero_output else r) = zero_output) as ->.
    { destruct (Z.ltb_spec 0 t) as [Hlt|Hge]; [reflexivity|].
      assert (t = 0) as -> by (specialize (Hpos t (or_introl eq_refl)); lia).
      change (Z.to_nat 0) with 0%nat in Hr.
      rewrite (H0 (or_introl eq_refl)) in Hr. congruence. }
    apply NoDup_cons in Hnd as [Hnotin Hnd].
    destruct (ewald_LRcorrection ext _ _ _ _ _) as [[[f Vcorr] dvdlambda]|].
    + match goal with
      | |- context [for_threads _ order ?s1] =>
          specialize (IH s1 Hnd (fun t' Hin => Hpos t' (or_intror Hin)))
      end.
      lapply IH; [clear IH; intros IH|].
      2:{ intros Hin0. cbn. rewrite list_lookup_insert_ne.
          - apply H0. right. exact Hin0.
          - intros Heq. apply Hnotin. apply list_elem_of_In.
            assert (t = 0) as -> by (specialize (Hpos t (or_introl eq_refl)); lia).
            exact Hin0. }
      intros Hdef. destruct (IH Hdef) as (new & Hnew & Hcalls).
      exists (ewald_LRcorrection_called t zero_output :: new). split.
      * rewrite Hnew. cbn. rewrite <- app_assoc. reflexivity.
      * intros t' r' [Heq|Hin].
        -- injection Heq as <- <-. split; [left; reflexivity | reflexivity].
        -- destruct (Hcalls t' r' Hin) as [Hin' ->]. split; [right; exact Hin' | reflexivity].
    + intros _. exists [ewald_LRcorrection_called t zero_output; ewald_LRcorrection_threw t].
      split; [cbn; rewrite <- app_assoc; reflexivity|].
      intros t' r' Hin. in_cases Hin; [|discriminate Hin].
      injection Hin as <- <-. split; [left; reflexivity | reflexivity].
Qed.

(** ** Hoare triples for the monad *)

Lemma triple_ret {A} (a : A) (Pre : State real gmx_pme_t -> Prop) Q E :
  (forall s, Pre s -> Q a s) -> triple Pre (ret a) Q E.
Proof. intros HQ s Hs. apply HQ, Hs. Qed.

Lemma triple_bind {A B} (m : M real gmx_pme_t A) (k : A -> M real gmx_pme_t B) Pre R Q E :
  triple Pre m R E -> (forall a, triple (R a) (k a) Q E) -> triple Pre (bind m k) Q E.
Proof.
  intros Hm Hk s Hs. specialize (Hm s Hs). unfold bind.
  destruct (m s) as [a s1|c s1|]; [apply (Hk a s1 Hm) | exact Hm | exact I].
Qed.

Lemma triple_weaken {A} (m : M real gmx_pme_t A) Pre Pre' (Q Q' : A -> _) (E E' : _ -> _) :
  triple Pre m Q E ->
  (forall s, Pre' s -> Pre s) ->
  (forall a s, Q a s -> Q' a s) ->
  (forall c s, E c s -> E' c s) ->
  triple Pre' m Q' E'.
Proof.
  intros Hm Hpre HQ HE s Hs. specialize (Hm s (Hpre s Hs)).
  destruct (m s) as [a s1|c s1|]; [apply HQ, Hm | apply HE, Hm | exact I].
Qed.

Lemma triple_if {A} (b : bool) (m1 m2 : M real gmx_pme_t A) Pre Q E :
  (b = true -> triple Pre m1 Q E) ->
  (b = false -> triple Pre m2 Q E) ->
  triple Pre (if b then m1 else m2) Q E.
Proof. destruct b; intros H1 H2; [apply H1 | apply H2]; reflexivity. Qed.

(** Sequencing two computations that keep the invariant [I]. *)
Lemma triple_invariant_bind {A B} (I : State real gmx_pme_t -> Prop)
    (m : M real gmx_pme_t A) (k : A -> M real gmx_pme_t B) :
  triple I m (fun _ => I) (fun _ => I) ->
  (forall a, triple I (k a) (fun _ => I) (fun _ => I)) ->
  triple I (bind m k) (fun _ => I) (fun _ => I).
Proof. intros Hm Hk. eapply triple_bind; [exact Hm | exact Hk]. Qed.

Lemma triple_invariant_ret {A} (I : State real gmx_pme_t -> Prop) (a : A) :
  triple I (ret a) (fun _ => I) (fun _ => I).
Proof. apply triple_ret. trivial. Qed.

(** ** The calls of an execution, written out *)

Section Calls.

Variable ext : Externals real gmx_pme_t.
Variable cfg : Config.

(** The threads [k .. k+m-1], one after the other: each calls
    [ewald_LRcorrection] on a zeroed record, up to the first that throws. *)
Lemma for_threads_calls (nthreads : Z) (m : nat) :
  forall (k : Z) (tr : list (Event real)),
    0 <= k ->
    triple (fun s => trace s = tr /\ (k = 0 -> ewc_t s !! 0%nat = Some zero_output))
      (for_threads (ewaldCorrectionThread ext nthreads) (seqZ k (Z.of_nat m)))
      (fun _ s' =>
         trace s' = tr ++ map (fun t => ewald_LRcorrection_called t zero_output)
                              (seqZ k (Z.of_nat m)))
      (fun c s' =>
         exists t, c = ExceptionInThread t /\ k <= t < k + Z.of_nat m
                   /\ trace s' = tr ++ map (fun t => ewald_LRcorrection_called t zero_output)
                                           (seqZ k (t + 1 - k))
                                   ++ [ewald_LRcorrection_threw t]).
Proof.
  induction m as [|m IH]; intros k tr Hk s [Htr H0].
  - rewrite seqZ_nil by lia. cbn. rewrite app_nil_r. exact Htr.
  - rewrite seqZ_cons by lia.
    replace (Z.pred (Z.of_nat (S m))) with (Z.of_nat m) by lia.
    cbn [for_threads]. unfold bind.
    destruct (ewc_t s !! Z.to_nat k) as [r|] eqn:Hr.
    2:{ rewrite (ewaldCorrectionThread_undefined ext nthreads k s Hr). exact I. }
    rewrite (ewaldCorrectionThread_run ext nthreads k s r Hr).
    assert ((if 0 <? k then zero_output else r) = zero_output) as ->.
    { destruct (Z.ltb_spec 0 k) as [Hlt|Hge]; [reflexivity|].
      assert (k = 0) as -> by lia. change (Z.to_nat 0) with 0%nat in Hr.
      rewrite (H0 eq_refl) in Hr. congruence. }
    destruct (ewald_LRcorrection ext _ _ _ _ _) as [[[f Vcorr] dvdlambda]|].
    + match goal with
      | |- context [for_threads _ _ ?s1] =>
          specialize (IH (Z.succ k) (tr ++ [ewald_LRcorrection_called k zero_output])
                         ltac:(lia) s1)
      end.
      lapply IH; [clear IH; intros IH | cbn; split; [rewrite Htr; reflexivity | lia]].
      destruct (for_threads _ _ _) as [[] s'|c s'|]; [| |exact I].
      * rewrite IH, <- app_assoc. reflexivity.
      * destruct IH as (t & -> & Ht & Htr'). exists t.
        split; [reflexivity|]. split; [lia|].
        rewrite Htr', <- app_assoc. rewrite (seqZ_cons k (t + 1 - k)) by lia.
        replace (Z.pred (t + 1 - k)) with (t + 1 - Z.succ k) by lia. reflexivity.
    + exists k. split; [reflexivity|]. split; [lia|].
      replace (k + 1 - k) with 1 by lia. rewrite Htr, <- app_assoc. reflexivity.
Qed.

Lemma ewaldSurfaceCorrection_calls (tr : list (Event real)) :
  triple (fun s => trace s = tr /\ ewc_t s !! 0%nat = Some zero_output)
    (ewaldSurfaceCorrection ext cfg)
    (fun _ s' => trace s' = tr ++ surface_calls cfg)
    (fun c s' =>
       exists t, c = ExceptionInThread t /\ 0 <= t < nthread_ewc cfg
                 /\ trace s' = tr ++ fatal_calls cfg (ExceptionInThread t)).
Proof.
  unfold ewaldSurfaceCorrection.
  apply (triple_bind _ _ _
           (fun _ s => trace s = tr ++ [wallcycle_sub_start EwaldCorrection]
                       /\ ewc_t s !! 0%nat = Some zero_output)).
  { intros s [Htr H0]. cbn. rewrite Htr. split; [reflexivity | exact H0]. }
  intros _.
  apply (triple_bind _ _ _
           (fun _ s => trace s = tr ++ wallcycle_sub_start EwaldCorrection
                                       :: LRcorrection_calls (nthread_ewc cfg))).
  { destruct (Z.le_gt_cases (nthread_ewc cfg) 0) as [Hle|Hgt].
    - unfold LRcorrection_calls. rewrite seqZ_nil by exact Hle. cbn.
      intros s [Htr _]. exact Htr.
    - pose proof (for_threads_calls (nthread_ewc cfg) (Z.to_nat (nthread_ewc cfg)) 0
                    (tr ++ [wallcycle_sub_start EwaldCorrection]) (Z.le_refl 0)) as Hloop.
      rewrite Z2Nat.id in Hloop by lia.
      eapply triple_weaken; [exact Hloop | | |].
      + intros s [Htr H0]. split; [exact Htr | intros _; exact H0].
      + intros [] s Htr. cbv beta in Htr. rewrite Htr, <- app_assoc. reflexivity.
      + intros c s (t & -> & Ht & Htr). exists t. split; [reflexivity|]. split; [lia|].
        rewrite Htr, <- app_assoc. cbn. unfold LRcorrection_calls.
        replace (t + 1 - 0) with (t + 1) by lia. reflexivity. }
  intros _.
  apply (triple_bind _ _ _
           (fun _ s => trace s = tr ++ wallcycle_sub_start EwaldCorrection
                                       :: LRcorrection_calls (nthread_ewc cfg))).
  { apply triple_if; intros _; [|apply triple_ret; trivial].
    intros s Htr. destruct (reduceEwaldThreadOuput _ _); [exact Htr | exact I]. }
  intros _ s Htr. cbn. rewrite Htr, <- app_assoc. reflexivity.
Qed.

Lemma netChargeCorrection_calls (tr : list (Event real)) :
  triple (fun s => trace s = tr) (netChargeCorrection ext)
    (fun _ s' => trace s' = tr ++ [ewald_charge_correction_called])
    (fun _ _ => False).
Proof.
  intros s Htr. unfold netChargeCorrection. run_monad.
  destruct (ewc_t s !! Z.to_nat 0) as [r|]; cbn; [|exact I].
  destruct (ewald_charge_correction ext _ _) as [[enercorr dvdlambda] vir]. run_monad.
  destruct (ewc_t s !! Z.to_nat 0) as [r'|]; cbn; [|exact I].
  rewrite Htr. reflexivity.
Qed.

Lemma reciprocalPme_calls (Vlr_q Vlr_lj : real) (tr : list (Event real)) :
  triple (fun s => trace s = tr) (reciprocalPme ext Vlr_q Vlr_lj)
    (fun _ s' => trace s' = tr ++ pme_calls 0)
    (fun c s' =>
       exists status, c = PmeError status /\ status <> 0 /\ trace s' = tr ++ pme_calls status).
Proof.
  intros s Htr. unfold reciprocalPme. run_monad.
  destruct (ewc_t s !! Z.to_nat 0) as [r|]; cbn; [|exact I].
  destruct (gmx_pme_do ext _) as [status out]. run_monad.
  destruct (ewc_t s !! Z.to_nat 0) as [r'|]; cbn; [|exact I].
  destruct (Z.eqb_spec status 0) as [->|Hst]; cbn.
  - rewrite Htr, <- !app_assoc. reflexivity.
  - exists status. split; [reflexivity|]. split; [exact Hst|].
    rewrite Htr, <- !app_assoc. reflexivity.
Qed.

Lemma pmeOnCpu_calls (Vlr_q Vlr_lj : real) (tr : list (Event real)) :
  triple (fun s => trace s = tr) (pmeOnCpu ext cfg Vlr_q Vlr_lj)
    (fun _ s' =>
       trace s' = tr ++ (if (n_tpi cfg =? 0) || stateChanged cfg then pme_calls 0 else [])
                     ++ (if 0 <? n_tpi cfg then [gmx_pme_calc_energy_called] else []))
    (fun c s' =>
       (c = AssertionFailed /\ NDEBUG cfg = false /\ n_tpi cfg < 0 /\ trace s' = tr)
       \/ (exists status, c = PmeError status /\ status <> 0
                          /\ (n_tpi cfg =? 0) || stateChanged cfg = true
                          /\ trace s' = tr ++ pme_calls status)).
Proof.
  unfold pmeOnCpu.
  apply (triple_bind _ _ _ (fun _ s => trace s = tr)).
  { apply triple_if; intros Hassert; [|apply triple_ret; trivial].
    intros s Htr. left. apply andb_prop in Hassert as [Hnd Hneg].
    apply negb_true_iff in Hnd, Hneg. apply Z.leb_gt in Hneg. auto. }
  intros _.
  apply (triple_bind _ _ _
           (fun _ s => trace s = tr ++ (if (n_tpi cfg =? 0) || stateChanged cfg
                                        then pme_calls 0 else []))).
  { apply triple_if; intros Hdo.
    - eapply triple_weaken; [apply (reciprocalPme_calls _ _ tr) | trivial | |].
      + intros V s Htr. rewrite Hdo. exact Htr.
      + intros c s (status & -> & Hst & Htr). right. exists status. auto.
    - apply triple_ret. intros s Htr. rewrite Hdo, app_nil_r. exact Htr. }
  intros V. apply triple_if; intros Htpi.
  - intros s Htr. run_monad. destruct (gmx_pme_calc_energy ext (pmedata s)) as [e p].
    run_monad. rewrite Htr, Htpi, <- app_assoc. reflexivity.
  - apply triple_ret. intros s Htr. rewrite Htr, Htpi, app_nil_r. reflexivity.
Qed.

Lemma plainEwald_calls (tr : list (Event real)) :
  triple (fun s => trace s = tr) (plainEwald ext)
    (fun _ s' => trace s' = tr ++ [do_ewald_called])
    (fun _ _ => False).
Proof.
  intros s Htr. unfold plainEwald. run_monad.
  destruct (ewc_t s !! Z.to_nat 0) as [r|]; cbn; [|exact I].
  destruct (do_ewald ext _ _ _ _) as [[[[Vlr_q f] lrvir] dvdlambda] et]. run_monad.
  destruct (ewc_t s !! Z.to_nat 0) as [r'|]; cbn; [|exact I].
  rewrite Htr. reflexivity.
Qed.

(** Rewrites with the conditions known to hold or not to hold. *)
Ltac known_conditions :=
  unfold calls_of, calls_before_pme, fatal_reason, doSurfaceCorrection, doChargeCorrection,
    doReciprocalPme, doPmeCalcEnergy, doPlainEwald;
  repeat match goal with
         | Hb : _ = true |- _ => rewrite Hb
         | Hb : _ = false |- _ => rewrite Hb
         end;
  cbn [andb orb app].

Lemma longRangeCompute_calls (tr : list (Event real)) :
  doLongRange cfg = true ->
  triple (fun s => trace s = tr) (longRangeCompute ext cfg)
    (fun _ s' => trace s' = tr ++ calls_of cfg)
    (fun c s' => fatal_reason cfg c /\ trace s' = tr ++ fatal_calls cfg c).
Proof.
  intros Hlr. unfold longRangeCompute. cbv zeta.
  apply (triple_bind _ _ _
           (fun _ s => trace s = tr /\ ewc_t s !! 0%nat = Some zero_output)).
  { intros s Htr. unfold update_ewc_t.
    destruct (ewc_t s !! Z.to_nat 0) as [r|] eqn:Hr; [|exact I].
    split; [exact Htr|]. cbn. apply list_lookup_insert_eq. eapply lookup_lt_Some. exact Hr. }
  intros _.
  apply (triple_bind _ _ _
           (fun _ s => trace s = tr ++ calls_before_pme cfg
                                   ++ (if doReciprocalPme cfg then pme_calls 0 else [])
                                   ++ (if doPmeCalcEnergy cfg
                                       then [gmx_pme_calc_energy_called] else []))).
  { apply triple_if; intros Hgate.
    - apply (triple_bind _ _ _
               (fun _ s => trace s = tr ++ (if doSurfaceCorrection cfg
                                            then surface_calls cfg else []))).
      { apply triple_if; intros Hsurf.
        - eapply triple_weaken; [apply (ewaldSurfaceCorrection_calls tr) | trivial | |].
          + intros [] s Htr. known_conditions. exact Htr.
          + intros c s (t & -> & Ht & Htr). known_conditions. auto.
        - apply triple_ret. intros s [Htr _]. known_conditions. rewrite app_nil_r. exact Htr. }
      intros _.
      apply (triple_bind _ _ _ (fun _ s => trace s = tr ++ calls_before_pme cfg)).
      { apply triple_if; intros Hcharge.
        - eapply triple_weaken;
            [apply (netChargeCorrection_calls
                      (tr ++ (if doSurfaceCorrection cfg then surface_calls cfg else [])))
            | trivial | | intros c s []].
          intros [] s Htr. cbv beta in Htr. rewrite Htr. known_conditions.
          rewrite <- app_assoc. reflexivity.
        - apply triple_ret. intros s Htr. rewrite Htr. known_conditions.
          rewrite app_nil_r. reflexivity. }
      intros _. apply triple_if; intros Hcpu.
      + eapply triple_weaken;
          [apply (pmeOnCpu_calls _ _ (tr ++ calls_before_pme cfg)) | trivial | |].
        * intros V s Htr. cbv beta in Htr. rewrite Htr, <- app_assoc.
          unfold doReciprocalPme, doPmeCalcEnergy. rewrite Hlr, Hgate, Hcpu. reflexivity.
        * intros c s [(-> & Hnd & Hneg & Htr)|(status & -> & Hst & Hdo & Htr)].
          -- split; [|exact Htr]. cbn. rewrite Hlr, Hgate, Hcpu. auto.
          -- split; [|rewrite Htr, <- app_assoc; reflexivity].
             cbn. unfold doReciprocalPme. rewrite Hlr, Hgate, Hcpu, Hdo. auto.
      + apply triple_ret. intros s Htr. rewrite Htr.
        unfold doReciprocalPme, doPmeCalcEnergy. rewrite Hlr, Hgate, Hcpu. cbn.
        rewrite !app_nil_r. reflexivity.
    - apply triple_ret. intros s [Htr _]. rewrite Htr. known_conditions.
      rewrite !app_nil_r. reflexivity. }
  intros V. apply triple_if; intros Hewald.
  - apply (triple_bind _ _ _ (fun _ s => trace s = tr ++ calls_of cfg));
      [|intros Vlr_q; apply triple_ret; trivial].
    eapply triple_weaken;
      [apply (plainEwald_calls
                (tr ++ calls_before_pme cfg
                    ++ (if doReciprocalPme cfg then pme_calls 0 else [])
                    ++ (if doPmeCalcEnergy cfg then [gmx_pme_calc_energy_called] else [])))
      | trivial | | intros c s []].
    intros Vlr_q s Htr. cbv beta in Htr. rewrite Htr. unfold calls_of, doPlainEwald.
    rewrite Hlr, Hewald, <- !app_assoc. reflexivity.
  - apply triple_ret. intros s Htr. rewrite Htr. unfold calls_of, doPlainEwald.
    rewrite Hlr, Hewald. cbn. rewrite !app_nil_r. reflexivity.
Qed.

(** The calls of a whole execution: the merge makes none. *)
Lemma calculateLongRangeNonbondeds_calls (tr : list (Event real)) :
  triple (fun s => trace s = tr) (calculateLongRangeNonbondeds ext cfg)
    (fun _ s' => trace s' = tr ++ calls_of cfg)
    (fun c s' => fatal_reason cfg c /\ trace s' = tr ++ fatal_calls cfg c).
Proof.
  unfold calculateLongRangeNonbondeds. apply triple_if; intros Hlr.
  - eapply triple_bind; [apply (longRangeCompute_calls tr Hlr)|].
    intros V s Htr. destruct (ewc_t s !! 0%nat) as [out|] eqn:H0.
    + rewrite (longRangeMerge_returns _ _ _ out H0). exact Htr.
    + rewrite (longRangeMerge_undefined _ _ _ H0). exact I.
  - apply triple_ret. intros s Htr. rewrite Htr. known_conditions.
    rewrite !app_nil_r. reflexivity.
Qed.

End Calls.

(** ** The wall-cycle counters *)

Lemma wallcycle_run_app (a b : list (Event real)) :
  forall running,
    wallcycle_run running (a ++ b)
    = match wallcycle_run running a with
      | Some running' => wallcycle_run running' b
      | None => None
      end.
Proof.
  induction a as [|e a IH]; intros running; cbn; [reflexivity|].
  destruct (wallcycle_step running e); [apply IH | reflexivity].
Qed.

Lemma wallcycle_run_LRcorrection_calls (n : Z) (running : bool * bool) :
  wallcycle_run running (LRcorrection_calls n) = Some running.
Proof.
  unfold LRcorrection_calls. induction (seqZ 0 n) as [|t l IH]; [reflexivity | exact IH].
Qed.

Lemma wallcycle_run_calls_before_pme (cfg : Config) :
  wallcycle_run (false, false) (calls_before_pme cfg) = Some (false, false).
Proof.
  unfold calls_before_pme, surface_calls. rewrite wallcycle_run_app.
  destruct (doSurfaceCorrection cfg), (doChargeCorrection cfg); cbn;
    rewrite ?wallcycle_run_app, ?wallcycle_run_LRcorrection_calls; reflexivity.
Qed.

(** X7.  No execution starts a wall-cycle counter that is running or stops
    one that is not.  When the execution returns, and when it ends in a fatal
    error of the reciprocal solver or of the assertion, no counter is left
    running; when it ends with an exception in a thread, the sub-counter
    EwaldCorrection is. *)
Theorem wallcycle_counters_bracketed (ext : Externals real gmx_pme_t) (cfg : Config)
    (s : State real gmx_pme_t) :
  trace s = [] ->
  match calculateLongRangeNonbondeds ext cfg s with
  | Returns _ s' => wallcycle_run (false, false) (trace s') = Some (false, false)
  | Fatal (ExceptionInThread _) s' =>
      wallcycle_run (false, false) (trace s') = Some (true, false)
  | Fatal _ s' => wallcycle_run (false, false) (trace s') = Some (false, false)
  | Undefined => True
  end.
Proof.
  intros Htr.
  pose proof (calculateLongRangeNonbondeds_calls ext cfg [] s Htr) as Hcalls.
  destruct (calculateLongRangeNonbondeds ext cfg s) as [[] s'|c s'|]; [| |exact I].
  - rewrite Hcalls. cbn [app]. unfold calls_of.
    rewrite !wallcycle_run_app, wallcycle_run_calls_before_pme.
    destruct (doReciprocalPme cfg), (doPmeCalcEnergy cfg), (doPlainEwald cfg); reflexivity.
  - destruct Hcalls as [_ Hcalls]. rewrite Hcalls. cbn [app].
    destruct c as [t|status|]; cbn [fatal_calls].
    + change (wallcycle_run (false, false) (wallcycle_sub_start EwaldCorrection :: ?l))
        with (wallcycle_run (true, false) l).
      rewrite wallcycle_run_app, wallcycle_run_LRcorrection_calls. reflexivity.
    + rewrite wallcycle_run_app, wallcycle_run_calls_before_pme. reflexivity.
    + apply wallcycle_run_calls_before_pme.
Qed.

(** ** Which routines are called *)

(** Goes through the cases of a membership [Hin : In e l] in a list of calls
    written with [++], [map] and [if]. *)
Ltac in_calls Hin :=
  cbn [In] in Hin;
  lazymatch type of Hin with
  | In _ (_ ++ _) => apply in_app_or in Hin; destruct Hin as [Hin|Hin]; in_calls Hin
  | In _ (map _ _) => apply in_map_iff in Hin; destruct Hin as (? & Hin & _); in_calls Hin
  | In _ (if ?b then _ else _) => destruct b eqn:?; in_calls Hin
  | _ \/ _ => destruct Hin as [Hin|Hin]; in_calls Hin
  | False => destruct Hin
  | _ = _ => try discriminate Hin
  | _ => idtac
  end.

(** X8.  [ewald_charge_correction], [gmx_pme_do], [gmx_pme_calc_energy]
    and [do_ewald] are called only under the conditions of the [if]s around
    their calls, whatever the outcome of the execution; and an execution that
    returns has called each of them whose conditions hold. *)
Theorem routines_called_as_configured (ext : Externals real gmx_pme_t) (cfg : Config)
    (s : State real gmx_pme_t) :
  trace s = [] ->
  (In ewald_charge_correction_called (trace_of (calculateLongRangeNonbondeds ext cfg s)) ->
   doChargeCorrection cfg = true)
  /\ (In gmx_pme_do_called (trace_of (calculateLongRangeNonbondeds ext cfg s)) ->
      doReciprocalPme cfg = true)
  /\ (In gmx_pme_calc_energy_called (trace_of (calculateLongRangeNonbondeds ext cfg s)) ->
      doPmeCalcEnergy cfg = true)
  /\ (In do_ewald_called (trace_of (calculateLongRangeNonbondeds ext cfg s)) ->
      doPlainEwald cfg = true)
  /\ (forall s', calculateLongRangeNonbondeds ext cfg s = Returns tt s' ->
        (doChargeCorrection cfg = true -> In ewald_charge_correction_called (trace s'))
        /\ (doReciprocalPme cfg = true -> In gmx_pme_do_called (trace s'))
        /\ (doPmeCalcEnergy cfg = true -> In gmx_pme_calc_energy_called (trace s'))
        /\ (doPlainEwald cfg = true -> In do_ewald_called (trace s'))).
Proof.
  intros Htr.
  pose proof (calculateLongRangeNonbondeds_calls ext cfg [] s Htr) as Hcalls.
  destruct (calculateLongRangeNonbondeds ext cfg s) as [[] s1|c s1|]; cbn [trace_of].
  - cbn [app] in Hcalls. rewrite Hcalls.
    unfold calls_of, calls_before_pme, surface_calls, LRcorrection_calls, pme_calls.
    split; [|split; [|split; [|split]]].
    1-4: intros Hin; in_calls Hin; reflexivity.
    intros s' Heq. injection Heq as <-. rewrite Hcalls.
    unfold calls_of, calls_before_pme, surface_calls, LRcorrection_calls, pme_calls.
    repeat split; intros Hdo; rewrite Hdo; rewrite !in_app_iff; cbn [In];
      intuition reflexivity.
  - destruct Hcalls as [Hwhy Hcalls]. cbn [app] in Hcalls. rewrite Hcalls.
    repeat split; try discriminate.
    all: intros Hin; destruct c as [t|status|]; cbn [fatal_calls fatal_reason] in Hin, Hwhy;
      unfold calls_before_pme, surface_calls, LRcorrection_calls, pme_calls in Hin;
      in_calls Hin; try reflexivity; apply Hwhy.
  - repeat split; try discriminate; intros [].
Qed.

(** X12.  A solver whose conditions do not hold has no part in the outcome:
    the execution is the same with any other routine in the place of
    [gmx_pme_do] when reciprocal PME is not configured, of
    [gmx_pme_calc_energy] without test-particle insertion on this rank's PME,
    of [do_ewald] when the electrostatics are not plain Ewald. *)
Theorem solvers_not_configured_do_not_matter (ext : Externals real gmx_pme_t) (cfg : Config)
    (s : State real gmx_pme_t) :
  (doReciprocalPme cfg = false ->
   forall g, calculateLongRangeNonbondeds (with_gmx_pme_do g ext) cfg s
             = calculateLongRangeNonbondeds ext cfg s)
  /\ (doPmeCalcEnergy cfg = false ->
      forall g, calculateLongRangeNonbondeds (with_gmx_pme_calc_energy g ext) cfg s
                = calculateLongRangeNonbondeds ext cfg s)
  /\ (doPlainEwald cfg = false ->
      forall g, calculateLongRangeNonbondeds (with_do_ewald g ext) cfg s
                = calculateLongRangeNonbondeds ext cfg s).
Proof.
  unfold doReciprocalPme, doPmeCalcEnergy, doPlainEwald, calculateLongRangeNonbondeds,
    longRangeCompute, pmeOnCpu.
  destruct (doLongRange cfg); [|repeat split].
  destruct (EEL_PME_EWALD cfg || EVDW_PME cfg), (computePmeOnCpu cfg),
    (eeltype_is_Ewald cfg); cbn [andb]; repeat split; intros Hno g;
    try discriminate Hno; try reflexivity; rewrite Hno; reflexivity.
Qed.

(** ** The Lennard-Jones part of the output *)

Section LennardJones.

Variable ext : Externals real gmx_pme_t.
Variable cfg : Config.

Lemma lj_zero_stable : coulomb_stable lj_zero.
Proof. intros [q lj [dc dv] vq vlj] Hr. repeat split; intros; repeat split; apply Hr. Qed.

Lemma Vcorr_lj_stable : coulomb_stable (fun r => Vcorr_lj r = r_zero).
Proof. intros r Hr. repeat split; intros; exact Hr. Qed.

Lemma lj_zero_zero_output : lj_zero zero_output.
Proof. repeat split. Qed.

(** What thread [t] does keeps [P] of record 0, and establishes it of
    its own record. *)
Lemma ewaldCorrectionThread_satisfied (P : ewald_corr_thread_t real -> Prop)
    (nthreads t : Z) :
  coulomb_stable P -> P zero_output -> 0 <= t ->
  triple (satisfied_below P t) (ewaldCorrectionThread ext nthreads t)
    (fun _ => satisfied_below P (Z.succ t)) (fun _ _ => True).
Proof.
  intros HP Hzero Ht s [(out & H0 & Hout) Hbelow].
  destruct (ewc_t s !! Z.to_nat t) as [r|] eqn:Hr.
  2:{ rewrite (ewaldCorrectionThread_undefined ext nthreads t s Hr). exact I. }
  rewrite (ewaldCorrectionThread_run ext nthreads t s r Hr).
  destruct (ewald_LRcorrection ext _ _ _ _ _) as [[[f Vcorr] dvdlambda]|]; [|exact I].
  assert (P (if 0 <? t then zero_output else r)) as Hr0.
  { destruct (Z.ltb_spec 0 t) as [Hlt|Hge]; [exact Hzero|].
    assert (t = 0) as -> by lia. change (Z.to_nat 0) with 0%nat in Hr. congruence. }
  assert (P (set_dvdl Coul dvdlambda (set_Vcorr_q Vcorr (if 0 <? t then zero_output else r))))
    as Hnew.
  { apply HP. apply HP. exact Hr0. }
  assert (Z.to_nat t < length (ewc_t s))%nat as Hlen by (eapply lookup_lt_Some; exact Hr).
  split.
  - unfold output_satisfies. cbn. destruct (decide (Z.to_nat t = 0%nat)) as [Heq|Hne].
    + rewrite Heq in *. eexists. split; [apply list_lookup_insert_eq; exact Hlen | exact Hnew].
    + exists out. rewrite list_lookup_insert_ne by exact Hne. split; assumption.
  - cbn. intros i r' Hi Hr'. destruct (decide (Z.to_nat t = i)) as [Heq|Hne].
    + subst i. rewrite list_lookup_insert_eq in Hr' by exact Hlen. congruence.
    + rewrite list_lookup_insert_ne in Hr' by exact Hne. apply (Hbelow i r'); [lia | exact Hr'].
Qed.

Lemma for_threads_satisfied (P : ewald_corr_thread_t real -> Prop) (nthreads : Z) (m : nat) :
  coulomb_stable P -> P zero_output ->
  forall k, 0 <= k ->
    triple (satisfied_below P k)
      (for_threads (ewaldCorrectionThread ext nthreads) (seqZ k (Z.of_nat m)))
      (fun _ => satisfied_below P (k + Z.of_nat m)) (fun _ _ => True).
Proof.
  intros HP Hzero. induction m as [|m IH]; intros k Hk.
  - rewrite seqZ_nil by lia. apply triple_ret. intros s Hs.
    replace (k + Z.of_nat 0) with k by lia. exact Hs.
  - rewrite seqZ_cons by lia.
    replace (Z.pred (Z.of_nat (S m))) with (Z.of_nat m) by lia.
    cbn [for_threads]. eapply triple_bind.
    + apply ewaldCorrectionThread_satisfied; assumption.
    + intros []. replace (k + Z.of_nat (S m)) with (Z.succ k + Z.of_nat m) by lia.
      apply IH. lia.
Qed.

Lemma fold_add_output_satisfies (P : ewald_corr_thread_t real -> Prop) :
  (forall d r, P d -> P r -> P (add_output d r)) ->
  forall (l : list (ewald_corr_thread_t real)) (d : ewald_corr_thread_t real),
    P d -> Forall P l -> P (fold_left add_output l d).
Proof.
  intros Hadd. induction l as [|r l IH]; intros d Hd Hl; [exact Hd|].
  apply Forall_cons in Hl as [Hr Hl]. cbn. apply IH; [apply Hadd; assumption | exact Hl].
Qed.

(** The reduction over records that all satisfy [P] leaves a record 0 that
    satisfies [P], when [P] goes along with the addition of records. *)
Lemma reduceEwaldThreadOuput_satisfied (P : ewald_corr_thread_t real -> Prop) (nthreads : Z)
    (s : State real gmx_pme_t) (l : list (ewald_corr_thread_t real)) :
  (forall d r, P d -> P r -> P (add_output d r)) ->
  satisfied_below P nthreads s ->
  reduceEwaldThreadOuput nthreads (ewc_t s) = Some l ->
  output_satisfies P (set_ewc_t l s).
Proof.
  intros Hadd [(out & H0 & Hout) Hbelow] Hred.
  destruct (proj1 (reduce_defined nthreads (ewc_t s)) (mk_is_Some _ _ Hred)) as [_ Hn].
  destruct (ewc_t s) as [|dest rest] eqn:Hewc; [discriminate H0|].
  injection H0 as ->. rewrite reduce_cons in Hred by exact Hn. injection Hred as <-.
  eexists. split; [reflexivity|].
  apply fold_add_output_satisfies; [exact Hadd | exact Hout|].
  apply Forall_forall. intros r Hin. apply list_elem_of_lookup in Hin as [i Hi].
  apply lookup_take_Some in Hi as [Hi Hlt].
  apply (Hbelow (S i) r); [lia | exact Hi].
Qed.

Lemma ewaldSurfaceCorrection_satisfied (P : ewald_corr_thread_t real -> Prop) :
  coulomb_stable P -> P zero_output ->
  (forall d r, P d -> P r -> P (add_output d r)) ->
  triple (output_satisfies P) (ewaldSurfaceCorrection ext cfg)
    (fun _ => output_satisfies P) (fun _ _ => True).
Proof.
  intros HP Hzero Hadd. unfold ewaldSurfaceCorrection.
  apply (triple_bind _ _ _ (fun _ => satisfied_below P 0)).
  { intros s Hs. split; [exact Hs | intros i r Hi; lia]. }
  intros _.
  apply (triple_bind _ _ _ (fun _ => satisfied_below P (nthread_ewc cfg))).
  { destruct (Z.le_gt_cases (nthread_ewc cfg) 0) as [Hle|Hgt].
    - rewrite seqZ_nil by exact Hle. apply triple_ret.
      intros s [Hs _]. split; [exact Hs | intros i r Hi; lia].
    - pose proof (for_threads_satisfied P (nthread_ewc cfg) (Z.to_nat (nthread_ewc cfg))
                    HP Hzero 0 (Z.le_refl 0)) as Hloop.
      rewrite Z2Nat.id in Hloop by lia. exact Hloop. }
  intros _.
  apply (triple_bind _ _ _ (fun _ => output_satisfies P)); [|intros _ s Hs; exact Hs].
  apply triple_if; intros _.
  - intros s Hs.
    destruct (reduceEwaldThreadOuput _ _) as [l|] eqn:Hred; [|exact I].
    eapply reduceEwaldThreadOuput_satisfied; eassumption.
  - apply triple_ret. intros s [Hs _]. exact Hs.
Qed.

Lemma netChargeCorrection_satisfied (P : ewald_corr_thread_t real -> Prop) :
  coulomb_stable P ->
  triple (output_satisfies P) (netChargeCorrection ext)
    (fun _ => output_satisfies P) (fun _ _ => True).
Proof.
  intros HP s (out & H0 & Hout). unfold netChargeCorrection. run_monad.
  change (Z.to_nat 0) with 0%nat. rewrite H0. cbn.
  destruct (ewald_charge_correction ext _ _) as [[enercorr dvdlambda] vir]. run_monad.
  change (Z.to_nat 0) with 0%nat. rewrite H0. cbn.
  eexists. split; [apply list_lookup_insert_eq; eapply lookup_lt_Some; exact H0|].
  apply HP. apply HP. apply HP. exact Hout.
Qed.

Lemma plainEwald_satisfied (P : ewald_corr_thread_t real -> Prop) :
  coulomb_stable P ->
  triple (output_satisfies P) (plainEwald ext)
    (fun _ => output_satisfies P) (fun _ _ => True).
Proof.
  intros HP s (out & H0 & Hout). unfold plainEwald. run_monad.
  change (Z.to_nat 0) with 0%nat. rewrite H0. cbn.
  destruct (do_ewald ext _ _ _ _) as [[[[Vlr_q f] lrvir] dvdlambda] et]. run_monad.
  change (Z.to_nat 0) with 0%nat. rewrite H0. cbn.
  eexists. split; [apply list_lookup_insert_eq; eapply lookup_lt_Some; exact H0|].
  apply HP. apply HP. exact Hout.
Qed.

(** [gmx_pme_do] can write every field of the output but [Vcorr_lj]. *)
Lemma reciprocalPme_Vcorr_lj (Vlr_q Vlr_lj : real) :
  triple (output_satisfies (fun r => Vcorr_lj r = r_zero)) (reciprocalPme ext Vlr_q Vlr_lj)
    (fun _ => output_satisfies (fun r => Vcorr_lj r = r_zero)) (fun _ _ => True).
Proof.
  intros s (out & H0 & Hout). unfold reciprocalPme. run_monad.
  change (Z.to_nat 0) with 0%nat. rewrite H0. cbn.
  destruct (gmx_pme_do ext _) as [status out']. run_monad.
  change (Z.to_nat 0) with 0%nat. rewrite H0. cbn.
  destruct (negb (status =? 0)); cbn; [exact I|].
  eexists. split; [apply list_lookup_insert_eq; eapply lookup_lt_Some; exact H0 | exact Hout].
Qed.

Lemma output_satisfies_weaken (P P' : ewald_corr_thread_t real -> Prop)
    (s : State real gmx_pme_t) :
  (forall r, P r -> P' r) -> output_satisfies P s -> output_satisfies P' s.
Proof. intros HP (out & H0 & Hout). exists out. split; [exact H0 | apply HP, Hout]. Qed.

Lemma pmeOnCpu_lj (Vlr_q Vlr_lj : real) :
  triple (output_satisfies lj_zero) (pmeOnCpu ext cfg Vlr_q Vlr_lj)
    (fun V s' =>
       output_satisfies (fun r => Vcorr_lj r = r_zero) s'
       /\ ((n_tpi cfg =? 0) || stateChanged cfg = false ->
           output_satisfies lj_zero s' /\ snd V = Vlr_lj))
    (fun _ _ => True).
Proof.
  unfold pmeOnCpu.
  apply (triple_bind _ _ _ (fun _ => output_satisfies lj_zero)).
  { apply triple_if; intros _; [intros s _; exact I | apply triple_ret; trivial]. }
  intros _.
  apply (triple_bind _ _ _
           (fun V s' =>
              output_satisfies (fun r => Vcorr_lj r = r_zero) s'
              /\ ((n_tpi cfg =? 0) || stateChanged cfg = false ->
                  output_satisfies lj_zero s' /\ snd V = Vlr_lj))).
  { apply triple_if; intros Hdo.
    - eapply triple_weaken; [apply reciprocalPme_Vcorr_lj | | | trivial].
      + intros s Hs. eapply output_satisfies_weaken; [|exact Hs]. intros r Hr. apply Hr.
      + intros V s Hs. split; [exact Hs | intros Hno; congruence].
    - apply triple_ret. intros s Hs. split; [|intros _; split; [exact Hs | reflexivity]].
      eapply output_satisfies_weaken; [|exact Hs]. intros r Hr. apply Hr. }
  intros V. apply triple_if; intros _; [|apply triple_ret; trivial].
  intros s Hs. run_monad. destruct (gmx_pme_calc_energy ext (pmedata s)) as [e p].
  run_monad. exact Hs.
Qed.

Hypothesis zero_plus_zero : r_add r_zero r_zero = r_zero.

Lemma lj_zero_add_output (d r : ewald_corr_thread_t real) :
  lj_zero d -> lj_zero r -> lj_zero (add_output d r).
Proof using zero_plus_zero.
  destruct d as [dq dlj [ddc ddv] dvq dvlj], r as [rq rlj [rdc rdv] rvq rvlj].
  unfold lj_zero, add_output. cbn. intros (-> & -> & ->) (-> & -> & ->).
  unfold m_add, clear_mat, vec3_map2, vec3_const. cbn.
  rewrite zero_plus_zero. repeat split.
Qed.

(** When the computation returns: [Vcorr_lj] of the output is zero; unless
    [gmx_pme_do] was called, so are [vir_lj] and [dvdl[Vdw]] of the output,
    and [Vlr_lj]. *)
Lemma longRangeCompute_lj :
  doLongRange cfg = true ->
  triple (fun _ => True) (longRangeCompute ext cfg)
    (fun V s' =>
       output_satisfies (fun r => Vcorr_lj r = r_zero) s'
       /\ (doReciprocalPme cfg = false -> output_satisfies lj_zero s' /\ snd V = r_zero))
    (fun _ _ => True).
Proof using zero_plus_zero.
  intros Hlr. unfold longRangeCompute. cbv zeta.
  apply (triple_bind _ _ _ (fun _ => output_satisfies lj_zero)).
  { intros s _. unfold update_ewc_t.
    destruct (ewc_t s !! Z.to_nat 0) as [r|] eqn:Hr; [|exact I].
    exists zero_output. split; [|apply lj_zero_zero_output].
    cbn. apply list_lookup_insert_eq. eapply lookup_lt_Some. exact Hr. }
  intros _.
  apply (triple_bind _ _ _
           (fun V s' =>
              output_satisfies (fun r => Vcorr_lj r = r_zero) s'
              /\ (doReciprocalPme cfg = false ->
                  output_satisfies lj_zero s' /\ snd V = r_zero))).
  { apply triple_if; intros Hgate.
    - apply (triple_bind _ _ _ (fun _ => output_satisfies lj_zero)).
      { apply triple_if; intros _; [|apply triple_ret; trivial].
        apply ewaldSurfaceCorrection_satisfied;
          [apply lj_zero_stable | apply lj_zero_zero_output | apply lj_zero_add_output]. }
      intros _. apply (triple_bind _ _ _ (fun _ => output_satisfies lj_zero)).
      { apply triple_if; intros _; [|apply triple_ret; trivial].
        apply netChargeCorrection_satisfied, lj_zero_stable. }
      intros _. apply triple_if; intros Hcpu.
      + eapply triple_weaken; [apply pmeOnCpu_lj | trivial | | trivial].
        intros V s [Hs Hno]. split; [exact Hs|]. intros Hdo. apply Hno.
        unfold doReciprocalPme in Hdo. rewrite Hlr, Hgate, Hcpu in Hdo. exact Hdo.
      + apply triple_ret. intros s Hs. split; [|intros _; split; [exact Hs | reflexivity]].
        eapply output_satisfies_weaken; [|exact Hs]. intros r Hr. apply Hr.
    - apply triple_ret. intros s Hs. split; [|intros _; split; [exact Hs | reflexivity]].
      eapply output_satisfies_weaken; [|exact Hs]. intros r Hr. apply Hr. }
  intros V. apply triple_if; intros _; [|apply triple_ret; trivial].
  apply (triple_bind _ _ _
           (fun _ s' =>
              output_satisfies (fun r => Vcorr_lj r = r_zero) s'
              /\ (doReciprocalPme cfg = false ->
                  output_satisfies lj_zero s' /\ snd V = r_zero)));
    [|intros Vlr_q; apply triple_ret; trivial].
  intros s [Hs Hno].
  pose proof (plainEwald_satisfied _ Vcorr_lj_stable s Hs) as Hv.
  destruct (doReciprocalPme cfg).
  - destruct (plainEwald ext s); [|exact I|exact I]. split; [exact Hv | discriminate].
  - destruct (Hno eq_refl) as [Hlj HV].
    pose proof (plainEwald_satisfied _ lj_zero_stable s Hlj) as Hlj'.
    destruct (plainEwald ext s); [|exact I|exact I]. split; [exact Hv | auto].
Qed.

End LennardJones.

(** X9.  The Lennard-Jones correction energy is never computed: when the
    long-range branch returns, [ewaldOutput.Vcorr_lj] is zero, so that the
    energy term F_LJ_RECIP is [Vlr_lj + 0].  And unless [gmx_pme_do] is
    called, the Lennard-Jones output is all zero: F_LJ_RECIP is set to 0, 0 is
    added to [dvdl_lin[Vdw]], and the second virial contribution is the zero
    matrix.  Here [real] is any type in which 0 + 0 is 0. *)
Theorem Lennard_Jones_correction_is_zero (ext : Externals real gmx_pme_t) (cfg : Config)
    (s s' : State real gmx_pme_t) :
  r_add r_zero r_zero = r_zero ->
  doLongRange cfg = true ->
  calculateLongRangeNonbondeds ext cfg s = Returns tt s' ->
  exists out,
    ewc_t s' !! 0%nat = Some out
    /\ Vcorr_lj out = r_zero
    /\ (doReciprocalPme cfg = false ->
        term s' F_LJ_RECIP = r_zero
        /\ ea_get (dvdl_lin s') Vdw = r_add (ea_get (dvdl_lin s) Vdw) r_zero
        /\ virial_ s' = m_add (m_add (virial_ s) (vir_q out)) clear_mat).
Proof.
  intros Hzero Hlr Hrun. unfold calculateLongRangeNonbondeds in Hrun. rewrite Hlr in Hrun.
  unfold bind in Hrun.
  pose proof (longRangeCompute_lj ext cfg Hzero Hlr s I) as Hlj.
  pose proof (longRangeCompute_outcome ext cfg _ _ (Admits_any cfg) s Hlr) as Hkept.
  destruct (longRangeCompute ext cfg s) as [[Vlr_q Vlr_lj] s1|c s1|]; [|discriminate..].
  destruct Hlj as [(out & H0 & Hout) Hno]. destruct Hkept as ((Hv & Hd & Ht) & _).
  rewrite (longRangeMerge_returns _ _ _ out H0) in Hrun. injection Hrun as <-.
  exists out. split; [exact H0|]. split; [exact Hout|].
  intros Hdo. destruct (Hno Hdo) as [(out' & H0' & _ & Hdv & Hvir) HV].
  assert (out' = out) as -> by congruence. cbn in HV. subst Vlr_lj.
  cbn in Hdv |- *. rewrite Hout, Hdv, Hvir, Hv, Hd. auto.
Qed.


(** ** What a correction that is not computed contributes (C8) *)

Section Uncorrected.

Variable ext : Externals real gmx_pme_t.
Variable cfg : Config.

Lemma netChargeCorrection_from_zero :
  triple (output_satisfies (eq zero_output)) (netChargeCorrection ext)
    (fun _ => output_satisfies (eq (charge_corrected_output ext))) (fun _ _ => True).
Proof.
  intros s (out & H0 & <-). unfold netChargeCorrection, charge_corrected_output. run_monad.
  change (Z.to_nat 0) with 0%nat. rewrite H0. cbn.
  change (at_Coul (dvdl zero_output)) with (r_zero (real := real)).
  change (vir_q zero_output) with (clear_mat (real := real)).
  destruct (ewald_charge_correction ext r_zero clear_mat) as [[enercorr dvdlambda] vir].
  run_monad. change (Z.to_nat 0) with 0%nat. rewrite H0. cbn.
  eexists. split; [apply list_lookup_insert_eq; eapply lookup_lt_Some; exact H0 | reflexivity].
Qed.

Lemma reciprocalPme_solver_stable (P : ewald_corr_thread_t real -> Prop)
    (Vlr_q Vlr_lj : real) :
  solver_stable P ->
  triple (output_satisfies P) (reciprocalPme ext Vlr_q Vlr_lj)
    (fun _ => output_satisfies P) (fun _ _ => True).
Proof.
  intros HP s (out & H0 & Hout). unfold reciprocalPme. run_monad.
  change (Z.to_nat 0) with 0%nat. rewrite H0. cbn.
  destruct (gmx_pme_do ext _) as [status out']. run_monad.
  change (Z.to_nat 0) with 0%nat. rewrite H0. cbn.
  destruct (negb (status =? 0)); cbn; [exact I|].
  eexists. split; [apply list_lookup_insert_eq; eapply lookup_lt_Some; exact H0|].
  apply HP. apply HP. apply HP. apply HP. exact Hout.
Qed.

(** The PME block keeps [P] of the output: any [P] when [gmx_pme_do] is not
    called, a [P] that speaks of the correction energies when it is. *)
Lemma pmeOnCpu_solver_stable (P : ewald_corr_thread_t real -> Prop) (Vlr_q Vlr_lj : real) :
  ((n_tpi cfg =? 0) || stateChanged cfg = true -> solver_stable P) ->
  triple (output_satisfies P) (pmeOnCpu ext cfg Vlr_q Vlr_lj)
    (fun _ => output_satisfies P) (fun _ _ => True).
Proof.
  intros HP. unfold pmeOnCpu.
  apply (triple_bind _ _ _ (fun _ => output_satisfies P)).
  { apply triple_if; intros _; [intros s _; exact I | apply triple_ret; trivial]. }
  intros _. apply (triple_bind _ _ _ (fun _ => output_satisfies P)).
  { apply triple_if; intros Hdo; [|apply triple_ret; trivial].
    apply reciprocalPme_solver_stable, HP, Hdo. }
  intros V. apply triple_if; intros _; [|apply triple_ret; trivial].
  intros s Hs. run_monad. destruct (gmx_pme_calc_energy ext (pmedata s)) as [e p].
  run_monad. exact Hs.
Qed.

Lemma plainEwald_solver_stable (P : ewald_corr_thread_t real -> Prop) :
  solver_stable P ->
  triple (output_satisfies P) (plainEwald ext)
    (fun _ => output_satisfies P) (fun _ _ => True).
Proof.
  intros HP s (out & H0 & Hout). unfold plainEwald. run_monad.
  change (Z.to_nat 0) with 0%nat. rewrite H0. cbn.
  destruct (do_ewald ext _ _ _ _) as [[[[Vlr_q f] lrvir] dvdlambda] et]. run_monad.
  change (Z.to_nat 0) with 0%nat. rewrite H0. cbn.
  eexists. split; [apply list_lookup_insert_eq; eapply lookup_lt_Some; exact H0|].
  apply HP. apply HP. exact Hout.
Qed.

(** Without the surface correction: the output that is merged is, for a
    [P] that speaks of the correction energies, as the net-charge correction
    alone leaves it; and [Vlr_lj] is zero unless [gmx_pme_do] is called. *)
Lemma longRangeCompute_uncorrected (P : ewald_corr_thread_t real -> Prop) :
  doLongRange cfg = true ->
  doSurfaceCorrection cfg = false ->
  (doReciprocalPme cfg || doPlainEwald cfg = true -> solver_stable P) ->
  P (uncorrected_output ext cfg) ->
  triple (fun _ => True) (longRangeCompute ext cfg)
    (fun V s' => output_satisfies P s' /\ (doReciprocalPme cfg = false -> snd V = r_zero))
    (fun _ _ => True).
Proof.
  intros Hlr Hsurf HP Hout. unfold longRangeCompute. cbv zeta.
  unfold doSurfaceCorrection, doReciprocalPme, doPlainEwald, uncorrected_output,
    doChargeCorrection in *.
  rewrite Hlr in *. cbn [andb] in *.
  apply (triple_bind _ _ _ (fun _ => output_satisfies (eq zero_output))).
  { intros s _. unfold update_ewc_t.
    destruct (ewc_t s !! Z.to_nat 0) as [r|] eqn:Hr; [|exact I].
    exists zero_output. split; [|reflexivity].
    cbn. apply list_lookup_insert_eq. eapply lookup_lt_Some. exact Hr. }
  intros _.
  apply (triple_bind _ _ _
           (fun V s' => output_satisfies P s'
                        /\ ((EEL_PME_EWALD cfg || EVDW_PME cfg) && computePmeOnCpu cfg
                            && ((n_tpi cfg =? 0) || stateChanged cfg) = false ->
                            snd V = r_zero))).
  { apply triple_if; intros Hgate; rewrite Hgate in *; cbn [andb] in *.
    - rewrite Hsurf.
      apply (triple_bind _ _ _ (fun _ => output_satisfies (eq zero_output)));
        [apply triple_ret; trivial|].
      intros _. apply (triple_bind _ _ _ (fun _ => output_satisfies P)).
      { apply triple_if; intros Hcharge; rewrite Hcharge in Hout.
        - eapply triple_weaken; [apply netChargeCorrection_from_zero | trivial | | trivial].
          intros [] s (out & H0 & <-). exists (charge_corrected_output ext).
          split; [exact H0 | exact Hout].
        - apply triple_ret. intros s (out & H0 & <-). exists zero_output.
          split; [exact H0 | exact Hout]. }
      intros _. apply triple_if; intros Hcpu; rewrite Hcpu in *; cbn [andb] in *.
      + assert ((n_tpi cfg =? 0) || stateChanged cfg = true -> solver_stable P) as HP'.
        { intros Hdo. apply HP. rewrite Hdo. reflexivity. }
        pose proof (pmeOnCpu_solver_stable P r_zero r_zero HP') as Hkeep.
        intros s Hs. specialize (Hkeep s Hs).
        destruct (pmeOnCpu ext cfg r_zero r_zero s) as [V s'|c s'|] eqn:Hrun;
          [|exact I|exact I].
        split; [exact Hkeep|]. intros Hno.
        unfold pmeOnCpu in Hrun. unfold bind in Hrun.
        destruct (negb (NDEBUG cfg) && negb (0 <=? n_tpi cfg)); [discriminate Hrun|].
        cbn in Hrun. rewrite Hno in Hrun. cbn in Hrun.
        destruct (0 <? n_tpi cfg); [|injection Hrun as <- _; reflexivity].
        cbv [emit modify get bind ret] in Hrun. cbn in Hrun.
        destruct (gmx_pme_calc_energy ext (pmedata s)) as [e p]. cbn in Hrun.
        injection Hrun as <- _. reflexivity.
      + apply triple_ret. intros s Hs. split; [exact Hs | reflexivity].
    - apply triple_ret. intros s (out & H0 & <-). split; [|reflexivity].
      exists zero_output. split; [exact H0 | exact Hout]. }
  intros V. apply triple_if; intros Hewald; rewrite Hewald in *.
  - apply (triple_bind _ _ _
             (fun _ s' => output_satisfies P s'
                          /\ ((EEL_PME_EWALD cfg || EVDW_PME cfg) && computePmeOnCpu cfg
                              && ((n_tpi cfg =? 0) || stateChanged cfg) = false ->
                              snd V = r_zero)));
      [|intros Vlr_q; apply triple_ret; trivial].
    intros s [Hs Hno].
    pose proof (plainEwald_solver_stable P (HP (orb_true_r _)) s Hs) as Hkeep.
    destruct (plainEwald ext s); [|exact I|exact I]. split; assumption.
  - apply triple_ret. trivial.
Qed.

End Uncorrected.

Lemma solver_stable_energies (q : real) :
  solver_stable (fun r => Vcorr_q r = q /\ Vcorr_lj r = r_zero).
Proof. intros r Hr. repeat split; intros; apply Hr. Qed.

(** C8, as the code has it.  In a defined execution with at least one
    correction thread, [ewald_LRcorrection] is called if and only if the
    long-range branch is taken ([doLongRange]: among others
    [stepWork.computeNonbondedForces] is set), the interaction type passes
    [EEL_PME_EWALD] or [EVDW_PME], and the run configuration has an Ewald
    surface contribution.  When the branch is taken and the surface
    correction is not computed, it contributes exactly zero: the output was
    cleared (force.cpp:137), so the correction energy [Vcorr_q] that is
    merged is 0, or 0 plus the energy of the net-charge correction when that
    one is computed, which is then given the zero dV/dlambda and the zero
    virial; [Vcorr_lj] is 0; F_COUL_RECIP and F_LJ_RECIP are set to the energies of
    the solvers plus these; and when no net-charge correction and no solver
    is computed either, the whole output is zero: the zero matrix is added
    twice to the virial, 0 to both entries of [dvdl_lin], and F_LJ_RECIP is
    set to 0 + 0.  A correction that is not computed has no part in the
    outcome, whatever its routine would compute.  When the long-range branch
    is not taken, the state, accumulators included, is unchanged. *)
Theorem surface_correction_computed_iff (ext : Externals real gmx_pme_t) (cfg : Config)
    (s : State real gmx_pme_t) :
  (trace s = [] ->
   1 <= nthread_ewc cfg ->
   calculateLongRangeNonbondeds ext cfg s <> Undefined ->
   (LRcorrection_called (trace_of (calculateLongRangeNonbondeds ext cfg s))
    <-> doLongRange cfg && (EEL_PME_EWALD cfg || EVDW_PME cfg)
        && haveEwaldSurfaceContribution cfg = true))
  /\ (doLongRange cfg = true ->
      doSurfaceCorrection cfg = false ->
      forall s', calculateLongRangeNonbondeds ext cfg s = Returns tt s' ->
      exists out,
        ewc_t s' !! 0%nat = Some out
        /\ Vcorr_q out = Vcorr_q (uncorrected_output ext cfg)
        /\ Vcorr_lj out = r_zero
        /\ (exists V s1,
               longRangeCompute ext cfg s = Returns V s1
               /\ term s' F_COUL_RECIP = r_add (fst V) (Vcorr_q out)
               /\ term s' F_LJ_RECIP = r_add (snd V) (Vcorr_lj out))
        /\ (doChargeCorrection cfg = false -> Vcorr_q out = r_zero)
        /\ (doReciprocalPme cfg = false -> doPlainEwald cfg = false ->
            out = uncorrected_output ext cfg /\ term s' F_LJ_RECIP = r_add r_zero r_zero)
        /\ (doChargeCorrection cfg = false ->
            doReciprocalPme cfg = false -> doPlainEwald cfg = false ->
            out = zero_output
            /\ virial_ s' = m_add (m_add (virial_ s) clear_mat) clear_mat
            /\ ea_get (dvdl_lin s') Coul = r_add (ea_get (dvdl_lin s) Coul) r_zero
            /\ ea_get (dvdl_lin s') Vdw = r_add (ea_get (dvdl_lin s) Vdw) r_zero))
  /\ (doSurfaceCorrection cfg = false ->
      forall f, calculateLongRangeNonbondeds (with_ewald_LRcorrection f ext) cfg s
                = calculateLongRangeNonbondeds ext cfg s)
  /\ (doChargeCorrection cfg = false ->
      forall f, calculateLongRangeNonbondeds (with_ewald_charge_correction f ext) cfg s
                = calculateLongRangeNonbondeds ext cfg s)
  /\ (doLongRange cfg = false -> calculateLongRangeNonbondeds ext cfg s = Returns tt s).
Proof.
  split; [|split; [|split; [|split]]].
  - intros Htr Hn Hdef. fold (doSurfaceCorrection cfg). split.
    + intros Hcalled. destruct (doSurfaceCorrection cfg) eqn:Hc; [reflexivity|]. exfalso.
      pose proof (calculateLongRangeNonbondeds_outcome ext cfg _ _ (Admits_not_called cfg) s)
        as Hrun.
      destruct (calculateLongRangeNonbondeds ext cfg s) as [[] s'|c s'|]; cbn in *.
      * destruct Hrun as (evs & Heq & Hevs). rewrite Heq, Htr in Hcalled.
        exact (Hevs Hc Hcalled).
      * destruct Hrun as (_ & _ & evs & Heq & Hevs). rewrite Heq, Htr in Hcalled.
        exact (Hevs Hc Hcalled).
      * exact (Hdef eq_refl).
    + intros Hc. pose proof (calculateLongRangeNonbondeds_called ext cfg Hc Hn s) as Hrun.
      destruct (calculateLongRangeNonbondeds ext cfg s) as [[] s'|c s'|]; cbn in *.
      * destruct Hrun as [rec Hin]. exists 0, rec. exact Hin.
      * destruct Hrun as [rec Hin]. exists 0, rec. exact Hin.
      * destruct (Hdef eq_refl).
  - intros Hlr Hsurf s' Hrun. unfold calculateLongRangeNonbondeds in Hrun.
    rewrite Hlr in Hrun. unfold bind in Hrun.
    assert (Vcorr_lj (uncorrected_output ext cfg) = r_zero) as Hlj0.
    { unfold uncorrected_output, charge_corrected_output.
      destruct (doChargeCorrection cfg); [|reflexivity].
      destruct (ewald_charge_correction ext r_zero clear_mat) as [[e d] v]. reflexivity. }
    pose proof (longRangeCompute_uncorrected ext cfg _ Hlr Hsurf
                  (fun _ => solver_stable_energies (Vcorr_q (uncorrected_output ext cfg)))
                  (conj eq_refl Hlj0) s I) as Hen.
    pose proof (longRangeCompute_outcome ext cfg _ _ (Admits_any cfg) s Hlr) as Hkept.
    destruct (doReciprocalPme cfg || doPlainEwald cfg) eqn:Hsolver.
    + destruct (longRangeCompute ext cfg s) as [[Vlr_q Vlr_lj] s1|c s1|]; [|discriminate..].
      destruct Hen as [(out & H0 & Hq & Hlj) _].
      rewrite (longRangeMerge_returns _ _ _ out H0) in Hrun. injection Hrun as <-.
      exists out. split; [exact H0|]. split; [exact Hq|]. split; [exact Hlj|].
      split; [exists (Vlr_q, Vlr_lj), s1; repeat split|].
      apply orb_true_iff in Hsolver.
      split; [|split; intros; destruct Hsolver; congruence].
      intros Hno. rewrite Hq. unfold uncorrected_output. rewrite Hno. reflexivity.
    + assert (doReciprocalPme cfg || doPlainEwald cfg = true ->
              solver_stable (eq (uncorrected_output ext cfg))) as Hnone.
      { intros Habs. rewrite Hsolver in Habs. discriminate Habs. }
      pose proof (longRangeCompute_uncorrected ext cfg (eq (uncorrected_output ext cfg))
                    Hlr Hsurf Hnone eq_refl s I) as Hall.
      apply orb_false_iff in Hsolver as [Hrecip Hewald].
      destruct (longRangeCompute ext cfg s) as [[Vlr_q Vlr_lj] s1|c s1|]; [|discriminate..].
      destruct Hen as [(out & H0 & Hq & Hlj) _].
      destruct Hall as [(out' & H0' & <-) HV]. assert (out = uncorrected_output ext cfg)
        as Hout by congruence.
      destruct Hkept as ((Hv & Hd & Ht) & _). cbn in HV. specialize (HV Hrecip). subst Vlr_lj.
      rewrite (longRangeMerge_returns _ _ _ out H0) in Hrun. injection Hrun as <-.
      exists out. split; [exact H0|]. split; [exact Hq|]. split; [exact Hlj|].
      split; [exists (Vlr_q, r_zero), s1; repeat split|].
      split; [|split].
      * intros Hno. rewrite Hq. unfold uncorrected_output. rewrite Hno. reflexivity.
      * intros _ _. split; [exact Hout|]. cbn. rewrite Hlj. reflexivity.
      * intros Hno _ _. unfold uncorrected_output in Hout. rewrite Hno in Hout.
        subst out. cbn. rewrite Hv, Hd. repeat split.
  - intros Hc f. apply calculateLongRangeNonbondeds_without_LRcorrection. exact Hc.
  - intros Hc f. apply calculateLongRangeNonbondeds_without_charge_correction. exact Hc.
  - intros Hlr. unfold calculateLongRangeNonbondeds. rewrite Hlr. reflexivity.
Qed.

(** ** What an execution leaves untouched *)

(** Closes [unchanged_but pme table forces s0 s'] for a state [s'] written
    out in terms of a state [s] of which [Hs] says the same. *)
Ltac unchanged Hs :=
  let Hp := fresh "Hp" in
  let Ht := fresh "Ht" in
  let Hf := fresh "Hf" in
  let Hflag := fresh "Hflag" in
  destruct Hs as (Hp & Ht & Hf);
  repeat split; intros Hflag; cbn;
  first [apply Hp; exact Hflag | apply Ht; exact Hflag | apply Hf; exact Hflag | congruence].

Section Footprint.

Variable ext : Externals real gmx_pme_t.
Variable cfg : Config.
Variable s0 : State real gmx_pme_t.
Variables pme table forces : bool.

Lemma ewaldCorrectionThread_footprint (nthreads t : Z) :
  forces = true ->
  triple (unchanged_but pme table forces s0) (ewaldCorrectionThread ext nthreads t)
    (fun _ => unchanged_but pme table forces s0) (fun _ => unchanged_but pme table forces s0).
Proof.
  intros Hforces s Hs.
  destruct (ewc_t s !! Z.to_nat t) as [r|] eqn:Hr.
  2:{ rewrite (ewaldCorrectionThread_undefined ext nthreads t s Hr). exact I. }
  rewrite (ewaldCorrectionThread_run ext nthreads t s r Hr).
  destruct (ewald_LRcorrection ext _ _ _ _ _) as [[[f Vcorr] dvdlambda]|]; unchanged Hs.
Qed.

Lemma for_threads_footprint (nthreads : Z) (ts : list Z) :
  forces = true ->
  triple (unchanged_but pme table forces s0) (for_threads (ewaldCorrectionThread ext nthreads) ts)
    (fun _ => unchanged_but pme table forces s0) (fun _ => unchanged_but pme table forces s0).
Proof.
  intros Hforces. induction ts as [|t ts IH]; cbn [for_threads].
  - apply triple_invariant_ret.
  - apply triple_invariant_bind;
      [apply ewaldCorrectionThread_footprint, Hforces | intros _; exact IH].
Qed.

Lemma ewaldSurfaceCorrection_footprint :
  forces = true ->
  triple (unchanged_but pme table forces s0) (ewaldSurfaceCorrection ext cfg)
    (fun _ => unchanged_but pme table forces s0) (fun _ => unchanged_but pme table forces s0).
Proof.
  intros Hforces. unfold ewaldSurfaceCorrection.
  apply triple_invariant_bind; [intros s Hs; exact Hs|]. intros _.
  apply triple_invariant_bind; [apply for_threads_footprint, Hforces|]. intros _.
  apply triple_invariant_bind; [|intros _ s Hs; exact Hs].
  apply triple_if; intros _; [|apply triple_invariant_ret].
  intros s Hs. destruct (reduceEwaldThreadOuput _ _); [exact Hs | exact I].
Qed.

Lemma netChargeCorrection_footprint :
  triple (unchanged_but pme table forces s0) (netChargeCorrection ext)
    (fun _ => unchanged_but pme table forces s0) (fun _ => unchanged_but pme table forces s0).
Proof.
  intros s Hs. unfold netChargeCorrection. run_monad.
  destruct (ewc_t s !! Z.to_nat 0) as [r|]; cbn; [|exact I].
  destruct (ewald_charge_correction ext _ _) as [[enercorr dvdlambda] vir]. run_monad.
  destruct (ewc_t s !! Z.to_nat 0) as [r'|]; cbn; [|exact I].
  exact Hs.
Qed.

Lemma reciprocalPme_footprint (Vlr_q Vlr_lj : real) :
  pme = true -> forces = true ->
  triple (unchanged_but pme table forces s0) (reciprocalPme ext Vlr_q Vlr_lj)
    (fun _ => unchanged_but pme table forces s0) (fun _ => unchanged_but pme table forces s0).
Proof.
  intros Hpme Hforces s Hs. unfold reciprocalPme. run_monad.
  destruct (ewc_t s !! Z.to_nat 0) as [r|]; cbn; [|exact I].
  destruct (gmx_pme_do ext _) as [status out]. run_monad.
  destruct (ewc_t s !! Z.to_nat 0) as [r'|]; cbn; [|exact I].
  destruct (negb (status =? 0)); cbn; unchanged Hs.
Qed.

Lemma pmeOnCpu_footprint (Vlr_q Vlr_lj : real) :
  ((n_tpi cfg =? 0) || stateChanged cfg = true -> pme = true /\ forces = true) ->
  ((0 <? n_tpi cfg) = true -> pme = true) ->
  triple (unchanged_but pme table forces s0) (pmeOnCpu ext cfg Vlr_q Vlr_lj)
    (fun _ => unchanged_but pme table forces s0) (fun _ => unchanged_but pme table forces s0).
Proof.
  intros Hdo Htpi. unfold pmeOnCpu.
  apply triple_invariant_bind.
  { apply triple_if; intros _; [intros s Hs; exact Hs | apply triple_invariant_ret]. }
  intros _. apply triple_invariant_bind.
  { apply triple_if; intros Hcond; [|apply triple_invariant_ret].
    apply reciprocalPme_footprint; apply Hdo, Hcond. }
  intros V. apply triple_if; intros Hcond; [|apply triple_invariant_ret].
  intros s Hs. run_monad. destruct (gmx_pme_calc_energy ext (pmedata s)) as [e p].
  run_monad. specialize (Htpi Hcond). unchanged Hs.
Qed.

Lemma plainEwald_footprint :
  table = true -> forces = true ->
  triple (unchanged_but pme table forces s0) (plainEwald ext)
    (fun _ => unchanged_but pme table forces s0) (fun _ => unchanged_but pme table forces s0).
Proof.
  intros Htable Hforces s Hs. unfold plainEwald. run_monad.
  destruct (ewc_t s !! Z.to_nat 0) as [r|]; cbn; [|exact I].
  destruct (do_ewald ext _ _ _ _) as [[[[Vlr_q f] lrvir] dvdlambda] et]. run_monad.
  destruct (ewc_t s !! Z.to_nat 0) as [r'|]; cbn; [|exact I].
  unchanged Hs.
Qed.

End Footprint.

Lemma longRangeCompute_footprint (ext : Externals real gmx_pme_t) (cfg : Config)
    (s0 : State real gmx_pme_t) :
  doLongRange cfg = true ->
  triple
    (unchanged_but (doReciprocalPme cfg || doPmeCalcEnergy cfg) (doPlainEwald cfg)
       (doSurfaceCorrection cfg || doReciprocalPme cfg || doPlainEwald cfg) s0)
    (longRangeCompute ext cfg)
    (fun _ =>
       unchanged_but (doReciprocalPme cfg || doPmeCalcEnergy cfg) (doPlainEwald cfg)
         (doSurfaceCorrection cfg || doReciprocalPme cfg || doPlainEwald cfg) s0)
    (fun _ =>
       unchanged_but (doReciprocalPme cfg || doPmeCalcEnergy cfg) (doPlainEwald cfg)
         (doSurfaceCorrection cfg || doReciprocalPme cfg || doPlainEwald cfg) s0).
Proof.
  intros Hlr. unfold longRangeCompute. cbv zeta.
  unfold doSurfaceCorrection, doReciprocalPme, doPmeCalcEnergy, doPlainEwald. rewrite Hlr.
  cbn [andb].
  apply triple_invariant_bind.
  { intros s Hs. unfold update_ewc_t. destruct (ewc_t s !! Z.to_nat 0); [exact Hs | exact I]. }
  intros _. apply triple_invariant_bind.
  { apply triple_if; intros Hgate; [|apply triple_invariant_ret]. rewrite Hgate. cbn [andb].
    apply triple_invariant_bind.
    { apply triple_if; intros Hsurf; [|apply triple_invariant_ret]. rewrite Hsurf.
      apply ewaldSurfaceCorrection_footprint. reflexivity. }
    intros _. apply triple_invariant_bind.
    { apply triple_if; intros _; [|apply triple_invariant_ret].
      apply netChargeCorrection_footprint. }
    intros _. apply triple_if; intros Hcpu; [|apply triple_invariant_ret]. rewrite Hcpu.
    cbn [andb]. apply pmeOnCpu_footprint.
    - intros Hdo. rewrite Hdo, orb_true_r. split; reflexivity.
    - intros Htpi. rewrite Htpi. apply orb_true_r. }
  intros V. apply triple_if; intros Hewald; [|apply triple_invariant_ret]. rewrite Hewald.
  apply triple_invariant_bind; [|intros Vlr_q; apply triple_invariant_ret].
  apply plainEwald_footprint; [reflexivity | apply orb_true_r].
Qed.

(** X10.  What an execution leaves untouched.  The PME data [fr->pmedata]
    is written only if [gmx_pme_do] or [gmx_pme_calc_energy] is called, the
    Ewald table only if [do_ewald] is, the forces only if
    [ewald_LRcorrection], [gmx_pme_do] or [do_ewald] is; the array of
    per-thread records keeps its length; and of the energy terms only
    F_COUL_RECIP and F_LJ_RECIP are written. *)
Theorem calculateLongRangeNonbondeds_footprint (ext : Externals real gmx_pme_t) (cfg : Config)
    (s : State real gmx_pme_t) :
  match calculateLongRangeNonbondeds ext cfg s with
  | Returns _ s' =>
      unchanged_but (doReciprocalPme cfg || doPmeCalcEnergy cfg) (doPlainEwald cfg)
                    (doSurfaceCorrection cfg || doReciprocalPme cfg || doPlainEwald cfg) s s'
      /\ length (ewc_t s') = length (ewc_t s)
      /\ forall k, k <> F_COUL_RECIP -> k <> F_LJ_RECIP -> term s' k = term s k
  | Fatal _ s' =>
      unchanged_but (doReciprocalPme cfg || doPmeCalcEnergy cfg) (doPlainEwald cfg)
                    (doSurfaceCorrection cfg || doReciprocalPme cfg || doPlainEwald cfg) s s'
      /\ length (ewc_t s') = length (ewc_t s)
  | Undefined => True
  end.
Proof.
  unfold calculateLongRangeNonbondeds. destruct (doLongRange cfg) eqn:Hlr.
  - pose proof (longRangeCompute_footprint ext cfg s Hlr s) as Hfp.
    pose proof (longRangeCompute_outcome ext cfg _ _ (Admits_any cfg) s Hlr) as Hkept.
    unfold bind. destruct (longRangeCompute ext cfg s) as [[Vlr_q Vlr_lj] s1|c s1|];
      [| |exact I].
    + destruct Hkept as ((_ & _ & Ht) & Hlen & _).
      destruct (ewc_t s1 !! 0%nat) as [out|] eqn:H0.
      * rewrite (longRangeMerge_returns _ _ _ out H0).
        split; [apply Hfp; repeat split|]. split; [exact Hlen|].
        intros k Hq Hlj. cbn. unfold term_upd. rewrite Ht.
        destruct k; cbn; congruence.
      * rewrite (longRangeMerge_undefined _ _ _ H0). exact I.
    + destruct Hkept as (_ & Hlen & _). split; [apply Hfp; repeat split | exact Hlen].
  - cbn. repeat split.
Qed.


(** * The parallel loop under a schedule *)

Lemma schedule_NoDup (cfg : Config) (order : list Z) : schedule cfg order -> NoDup order.
Proof. intros Hs. unfold schedule in Hs. rewrite Hs. apply NoDup_seqZ. Qed.

Lemma schedule_range (cfg : Config) (order : list Z) (t : Z) :
  schedule cfg order -> In t order -> 0 <= t < nthread_ewc cfg.
Proof.
  intros Hs Hin. apply (Permutation_in _ Hs) in Hin.
  apply list_elem_of_In, elem_of_seqZ in Hin. lia.
Qed.



Lemma scheduled_before_cons_ne (t t' : Z) (order : list Z) :
  t' <> t -> scheduled_before t (t' :: order) = t' :: scheduled_before t order.
Proof. intros Hne. cbn. destruct (Z.eqb_spec t' t); [contradiction | reflexivity]. Qed.

Lemma scheduled_before_cons_eq (t : Z) (order : list Z) :
  scheduled_before t (t :: order) = [].
Proof. cbn. rewrite Z.eqb_refl. reflexivity. Qed.

Lemma scheduled_before_In (t t' : Z) (order : list Z) :
  In t' (scheduled_before t order) -> In t' order.
Proof.
  induction order as [|a order IH]; cbn; [trivial|].
  destruct (a =? t); cbn; [intros [] | intros [->|Hin]; [left; reflexivity | right; apply IH, Hin]].
Qed.

Lemma scheduled_before_NoDup (t : Z) (order : list Z) :
  NoDup order -> NoDup (scheduled_before t order ++ [t]).
Proof.
  induction order as [|a order IH]; intros Hnd.
  - cbn. apply NoDup_singleton.
  - apply NoDup_cons in Hnd as [Hnotin Hnd]. cbn.
    destruct (Z.eqb_spec a t) as [->|Hne]; [apply NoDup_singleton|].
    cbn. apply NoDup_cons. split; [|apply IH, Hnd].
    intros Hin. apply list_elem_of_In, in_app_or in Hin as [Hin|[Heq|[]]].
    + apply Hnotin, list_elem_of_In, (scheduled_before_In t), Hin.
    + congruence.
Qed.

(** The threads that call in an execution that returns are those of the
    schedule. *)
Lemma LRcorrection_threads_calls_in (cfg : Config) (order : list Z) :
  LRcorrection_threads (calls_in order cfg)
  = if doSurfaceCorrection cfg then order else [].
Proof.
  unfold calls_in, calls_before_pme_in, surface_calls_in, LRcorrection_threads.
  assert (forall l : list Z,
             omap LRcorrection_thread
                  (map (fun t => ewald_LRcorrection_called t (zero_output (real := real))) l)
             = l) as Hmap.
  { induction l as [|a l IH]; cbn; [reflexivity | rewrite IH; reflexivity]. }
  destruct (doSurfaceCorrection cfg), (doChargeCorrection cfg), (doReciprocalPme cfg),
    (doPmeCalcEnergy cfg), (doPlainEwald cfg);
    cbn; rewrite ?omap_app, ?Hmap; cbn; rewrite ?app_nil_r; reflexivity.
Qed.

(** ** The calls under a schedule *)

Section ScheduledCalls.

Variable ext : Externals real gmx_pme_t.
Variable cfg : Config.

(** The threads of [order], one after the other: each calls
    [ewald_LRcorrection] on a zeroed record, up to the first that throws. *)
Lemma for_threads_calls_in (nthreads : Z) (order : list Z) :
  forall tr : list (Event real),
    NoDup order ->
    (forall t, In t order -> 0 <= t) ->
    triple (fun s => trace s = tr /\ (In 0 order -> ewc_t s !! 0%nat = Some zero_output))
      (for_threads (ewaldCorrectionThread ext nthreads) order)
      (fun _ s' =>
         trace s' = tr ++ map (fun t => ewald_LRcorrection_called t zero_output) order)
      (fun c s' =>
         exists t, c = ExceptionInThread t /\ In t order
                   /\ trace s' = tr ++ map (fun t => ewald_LRcorrection_called t zero_output)
                                           (scheduled_before t order ++ [t])
                                   ++ [ewald_LRcorrection_threw t]).
Proof.
  induction order as [|t order IH]; intros tr Hnd Hpos s [Htr H0].
  - cbn. rewrite app_nil_r. exact Htr.
  - cbn [for_threads]. unfold bind.
    destruct (ewc_t s !! Z.to_nat t) as [r|] eqn:Hr.
    2:{ rewrite (ewaldCorrectionThread_undefined ext nthreads t s Hr). exact I. }
    rewrite (ewaldCorrectionThread_run ext nthreads t s r Hr).
    assert ((if 0 <? t then zero_output else r) = zero_output) as ->.
    { destruct (Z.ltb_spec 0 t) as [Hlt|Hge]; [reflexivity|].
      assert (t = 0) as -> by (specialize (Hpos t (or_introl eq_refl)); lia).
      change (Z.to_nat 0) with 0%nat in Hr.
      rewrite (H0 (or_introl eq_refl)) in Hr. congruence. }
    apply NoDup_cons in Hnd as [Hnotin Hnd].
    destruct (ewald_LRcorrection ext _ _ _ _ _) as [[[f Vcorr] dvdlambda]|].
    + match goal with
      | |- context [for_threads _ order ?s1] =>
          specialize (IH (tr ++ [ewald_LRcorrection_called t zero_output]) Hnd
                         (fun t' Hin => Hpos t' (or_intror Hin)) s1)
      end.
      lapply IH; [clear IH; intros IH|].
      2:{ split; [cbn; rewrite Htr; reflexivity|]. intros Hin0. cbn.
          rewrite list_lookup_insert_ne.
          - apply H0. right. exact Hin0.
          - intros Heq. apply Hnotin. apply list_elem_of_In.
            assert (t = 0) as -> by (specialize (Hpos t (or_introl eq_refl)); lia).
            exact Hin0. }
      destruct (for_threads _ _ _) as [[] s'|c s'|]; [| |exact I].
      * rewrite IH, <- app_assoc. reflexivity.
      * destruct IH as (t' & -> & Hin & Htr'). exists t'.
        split; [reflexivity|]. split; [right; exact Hin|].
        rewrite scheduled_before_cons_ne.
        -- rewrite Htr', <- app_assoc. reflexivity.
        -- intros ->. apply Hnotin, list_elem_of_In, Hin.
    + exists t. split; [reflexivity|]. split; [left; reflexivity|].
      rewrite scheduled_before_cons_eq, Htr, <- app_assoc. reflexivity.
Qed.

Lemma ewaldSurfaceCorrectionIn_calls (order : list Z) (tr : list (Event real)) :
  schedule cfg order ->
  triple (fun s => trace s = tr /\ ewc_t s !! 0%nat = Some zero_output)
    (ewaldSurfaceCorrectionIn ext order cfg)
    (fun _ s' => trace s' = tr ++ surface_calls_in order)
    (fun c s' =>
       exists t, c = ExceptionInThread t /\ 0 <= t < nthread_ewc cfg
                 /\ trace s' = tr ++ fatal_calls_in order cfg (ExceptionInThread t)).
Proof.
  intros Hsched. unfold ewaldSurfaceCorrectionIn.
  apply (triple_bind _ _ _
           (fun _ s => trace s = tr ++ [wallcycle_sub_start EwaldCorrection]
                       /\ ewc_t s !! 0%nat = Some zero_output)).
  { intros s [Htr H0]. cbn. rewrite Htr. split; [reflexivity | exact H0]. }
  intros _.
  apply (triple_bind _ _ _
           (fun _ s => trace s = tr ++ wallcycle_sub_start EwaldCorrection
                                       :: map (fun t => ewald_LRcorrection_called t zero_output)
                                              order)).
  { eapply triple_weaken.
    - apply (for_threads_calls_in (nthread_ewc cfg) order
               (tr ++ [wallcycle_sub_start EwaldCorrection]) (schedule_NoDup _ _ Hsched)).
      intros t Hin. apply (schedule_range cfg order t Hsched Hin).
    - intros s [Htr H0]. split; [exact Htr | intros _; exact H0].
    - intros [] s Htr. cbv beta in Htr. rewrite Htr, <- app_assoc. reflexivity.
    - intros c s (t & -> & Hin & Htr). exists t. split; [reflexivity|].
      split; [apply (schedule_range cfg order t Hsched Hin)|].
      rewrite Htr, <- app_assoc. reflexivity. }
  intros _.
  apply (triple_bind _ _ _
           (fun _ s => trace s = tr ++ wallcycle_sub_start EwaldCorrection
                                       :: map (fun t => ewald_LRcorrection_called t zero_output)
                                              order)).
  { apply triple_if; intros _; [|apply triple_ret; trivial].
    intros s Htr. destruct (reduceEwaldThreadOuput _ _); [exact Htr | exact I]. }
  intros _ s Htr. cbn. rewrite Htr, <- app_assoc. reflexivity.
Qed.

Lemma longRangeComputeIn_calls (order : list Z) (tr : list (Event real)) :
  schedule cfg order ->
  doLongRange cfg = true ->
  triple (fun s => trace s = tr) (longRangeComputeIn ext order cfg)
    (fun _ s' => trace s' = tr ++ calls_in order cfg)
    (fun c s' => fatal_reason cfg c /\ trace s' = tr ++ fatal_calls_in order cfg c).
Proof.
  intros Hsched Hlr. unfold longRangeComputeIn. cbv zeta.
  apply (triple_bind _ _ _
           (fun _ s => trace s = tr /\ ewc_t s !! 0%nat = Some zero_output)).
  { intros s Htr. unfold update_ewc_t.
    destruct (ewc_t s !! Z.to_nat 0) as [r|] eqn:Hr; [|exact I].
    split; [exact Htr|]. cbn. apply list_lookup_insert_eq. eapply lookup_lt_Some. exact Hr. }
  intros _.
  apply (triple_bind _ _ _
           (fun _ s => trace s = tr ++ calls_before_pme_in order cfg
                                   ++ (if doReciprocalPme cfg then pme_calls 0 else [])
                                   ++ (if doPmeCalcEnergy cfg
                                       then [gmx_pme_calc_energy_called] else []))).
  { apply triple_if; intros Hgate.
    - apply (triple_bind _ _ _
               (fun _ s => trace s = tr ++ (if doSurfaceCorrection cfg
                                            then surface_calls_in order else []))).
      { apply triple_if; intros Hsurf.
        - eapply triple_weaken;
            [apply (ewaldSurfaceCorrectionIn_calls order tr Hsched) | trivial | |].
          + intros [] s Htr. unfold doSurfaceCorrection. rewrite Hlr, Hgate, Hsurf. exact Htr.
          + intros c s (t & -> & Ht & Htr). split; [|exact Htr]. cbn.
            unfold doSurfaceCorrection. rewrite Hlr, Hgate, Hsurf. auto.
        - apply triple_ret. intros s [Htr _]. unfold doSurfaceCorrection.
          rewrite Hlr, Hgate, Hsurf, app_nil_r. exact Htr. }
      intros _.
      apply (triple_bind _ _ _ (fun _ s => trace s = tr ++ calls_before_pme_in order cfg)).
      { apply triple_if; intros Hcharge.
        - eapply triple_weaken;
            [apply (netChargeCorrection_calls ext
                      (tr ++ (if doSurfaceCorrection cfg then surface_calls_in order else [])))
            | trivial | | intros c s []].
          intros [] s Htr. cbv beta in Htr. rewrite Htr.
          unfold calls_before_pme_in, doChargeCorrection. rewrite Hlr, Hgate, Hcharge.
          rewrite <- app_assoc. reflexivity.
        - apply triple_ret. intros s Htr. rewrite Htr.
          unfold calls_before_pme_in, doChargeCorrection. rewrite Hlr, Hgate, Hcharge.
          cbn. rewrite app_nil_r. reflexivity. }
      intros _. apply triple_if; intros Hcpu.
      + eapply triple_weaken;
          [apply (pmeOnCpu_calls ext cfg _ _ (tr ++ calls_before_pme_in order cfg))
          | trivial | |].
        * intros V s Htr. cbv beta in Htr. rewrite Htr, <- app_assoc.
          unfold doReciprocalPme, doPmeCalcEnergy. rewrite Hlr, Hgate, Hcpu. reflexivity.
        * intros c s [(-> & Hnd & Hneg & Htr)|(status & -> & Hst & Hdo & Htr)].
          -- split; [|exact Htr]. cbn. rewrite Hlr, Hgate, Hcpu. auto.
          -- split; [|rewrite Htr, <- app_assoc; reflexivity].
             cbn. unfold doReciprocalPme. rewrite Hlr, Hgate, Hcpu, Hdo. auto.
      + apply triple_ret. intros s Htr. rewrite Htr.
        unfold doReciprocalPme, doPmeCalcEnergy. rewrite Hlr, Hgate, Hcpu. cbn.
        rewrite !app_nil_r. reflexivity.
    - apply triple_ret. intros s [Htr _]. rewrite Htr.
      unfold calls_before_pme_in, doSurfaceCorrection, doChargeCorrection, doReciprocalPme,
        doPmeCalcEnergy.
      rewrite Hlr, Hgate. cbn. rewrite !app_nil_r. reflexivity. }
  intros V. apply triple_if; intros Hewald.
  - apply (triple_bind _ _ _ (fun _ s => trace s = tr ++ calls_in order cfg));
      [|intros Vlr_q; apply triple_ret; trivial].
    eapply triple_weaken;
      [apply (plainEwald_calls ext
                (tr ++ calls_before_pme_in order cfg
                    ++ (if doReciprocalPme cfg then pme_calls 0 else [])
                    ++ (if doPmeCalcEnergy cfg then [gmx_pme_calc_energy_called] else [])))
      | trivial | | intros c s []].
    intros Vlr_q s Htr. cbv beta in Htr. rewrite Htr. unfold calls_in, doPlainEwald.
    rewrite Hlr, Hewald, <- !app_assoc. reflexivity.
  - apply triple_ret. intros s Htr. rewrite Htr. unfold calls_in, doPlainEwald.
    rewrite Hlr, Hewald. cbn. rewrite !app_nil_r. reflexivity.
Qed.

(** The calls of a whole execution under a schedule: the merge makes none. *)
Lemma calculateLongRangeNonbondedsIn_calls (order : list Z) (tr : list (Event real)) :
  schedule cfg order ->
  triple (fun s => trace s = tr) (calculateLongRangeNonbondedsIn ext order cfg)
    (fun _ s' => trace s' = tr ++ calls_in order cfg)
    (fun c s' => fatal_reason cfg c /\ trace s' = tr ++ fatal_calls_in order cfg c).
Proof.
  intros Hsched. unfold calculateLongRangeNonbondedsIn. apply triple_if; intros Hlr.
  - eapply triple_bind; [apply (longRangeComputeIn_calls order tr Hsched Hlr)|].
    intros V s Htr. destruct (ewc_t s !! 0%nat) as [out|] eqn:H0.
    + rewrite (longRangeMerge_returns _ _ _ out H0). exact Htr.
    + rewrite (longRangeMerge_undefined _ _ _ H0). exact I.
  - apply triple_ret. intros s Htr. rewrite Htr.
    unfold calls_in, calls_before_pme_in, doSurfaceCorrection, doChargeCorrection,
      doReciprocalPme, doPmeCalcEnergy, doPlainEwald.
    rewrite Hlr. cbn. rewrite app_nil_r. reflexivity.
Qed.

End ScheduledCalls.

(** ** Two executions that differ in the calls made so far *)





Section SameButTrace.

Variable ext : Externals real gmx_pme_t.
Variable cfg : Config.








End SameButTrace.

(** ** The outputs do not depend on the schedule *)

(** Folding over a list without duplicates does not depend on the order of
    the list when the steps of different elements commute. *)
Lemma fold_left_permutation {A B} (f : B -> A -> B) (P : A -> Prop) :
  (forall x a b, P a -> P b -> a <> b -> f (f x a) b = f (f x b) a) ->
  forall l1 l2, Permutation l1 l2 -> NoDup l1 -> Forall P l1 ->
                forall x, fold_left f l1 x = fold_left f l2 x.
Proof.
  intros Hcomm l1 l2 Hperm.
  induction Hperm as [|a l l' Hperm IH|a b l|l l' l'' H1 IH1 H2 IH2]; intros Hnd HP x.
  - reflexivity.
  - apply NoDup_cons in Hnd as [_ Hnd]. apply Forall_cons in HP as [_ HP].
    cbn. apply IH; assumption.
  - apply NoDup_cons in Hnd as [Hnotin _]. apply Forall_cons in HP as [Hb HP].
    apply Forall_cons in HP as [Ha _]. cbn. f_equal. apply Hcomm; [assumption..|].
    intros ->. apply Hnotin. left.
  - rewrite IH1 by assumption. apply IH2; rewrite <- H1; assumption.
Qed.

Section Schedules.

Variable ext : Externals real gmx_pme_t.
Variable nthreads : Z.
Hypothesis independent : threads_independent ext nthreads.

Lemma thread_effect_commute (lf : list (ewald_corr_thread_t real) * list (rvec real))
    (t t' : Z) :
  0 <= t < nthreads -> 0 <= t' < nthreads -> t <> t' ->
  thread_effect ext nthreads (thread_effect ext nthreads lf t) t'
  = thread_effect ext nthreads (thread_effect ext nthreads lf t') t.
Proof using independent.
  intros Ht Ht' Hne. destruct independent as [Hres Hforces]. unfold thread_effect.
  cbn [fst snd]. f_equal.
  - rewrite (Hres t' (LRcorrection_forces ext nthreads t (snd lf)) (snd lf) Ht').
    rewrite (Hres t (LRcorrection_forces ext nthreads t' (snd lf)) (snd lf) Ht).
    apply list_insert_insert_ne. lia.
  - symmetry. apply Hforces; assumption.
Qed.

(** The threads of [order], none of which throws: the records and the forces
    are as the threads' effects, one after the other, leave them. *)
Lemma for_threads_run (order : list Z) :
  forall s : State real gmx_pme_t,
    NoDup order ->
    (forall t, In t order -> 0 <= t /\ (Z.to_nat t < length (ewc_t s))%nat) ->
    (In 0 order -> ewc_t s !! 0%nat = Some zero_output) ->
    (forall t f, In t order -> LRcorrection_result ext nthreads t f <> None) ->
    for_threads (ewaldCorrectionThread ext nthreads) order s
    = Returns tt
        (mkState (fst (fold_left (thread_effect ext nthreads) order (ewc_t s, force_ s)))
                 (pmedata s) (ewald_table s)
                 (snd (fold_left (thread_effect ext nthreads) order (ewc_t s, force_ s)))
                 (virial_ s) (term s) (dvdl_lin s)
                 (trace s ++ map (fun t => ewald_LRcorrection_called t zero_output) order)).
Proof.
  induction order as [|t order IH]; intros s Hnd Hrange H0 Hok.
  - destruct s. cbn. rewrite app_nil_r. reflexivity.
  - cbn [for_threads fold_left map]. unfold bind.
    destruct (Hrange t (or_introl eq_refl)) as [Ht Hlen].
    destruct (lookup_lt_is_Some_2 (ewc_t s) (Z.to_nat t) Hlen) as [r Hr].
    rewrite (ewaldCorrectionThread_run ext nthreads t s r Hr).
    assert ((if 0 <? t then zero_output else r) = zero_output) as ->.
    { destruct (Z.ltb_spec 0 t) as [Hlt|Hge]; [reflexivity|].
      assert (t = 0) as -> by lia. change (Z.to_nat 0) with 0%nat in Hr.
      rewrite (H0 (or_introl eq_refl)) in Hr. congruence. }
    change (Vcorr_q zero_output) with (r_zero (real := real)).
    change (ea_get (dvdl zero_output) Coul) with (r_zero (real := real)).
    pose proof (Hok t (force_ s) (or_introl eq_refl)) as Hcall.
    unfold thread_effect at 2 4. unfold LRcorrection_result, LRcorrection_forces in Hcall |- *.
    cbn [fst snd].
    destruct (ewald_LRcorrection ext nthreads t (force_ s) r_zero r_zero)
      as [[[f Vcorr] dvdlambda]|] eqn:Hlr; [|destruct (Hcall eq_refl)].
    apply NoDup_cons in Hnd as [Hnotin Hnd].
    rewrite IH; [cbn; rewrite <- app_assoc; reflexivity | exact Hnd | | |].
    + intros t' Hin. cbn. rewrite length_insert. apply Hrange. right. exact Hin.
    + intros Hin0. cbn. rewrite list_lookup_insert_ne.
      * apply H0. right. exact Hin0.
      * intros Heq. apply Hnotin, list_elem_of_In.
        assert (t = 0) as -> by lia. exact Hin0.
    + intros t' f' Hin. apply Hok. right. exact Hin.
Qed.




(** The records and the forces the threads of [order] leave. *)
Lemma thread_effect_fold (f0 : list (rvec real)) (order : list Z) :
  forall (l : list (ewald_corr_thread_t real)) (f : list (rvec real)),
    NoDup order ->
    (forall t, In t order -> 0 <= t < nthreads /\ (Z.to_nat t < length l)%nat) ->
    length (fst (fold_left (thread_effect ext nthreads) order (l, f))) = length l
    /\ (forall t, In t order ->
                  fst (fold_left (thread_effect ext nthreads) order (l, f)) !! Z.to_nat t
                  = Some (thread_record (LRcorrection_result ext nthreads t f0)))
    /\ (forall j, (forall t, In t order -> Z.to_nat t <> j) ->
                  fst (fold_left (thread_effect ext nthreads) order (l, f)) !! j = l !! j)
    /\ snd (fold_left (thread_effect ext nthreads) order (l, f))
       = fold_left (fun f t => LRcorrection_forces ext nthreads t f) order f.
Proof using independent.
  destruct independent as [Hres _].
  induction order as [|t order IH]; intros l f Hnd Hrange.
  - cbn. repeat split. intros t [].
  - cbn [fold_left]. unfold thread_effect at 2 4 6 8. cbn [fst snd].
    apply NoDup_cons in Hnd as [Hnotin Hnd].
    destruct (Hrange t (or_introl eq_refl)) as [Ht Hlen].
    destruct (IH (<[Z.to_nat t := thread_record (LRcorrection_result ext nthreads t f)]> l)
                 (LRcorrection_forces ext nthreads t f) Hnd) as (Hl & Hin & Hout & Hf).
    { intros t' Hin. rewrite length_insert. apply Hrange. right. exact Hin. }
    rewrite length_insert in Hl. split; [exact Hl|]. split; [|split; [|exact Hf]].
    + intros t' [<-|Hin'].
      * rewrite Hout.
        -- rewrite list_lookup_insert_eq by exact Hlen. rewrite (Hres t f f0 Ht). reflexivity.
        -- intros t' Hin' Heq. apply Hnotin, list_elem_of_In.
           destruct (Hrange t' (or_intror Hin')) as [Ht' _].
           assert (t' = t) as <- by lia. exact Hin'.
      * apply Hin, Hin'.
    + intros j Hj. rewrite Hout by (intros t' Hin'; apply Hj; right; exact Hin').
      apply list_lookup_insert_ne. apply Hj. left. reflexivity.
Qed.

End Schedules.

Section ScheduleIndependence.

Variable ext : Externals real gmx_pme_t.
Variable cfg : Config.
Variables o1 o2 : list Z.
Hypothesis Ho1 : schedule cfg o1.
Hypothesis Ho2 : schedule cfg o2.
Hypothesis independent : threads_independent ext (nthread_ewc cfg).




End ScheduleIndependence.


(** X5.  The calls of an execution that returns, all of them and in their
    order, whatever the order in which the iterations of the parallel loop
    (force.cpp:147) are scheduled: with the surface term, the start of the
    sub-counter EwaldCorrection, the call of [ewald_LRcorrection] by each
    thread [0 .. nthread_ewc-1], once and on a zeroed record, the threads in
    the order of the schedule, and the stop of the sub-counter; with the
    net-charge correction, the call of [ewald_charge_correction], outside the
    loop over the threads; with reciprocal PME, the closing of the
    load-balance region, the start of the counter PmeMesh, the call of
    [gmx_pme_do], which returns 0, and the stop of the counter; with test
    particle insertion, the call of [gmx_pme_calc_energy]; with plain Ewald,
    the call of [do_ewald].  But for the order of the threads, the calls
    depend on the configuration only, not on the data nor on what the
    routines compute. *)
Theorem calls_of_a_returning_execution (ext : Externals real gmx_pme_t) (cfg : Config)
    (order : list Z) (s s' : State real gmx_pme_t) :
  schedule cfg order ->
  calculateLongRangeNonbondedsIn ext order cfg s = Returns tt s' ->
  trace s' = trace s ++ calls_in order cfg
  /\ Permutation (LRcorrection_threads (calls_in order cfg))
                 (if doSurfaceCorrection cfg then seqZ 0 (nthread_ewc cfg) else []).
Proof.
  intros Hs Hrun.
  pose proof (calculateLongRangeNonbondedsIn_calls ext cfg order (trace s) Hs s eq_refl)
    as Hcalls.
  rewrite Hrun in Hcalls. split; [exact Hcalls|].
  rewrite (LRcorrection_threads_calls_in cfg order). destruct (doSurfaceCorrection cfg).
  - exact Hs.
  - reflexivity.
Qed.

(** X6.  The calls of an execution that ends in a fatal error, and what the
    error tells, whatever the order in which the iterations of the parallel
    loop (force.cpp:147) are scheduled.  [ExceptionInThread t]: the surface
    term is computed, [t] is a thread of the team, some of the threads have
    made their calls, each once and thread [t] among them, nothing but these
    calls was made after the start of the sub-counter, which is left
    running.  [PmeError status]: every thread has made its call,
    [gmx_pme_do] was called and has returned [status], which is not 0; the
    counter PmeMesh was stopped before the error.  [AssertionFailed]:
    assertions are compiled in, [fr->n_tpi] is negative and [gmx_pme_do] was
    not called. *)
Theorem calls_of_a_fatal_execution (ext : Externals real gmx_pme_t) (cfg : Config)
    (order : list Z) (s s' : State real gmx_pme_t) (c : FatalCause) :
  schedule cfg order ->
  calculateLongRangeNonbondedsIn ext order cfg s = Fatal c s' ->
  fatal_reason cfg c
  /\ match c with
     | ExceptionInThread t =>
         exists evs, trace s' = trace s ++ evs /\ calls_until_throw cfg t evs
     | _ => trace s' = trace s ++ fatal_calls_in order cfg c
     end.
Proof.
  intros Hs Hrun.
  pose proof (calculateLongRangeNonbondedsIn_calls ext cfg order (trace s) Hs s eq_refl)
    as Hcalls.
  rewrite Hrun in Hcalls. destruct Hcalls as [Hreason Htrace]. split; [exact Hreason|].
  destruct c as [t| |]; try exact Htrace.
  exists (fatal_calls_in order cfg (ExceptionInThread t)). split; [exact Htrace|].
  exists (scheduled_before t order ++ [t]). destruct Hreason as [_ Ht].
  split; [apply scheduled_before_NoDup, (schedule_NoDup cfg), Hs|].
  split; [apply in_or_app; right; left; reflexivity|].
  split; [|reflexivity].
  intros t' Hin. apply in_app_or in Hin as [Hin|[<-|[]]]; [|exact Ht].
  apply (schedule_range cfg order t' Hs), (scheduled_before_In t), Hin.
Qed.

(** X11.  The surface correction, when no thread throws and the threads work
    on their own particles (force.cpp:158-162), whatever the order in which
    the iterations of the parallel loop (force.cpp:147) are scheduled: the
    block returns, the forces are those with the part of every thread added,
    and [ewaldOutput] holds in [Vcorr_q] and [dvdl[Coul]] the sums, over the
    threads in the order of their indices, of what the calls of
    [ewald_LRcorrection] left there. *)
Theorem ewaldSurfaceCorrection_sums (ext : Externals real gmx_pme_t) (cfg : Config)
    (order : list Z) (s : State real gmx_pme_t) :
  schedule cfg order ->
  threads_independent ext (nthread_ewc cfg) ->
  ewc_t s !! 0%nat = Some zero_output ->
  1 <= nthread_ewc cfg <= Z.of_nat (length (ewc_t s)) ->
  (forall t, 0 <= t < nthread_ewc cfg ->
             LRcorrection_result ext (nthread_ewc cfg) t (force_ s) <> None) ->
  exists s' out,
    ewaldSurfaceCorrectionIn ext order cfg s = Returns tt s'
    /\ force_ s' = corrected_forces ext (nthread_ewc cfg) (force_ s)
    /\ ewc_t s' !! 0%nat = Some out
    /\ sum_over_threads Vcorr_q (thread_records ext (nthread_ewc cfg) (force_ s))
       = Some (Vcorr_q out)
    /\ sum_over_threads (fun r => ea_get (dvdl r) Coul)
         (thread_records ext (nthread_ewc cfg) (force_ s))
       = Some (ea_get (dvdl out) Coul).
Proof.
  intros Hs Hind H0 Hn Hok.
  set (n := nthread_ewc cfg) in *.
  set (s0 := set_trace (trace s ++ [wallcycle_sub_start EwaldCorrection]) s).
  pose proof (schedule_NoDup cfg order Hs) as Hnd.
  assert (forall t, In t order -> 0 <= t < n /\ (Z.to_nat t < length (ewc_t s))%nat) as Hrange.
  { intros t Hin. pose proof (schedule_range cfg order t Hs Hin). fold n in H1. split; lia. }
  assert (for_threads (ewaldCorrectionThread ext n) order s0
          = Returns tt
              (mkState (fst (fold_left (thread_effect ext n) order (ewc_t s, force_ s)))
                       (pmedata s) (ewald_table s)
                       (snd (fold_left (thread_effect ext n) order (ewc_t s, force_ s)))
                       (virial_ s) (term s) (dvdl_lin s)
                       (trace s0
                        ++ map (fun t => ewald_LRcorrection_called t zero_output) order)))
    as Hrun.
  { apply (for_threads_run ext n order s0 Hnd).
    - intros t Hin. destruct (Hrange t Hin). split; [lia | assumption].
    - intros _. exact H0.
    - intros t f Hin. destruct Hind as [Hres _].
      rewrite (Hres t f (force_ s) (proj1 (Hrange t Hin))). apply Hok, Hrange, Hin. }
  destruct (thread_effect_fold ext n Hind (force_ s) order (ewc_t s) (force_ s) Hnd Hrange)
    as (Hl & Hin & _ & Hf).
  assert (snd (fold_left (thread_effect ext n) order (ewc_t s, force_ s))
          = corrected_forces ext n (force_ s)) as Hforces.
  { rewrite (fold_left_permutation (thread_effect ext n) (fun t => 0 <= t < n)
               (fun x a b Ha Hb Hne => thread_effect_commute ext n Hind x a b Ha Hb Hne)
               order (seqZ 0 n) Hs Hnd).
    - destruct (thread_effect_fold ext n Hind (force_ s) (seqZ 0 n) (ewc_t s) (force_ s))
        as (_ & _ & _ & Hf').
      + apply NoDup_seqZ.
      + intros t Hin'. apply list_elem_of_In, elem_of_seqZ in Hin'. split; lia.
      + exact Hf'.
    - apply Forall_forall. intros t Hin'. apply Hrange, list_elem_of_In, Hin'. }
  set (l1 := fst (fold_left (thread_effect ext n) order (ewc_t s, force_ s))) in *.
  assert (take (Z.to_nat n) l1 = thread_records ext n (force_ s)) as Htake.
  { apply list_eq. intros i. unfold thread_records.
    destruct (decide (i < Z.to_nat n)%nat) as [Hi|Hi].
    - rewrite lookup_take_lt by exact Hi. rewrite list_lookup_fmap.
      rewrite lookup_seqZ_lt by lia. cbn. rewrite <- (Nat2Z.id i) at 1. apply Hin.
      apply (Permutation_in _ (Permutation_sym Hs)), list_elem_of_In, elem_of_seqZ. lia.
    - rewrite lookup_take_ge by lia. rewrite list_lookup_fmap.
      rewrite lookup_seqZ_ge by lia. reflexivity. }
  destruct l1 as [|dest rest] eqn:Hewc; [cbn in Hl; lia|].
  unfold ewaldSurfaceCorrectionIn, bind. cbv [emit modify]. fold n. fold s0. rewrite Hrun.
  destruct (Z.ltb_spec 1 n) as [Hgt|Hle].
  - cbn [ewc_t]. rewrite reduce_cons by (cbn in Hl |- *; lia).
    eexists. eexists. split; [reflexivity|]. split; [exact Hforces|]. split; [reflexivity|].
    rewrite <- Htake. split.
    + apply sum_over_threads_fold; [lia | reflexivity].
    + apply sum_over_threads_fold; [lia | reflexivity].
  - assert (n = 1) as Hone by lia.
    eexists. exists dest.
    split; [reflexivity|]. split; [exact Hforces|]. split; [reflexivity|].
    rewrite <- Htake, Hone. split; reflexivity.
Qed.

End Properties.

(** * Concrete executions *)

(** Proves a membership [In e l] in a list written out. *)
Ltac in_list := vm_compute; repeat first [left; reflexivity | right].

(** The sums of C2 on three records: 9 + 8 + 7 = 24, and so on. *)
Lemma reduceEwaldThreadOuput_sums_witness :
  1 <= 3
  /\ 3 <= Z.of_nat (length [sample_output 9; sample_output 8; sample_output 7])
  /\ exists (ewc' : list (ewald_corr_thread_t float)) (dest : ewald_corr_thread_t float),
       reduceEwaldThreadOuput 3 [sample_output 9; sample_output 8; sample_output 7] = Some ewc'
       /\ ewc' !! 0%nat = Some dest
       /\ Vcorr_q dest = 24%float
       /\ Vcorr_lj dest = 27%float
       /\ sum_over_threads Vcorr_q [sample_output 9; sample_output 8; sample_output 7]
          = Some (Vcorr_q dest).
Proof.
  split; [lia|]. split; [cbn; lia|].
  destruct (reduceEwaldThreadOuput_sums (real := float) 3
              [sample_output 9; sample_output 8; sample_output 7]
              ltac:(lia) ltac:(cbn; lia))
    as (ewc' & dest & Hred & H0 & Hq & Hlj & _).
  exists ewc', dest. split; [exact Hred|]. split; [exact H0|].
  vm_compute in Hq, Hlj. injection Hq as Hq. injection Hlj as Hlj.
  split; [symmetry; exact Hq|]. split; [symmetry; exact Hlj|].
  vm_compute. rewrite <- Hq. reflexivity.
Defined.

Lemma reduceEwaldThreadOuput_frame_witness :
  1 <= 3
  /\ 3 <= Z.of_nat (length [sample_output 9; sample_output 8; sample_output 7])
  /\ exists ewc' : list (ewald_corr_thread_t float),
       reduceEwaldThreadOuput 3 [sample_output 9; sample_output 8; sample_output 7] = Some ewc'
       /\ ewc' !! 1%nat = Some (sample_output 8)
       /\ ewc' !! 2%nat = Some (sample_output 7).
Proof.
  split; [lia|]. split; [cbn; lia|].
  destruct (reduceEwaldThreadOuput_frame (real := float) 3
              [sample_output 9; sample_output 8; sample_output 7]
              ltac:(lia) ltac:(cbn; lia))
    as (ewc' & Hred & _ & Hkept).
  exists ewc'. split; [exact Hred|].
  split; [apply (Hkept 1%nat); lia | apply (Hkept 2%nat); lia].
Defined.

(** The merge of C1 on the sample: the Coulomb reciprocal term is 2 + 4. *)
Lemma calculateLongRangeNonbondeds_merge_witness :
  doLongRange sample_cfg = true
  /\ calculateLongRangeNonbondeds (sample_ext (-1) 0) sample_cfg sample_state
     = Returns tt sample_final
  /\ term sample_final F_COUL_RECIP = 6%float
  /\ exists (Vlr_q Vlr_lj : float) (ewaldOutput : ewald_corr_thread_t float),
       ewc_t sample_final !! 0%nat = Some ewaldOutput
       /\ term sample_final F_COUL_RECIP = r_add Vlr_q (Vcorr_q ewaldOutput)
       /\ term sample_final F_LJ_RECIP = r_add Vlr_lj (Vcorr_lj ewaldOutput)
       /\ virial_ sample_final
          = m_add (m_add (virial_ sample_state) (vir_q ewaldOutput)) (vir_lj ewaldOutput).
Proof.
  assert (calculateLongRangeNonbondeds (sample_ext (-1) 0) sample_cfg sample_state
          = Returns tt sample_final) as Hrun by (vm_compute; reflexivity).
  split; [reflexivity|]. split; [exact Hrun|]. split; [vm_compute; reflexivity|].
  destruct (calculateLongRangeNonbondeds_merge (sample_ext (-1) 0) sample_cfg
              sample_state sample_final eq_refl Hrun)
    as (Vlr_q & Vlr_lj & s1 & out & _ & _ & H0 & Hq & Hlj & Hvir & _).
  exists Vlr_q, Vlr_lj, out. repeat split; assumption.
Defined.

(** C5 on the sample: thread 2 finds its record cleared, although the
    initial state holds [sample_output 7] there. *)
Lemma records_cleared_before_use_witness :
  trace sample_state = []
  /\ In (ewald_LRcorrection_called 2 zero_output)
        (trace_of (calculateLongRangeNonbondeds (sample_ext (-1) 0) sample_cfg sample_state))
  /\ 0 <= 2 < nthread_ewc sample_cfg
  /\ Vcorr_q (zero_output (real := float)) = r_zero.
Proof.
  assert (In (ewald_LRcorrection_called 2 zero_output)
            (trace_of (calculateLongRangeNonbondeds (sample_ext (-1) 0) sample_cfg sample_state)))
    as Hin by in_list.
  split; [reflexivity|]. split; [exact Hin|].
  destruct (records_cleared_before_use (sample_ext (-1) 0) sample_cfg sample_state
              2 zero_output eq_refl Hin)
    as (Ht & Hq & _).
  split; [exact Ht | exact Hq].
Defined.

(** C6 on the sample: the calls before and after the reciprocal solver's. *)
Lemma closeAfterForceComputationCpu_before_gmx_pme_do_witness :
  trace sample_state = []
  /\ trace_of (calculateLongRangeNonbondeds (sample_ext (-1) 0) sample_cfg sample_state)
     = [wallcycle_sub_start EwaldCorrection;
        ewald_LRcorrection_called 0 zero_output;
        ewald_LRcorrection_called 1 zero_output;
        ewald_LRcorrection_called 2 zero_output;
        wallcycle_sub_stop EwaldCorrection;
        ewald_charge_correction_called;
        closeAfterForceComputationCpu;
        wallcycle_start PmeMesh]
       ++ gmx_pme_do_called :: [gmx_pme_do_returned 0; wallcycle_stop PmeMesh]
  /\ In (closeAfterForceComputationCpu (real := float))
        [wallcycle_sub_start EwaldCorrection;
         ewald_LRcorrection_called 0 zero_output;
         ewald_LRcorrection_called 1 zero_output;
         ewald_LRcorrection_called 2 zero_output;
         wallcycle_sub_stop EwaldCorrection;
         ewald_charge_correction_called;
         closeAfterForceComputationCpu;
         wallcycle_start PmeMesh].
Proof.
  split; [reflexivity|]. split; [vm_compute; reflexivity|].
  apply (closeAfterForceComputationCpu_before_gmx_pme_do (sample_ext (-1) 0) sample_cfg
           sample_state _ [gmx_pme_do_returned 0; wallcycle_stop PmeMesh] eq_refl).
  vm_compute. reflexivity.
Defined.


(** C8 as stated fails on a step that does not compute the non-bonded
    forces: the run configuration has an Ewald surface contribution, and
    [ewald_LRcorrection] is not called. *)
Lemma surface_correction_not_iff_configured :
  ~ (LRcorrection_called
       (trace_of (calculateLongRangeNonbondeds (sample_ext (-1) 0) sample_cfg_no_nonbonded
                    sample_state))
     <-> haveEwaldSurfaceContribution sample_cfg_no_nonbonded = true).
Proof.
  intros [_ Hcalled]. destruct (Hcalled eq_refl) as (t & r & Hin).
  vm_compute in Hin. exact Hin.
Qed.

(** C8 as the code has it, on the sample: the surface correction is
    computed; and in a run that computes no correction, [ewaldOutput] is
    zero at the merge, which adds the zero matrix to the virial. *)
Lemma surface_correction_computed_witness :
  trace sample_state = []
  /\ 1 <= nthread_ewc sample_cfg
  /\ calculateLongRangeNonbondeds (sample_ext (-1) 0) sample_cfg sample_state <> Undefined
  /\ LRcorrection_called
       (trace_of (calculateLongRangeNonbondeds (sample_ext (-1) 0) sample_cfg sample_state))
  /\ doLongRange sample_cfg_no_correction = true
  /\ doSurfaceCorrection sample_cfg_no_correction = false
  /\ calculateLongRangeNonbondeds (sample_ext (-1) 0) sample_cfg_no_correction sample_state
     = Returns tt sample_final_no_correction
  /\ ewc_t sample_final_no_correction !! 0%nat = Some zero_output
  /\ virial_ sample_final_no_correction
     = m_add (m_add (virial_ sample_state) clear_mat) clear_mat.
Proof.
  assert (calculateLongRangeNonbondeds (sample_ext (-1) 0) sample_cfg sample_state <> Undefined)
    as Hdef by (vm_compute; discriminate).
  assert (1 <= nthread_ewc sample_cfg) as Hn by (vm_compute; discriminate).
  assert (calculateLongRangeNonbondeds (sample_ext (-1) 0) sample_cfg_no_correction
            sample_state
          = Returns tt sample_final_no_correction) as Hrun by (vm_compute; reflexivity).
  split; [reflexivity|]. split; [exact Hn|]. split; [exact Hdef|]. split.
  { destruct (surface_correction_computed_iff (sample_ext (-1) 0) sample_cfg sample_state)
      as [Hiff _].
    apply (Hiff eq_refl Hn Hdef). reflexivity. }
  split; [reflexivity|]. split; [reflexivity|]. split; [exact Hrun|].
  destruct (surface_correction_computed_iff (sample_ext (-1) 0) sample_cfg_no_correction
              sample_state) as (_ & Hzero & _).
  destruct (Hzero eq_refl eq_refl sample_final_no_correction Hrun)
    as (out & H0 & _ & _ & _ & _ & _ & Hall).
  destruct (Hall eq_refl eq_refl eq_refl) as (Hout & Hv & _).
  split; [rewrite H0, Hout; reflexivity | exact Hv].
Defined.

Lemma sample_schedule_201 : schedule sample_cfg [2; 0; 1].
Proof.
  unfold schedule. change (seqZ 0 (nthread_ewc sample_cfg)) with [0; 1; 2].
  apply (perm_trans (perm_swap 0 2 [1])). apply perm_skip, perm_swap.
Qed.


Lemma sample_schedule_210 : schedule sample_cfg [2; 1; 0].
Proof.
  unfold schedule. change (seqZ 0 (nthread_ewc sample_cfg)) with [0; 1; 2].
  apply (perm_trans (perm_skip 2 (perm_swap 0 1 []))).
  apply (perm_trans (perm_swap 0 2 [1])). apply perm_skip, perm_swap.
Qed.

(** The threads of [sample_LRcorrection_particles] work on their own
    particles. *)
Lemma sample_threads_independent :
  threads_independent sample_ext_particles (nthread_ewc sample_cfg).
Proof.
  split.
  - intros t f f' Ht. reflexivity.
  - intros t t' f Ht Ht' Hne. unfold LRcorrection_forces. cbn.
    apply list_alter_alter_ne. lia.
Qed.


(** The sample execution stays within its three records. *)
Lemma calculateLongRangeNonbondeds_defined_witness :
  (1 <= length (ewc_t sample_state))%nat
  /\ nthread_ewc sample_cfg <= Z.of_nat (length (ewc_t sample_state))
  /\ calculateLongRangeNonbondeds (sample_ext (-1) 0) sample_cfg sample_state <> Undefined.
Proof.
  assert (1 <= length (ewc_t sample_state))%nat as H1 by (cbn; lia).
  assert (nthread_ewc sample_cfg <= Z.of_nat (length (ewc_t sample_state))) as Hn
    by (cbn; lia).
  split; [exact H1|]. split; [exact Hn|].
  apply (calculateLongRangeNonbondeds_defined (sample_ext (-1) 0) sample_cfg sample_state H1 Hn).
Defined.

Lemma fatal_only_on_failure_witness :
  trace sample_state = []
  /\ calculateLongRangeNonbondeds (sample_ext (-1) 3) sample_cfg sample_state
     = Fatal (PmeError 3) sample_fatal
  /\ failed sample_cfg (trace sample_fatal).
Proof.
  assert (calculateLongRangeNonbondeds (sample_ext (-1) 3) sample_cfg sample_state
          = Fatal (PmeError 3) sample_fatal) as Hrun by (vm_compute; reflexivity).
  split; [reflexivity|]. split; [exact Hrun|].
  apply (fatal_only_on_failure (sample_ext (-1) 3) sample_cfg sample_state sample_fatal
           (PmeError 3) eq_refl Hrun).
Defined.

(** X4 on the sample: the three iterations run in the order 2, 0, 1. *)
Lemma records_cleared_in_any_order_witness :
  NoDup [2; 0; 1]
  /\ ewc_t sample_state_cleared !! 0%nat = Some zero_output
  /\ exists new,
       trace_of (for_threads (ewaldCorrectionThread (sample_ext (-1) 0) 3) [2; 0; 1]
                   sample_state_cleared)
       = trace sample_state_cleared ++ new
       /\ forall t r, In (ewald_LRcorrection_called t r) new ->
                      In t [2; 0; 1] /\ r = zero_output.
Proof.
  assert (NoDup [2; 0; 1]) as Hnd.
  { repeat (apply NoDup_cons; split; [intros Hin; apply list_elem_of_In in Hin;
                                       in_cases Hin; discriminate Hin|]).
    apply NoDup_nil. exact I. }
  assert (forall t, In t [2; 0; 1] -> 0 <= t) as Hpos.
  { intros t Hin. in_cases Hin; subst t; lia. }
  assert (for_threads (ewaldCorrectionThread (sample_ext (-1) 0) 3) [2; 0; 1]
            sample_state_cleared <> Undefined) as Hdef by (vm_compute; discriminate).
  split; [exact Hnd|]. split; [reflexivity|].
  apply (records_cleared_in_any_order (sample_ext (-1) 0) 3 [2; 0; 1] sample_state_cleared
           Hnd Hpos (fun _ => eq_refl) Hdef).
Defined.

(** X5 on the sample: the eleven calls of the execution. *)
Lemma calls_of_a_returning_execution_witness :
  schedule sample_cfg [2; 0; 1]
  /\ calculateLongRangeNonbondedsIn (sample_ext (-1) 0) [2; 0; 1] sample_cfg sample_state
     = Returns tt sample_final_201
  /\ calls_in (real := float) [2; 0; 1] sample_cfg
     = [wallcycle_sub_start EwaldCorrection;
        ewald_LRcorrection_called 2 zero_output;
        ewald_LRcorrection_called 0 zero_output;
        ewald_LRcorrection_called 1 zero_output;
        wallcycle_sub_stop EwaldCorrection;
        ewald_charge_correction_called;
        closeAfterForceComputationCpu;
        wallcycle_start PmeMesh;
        gmx_pme_do_called;
        gmx_pme_do_returned 0;
        wallcycle_stop PmeMesh]
  /\ trace sample_final_201 = trace sample_state ++ calls_in [2; 0; 1] sample_cfg.
Proof.
  assert (calculateLongRangeNonbondedsIn (sample_ext (-1) 0) [2; 0; 1] sample_cfg sample_state
          = Returns tt sample_final_201) as Hrun by (vm_compute; reflexivity).
  split; [exact sample_schedule_201|]. split; [exact Hrun|]. split; [reflexivity|].
  apply (calls_of_a_returning_execution (sample_ext (-1) 0) sample_cfg [2; 0; 1] sample_state
           sample_final_201 sample_schedule_201 Hrun).
Defined.

(** X6 on the sample: the reciprocal solver returns the status 3. *)
Lemma calls_of_a_fatal_execution_witness :
  schedule sample_cfg [2; 1; 0]
  /\ calculateLongRangeNonbondedsIn (sample_ext 1 0) [2; 1; 0] sample_cfg sample_state
     = Fatal (ExceptionInThread 1) sample_thrown_210
  /\ trace sample_thrown_210
     = [wallcycle_sub_start EwaldCorrection;
        ewald_LRcorrection_called 2 zero_output;
        ewald_LRcorrection_called 1 zero_output;
        ewald_LRcorrection_threw 1]
  /\ fatal_reason sample_cfg (ExceptionInThread 1)
  /\ exists evs, trace sample_thrown_210 = trace sample_state ++ evs
                 /\ calls_until_throw sample_cfg 1 evs.
Proof.
  assert (calculateLongRangeNonbondedsIn (sample_ext 1 0) [2; 1; 0] sample_cfg sample_state
          = Fatal (ExceptionInThread 1) sample_thrown_210) as Hrun by (vm_compute; reflexivity).
  split; [exact sample_schedule_210|]. split; [exact Hrun|]. split; [reflexivity|].
  apply (calls_of_a_fatal_execution (sample_ext 1 0) sample_cfg [2; 1; 0] sample_state
           sample_thrown_210 (ExceptionInThread 1) sample_schedule_210 Hrun).
Defined.

(** X7 on the sample: both counters are stopped when the execution returns. *)
Lemma wallcycle_counters_bracketed_witness :
  trace sample_state = []
  /\ wallcycle_run (false, false) (trace sample_final) = Some (false, false).
Proof.
  assert (calculateLongRangeNonbondeds (sample_ext (-1) 0) sample_cfg sample_state
          = Returns tt sample_final) as Hrun by (vm_compute; reflexivity).
  split; [reflexivity|].
  pose proof (wallcycle_counters_bracketed (sample_ext (-1) 0) sample_cfg sample_state
                eq_refl) as Hw.
  rewrite Hrun in Hw. exact Hw.
Defined.

(** X8 on the sample: [gmx_pme_do] is called, [do_ewald] is not. *)
Lemma routines_called_as_configured_witness :
  trace sample_state = []
  /\ doReciprocalPme sample_cfg = true
  /\ In (gmx_pme_do_called (real := float)) (trace sample_final)
  /\ doPlainEwald sample_cfg = false
  /\ ~ In (do_ewald_called (real := float)) (trace sample_final).
Proof.
  assert (calculateLongRangeNonbondeds (sample_ext (-1) 0) sample_cfg sample_state
          = Returns tt sample_final) as Hrun by (vm_compute; reflexivity).
  destruct (routines_called_as_configured (sample_ext (-1) 0) sample_cfg sample_state eq_refl)
    as (_ & _ & _ & Hewald & Hcalled).
  destruct (Hcalled sample_final Hrun) as (_ & Hpme & _ & _).
  rewrite Hrun in Hewald. cbn [trace_of] in Hewald.
  split; [reflexivity|]. split; [reflexivity|]. split; [apply Hpme; reflexivity|].
  split; [reflexivity|]. intros Hin. specialize (Hewald Hin). discriminate Hewald.
Defined.

(** X9 on the sample, in double precision, with PME on a GPU: the energy
    term F_LJ_RECIP is set to 0. *)
Lemma Lennard_Jones_correction_is_zero_witness :
  r_add (r_zero (real := float)) r_zero = r_zero
  /\ doLongRange sample_cfg_pme_gpu = true
  /\ calculateLongRangeNonbondeds (sample_ext (-1) 0) sample_cfg_pme_gpu sample_state
     = Returns tt sample_final_pme_gpu
  /\ doReciprocalPme sample_cfg_pme_gpu = false
  /\ term sample_final_pme_gpu F_LJ_RECIP = 0%float.
Proof.
  assert (calculateLongRangeNonbondeds (sample_ext (-1) 0) sample_cfg_pme_gpu sample_state
          = Returns tt sample_final_pme_gpu) as Hrun by (vm_compute; reflexivity).
  assert (r_add (r_zero (real := float)) r_zero = r_zero) as Hzero by reflexivity.
  split; [exact Hzero|]. split; [reflexivity|]. split; [exact Hrun|]. split; [reflexivity|].
  destruct (Lennard_Jones_correction_is_zero (sample_ext (-1) 0) sample_cfg_pme_gpu
              sample_state sample_final_pme_gpu Hzero eq_refl Hrun)
    as (out & _ & _ & Hno).
  destruct (Hno eq_refl) as (Hterm & _). exact Hterm.
Defined.

(** X11 on the sample: three threads, each with the energy 1.5 and the
    dV/dlambda 0.25; the sums are 4.5 and 0.75. *)
Lemma ewaldSurfaceCorrection_sums_witness :
  schedule sample_cfg [2; 0; 1]
  /\ threads_independent sample_ext_particles (nthread_ewc sample_cfg)
  /\ ewc_t sample_particles_cleared !! 0%nat = Some zero_output
  /\ 1 <= nthread_ewc sample_cfg <= Z.of_nat (length (ewc_t sample_particles_cleared))
  /\ exists s' out,
       ewaldSurfaceCorrectionIn sample_ext_particles [2; 0; 1] sample_cfg
         sample_particles_cleared
       = Returns tt s'
       /\ force_ s' = [Vec3 1%float 0%float 0%float; Vec3 2%float 0%float 0%float;
                       Vec3 3%float 0%float 0%float]
       /\ ewc_t s' !! 0%nat = Some out
       /\ Vcorr_q out = 8%float
       /\ ea_get (dvdl out) Coul = 0.75%float.
Proof.
  assert (1 <= nthread_ewc sample_cfg <= Z.of_nat (length (ewc_t sample_particles_cleared)))
    as Hn by (cbn; lia).
  assert (forall t, 0 <= t < nthread_ewc sample_cfg ->
                    LRcorrection_result sample_ext_particles (nthread_ewc sample_cfg) t
                      (force_ sample_particles_cleared) <> None) as Hok
    by (intros t Ht; discriminate).
  split; [exact sample_schedule_201|]. split; [exact sample_threads_independent|].
  split; [reflexivity|]. split; [exact Hn|].
  destruct (ewaldSurfaceCorrection_sums sample_ext_particles sample_cfg [2; 0; 1]
              sample_particles_cleared sample_schedule_201 sample_threads_independent
              eq_refl Hn Hok)
    as (s' & out & Hrun & Hf & H0 & Hq & Hd).
  exists s', out. split; [exact Hrun|].
  assert (corrected_forces sample_ext_particles (nthread_ewc sample_cfg)
            (force_ sample_particles_cleared)
          = [Vec3 1%float 0%float 0%float; Vec3 2%float 0%float 0%float;
             Vec3 3%float 0%float 0%float]) as Hf' by (vm_compute; reflexivity).
  assert (sum_over_threads Vcorr_q
            (thread_records sample_ext_particles (nthread_ewc sample_cfg)
               (force_ sample_particles_cleared))
          = Some 8%float) as Hq' by (vm_compute; reflexivity).
  assert (sum_over_threads (fun r => ea_get (dvdl r) Coul)
            (thread_records sample_ext_particles (nthread_ewc sample_cfg)
               (force_ sample_particles_cleared))
          = Some 0.75%float) as Hd' by (vm_compute; reflexivity).
  rewrite Hf' in Hf. rewrite Hq' in Hq. rewrite Hd' in Hd.
  injection Hq as Hq. injection Hd as Hd.
  split; [exact Hf|]. split; [exact H0|]. split; symmetry; [exact Hq | exact Hd].
Defined.

(** X12 on the sample, whose electrostatics are not plain Ewald: a [do_ewald]
    that returns the energy 99 and no forces changes nothing. *)
Lemma solvers_not_configured_do_not_matter_witness :
  doPlainEwald sample_cfg = false
  /\ calculateLongRangeNonbondeds
       (with_do_ewald (fun f lrvir dvdlambda et => (99%float, [], lrvir, dvdlambda, et))
                      (sample_ext (-1) 0))
       sample_cfg sample_state
     = calculateLongRangeNonbondeds (sample_ext (-1) 0) sample_cfg sample_state.
Proof.
  split; [reflexivity|].
  destruct (solvers_not_configured_do_not_matter (sample_ext (-1) 0) sample_cfg sample_state)
    as (_ & _ & Hewald).
  apply (Hewald eq_refl).
Defined.

(** X13 on the sample: thread 1 leaves the records of threads 0 and 2. *)
Lemma thread_works_on_its_own_record_witness :
  0 <= 1
  /\ exists s',
       ewaldCorrectionThread (sample_ext (-1) 0) 3 1 sample_state = Returns tt s'
       /\ ewc_t s' !! 0%nat = Some (sample_output 9)
       /\ ewc_t s' !! 1%nat = Some sample_thread_output
       /\ ewc_t s' !! 2%nat = Some (sample_output 7).
Proof.
  assert (0 <= 1) as Ht by lia.
  split; [exact Ht|].
  pose proof (thread_works_on_its_own_record (sample_ext (-1) 0) 3 1 sample_state Ht) as Hw.
  destruct (ewaldCorrectionThread (sample_ext (-1) 0) 3 1 sample_state) as [[] s'|c s'|] eqn:Hrun;
    [|vm_compute in Hrun; discriminate Hrun..].
  destruct Hw as (_ & Hother & _).
  exists s'. split; [reflexivity|].
  split; [exact (Hother 0%nat ltac:(discriminate))|].
  split; [|exact (Hother 2%nat ltac:(discriminate))].
  vm_compute in Hrun. injection Hrun as <-. reflexivity.
Defined.
